(** * iron-replay-player: frame store, ingestion and playback loop

    A shallow embedding of the TypeScript/Svelte sources of the replay
    player, and the properties of its specification proved on it.

    Definitions, in the order of the file:
    - [Result], [Async]: settled promises and [async] functions;
    - [PduStore]: [lib/pdu-store.ts];
    - [JS]: the built-ins the uploader calls (regular expressions on
      digits, [parseInt], [Array.prototype.sort]);
    - [FolderUploader]: [lib/FolderUploader.svelte];
    - [UploadPage]: [routes/+page.svelte];
    - [Wasm]: the interface of the replay engine;
    - [Player]: [lib/ReplayPlayer.svelte] and
      [routes/player/+page.svelte], one definition per function, indexed
      by the host;
    - [Ingest], [IngestMore], [PlayerMore]: the notions the properties
      are stated with;
    - [Sample], [SampleEngine], [FlagEngine]: concrete browsers, folders
      and engines to run the definitions on.

    Conventions of the embedding.
    - JavaScript numbers that hold integers (frame indices, millisecond
      offsets, results of [parseInt] on digit strings) are values of [Z];
      [NaN] is [None] where it can arise.  Doubles are exact on integers
      below 2^53, which is the range the embedding speaks about.
    - An [async] function is a state transformer that returns a settled
      promise: [Resolved v] or [Rejected msg] ([msg] is the [message] of
      the thrown [Error]).  The state is returned in both cases, so the
      effect of the calls made before a rejection stays visible.
    - What the browser supplies ([localeCompare], [JSON.parse], the
      outcome of IndexedDB requests, the wasm replay engine) is a
      parameter of the definitions.
    - The playback loop is a machine over its [await] points, so that
      what a click does while the loop is suspended can be stated.
    - Some definitions are the code on part of its inputs only: digit
      runs up to 2^53 - 1 ([Ingest.safeName]), comparators that are
      consistent on the array sorted ([IngestMore.consistent]), buffers
      of the size the engine reports ([PlayerMore.WellSized]), timing
      descriptors that are JSON arrays.  A theorem that depends on such
      a definition beyond what holds of every input has the restriction
      as a hypothesis. *)

From Stdlib Require Import ZArith Ascii String List Lia Permutation.
From stdpp Require Import gmap strings list pretty sorting.

Open Scope string_scope.
Open Scope Z_scope.

Abbreviation bytes := (list Byte.byte).

(** ** Settled promises and the async monad *)

Inductive Result (A : Type) : Type :=
| Resolved (a : A)
| Rejected (msg : string).
Arguments Resolved {A} a.
Arguments Rejected {A} msg.

Definition Async (S A : Type) : Type := S -> S * Result A.

Definition aret {S A} (a : A) : Async S A := fun s => (s, Resolved a).

Definition athrow {S A} (msg : string) : Async S A := fun s => (s, Rejected msg).

Definition abind {S A B} (m : Async S A) (k : A -> Async S B) : Async S B :=
  fun s => match m s with
           | (s', Resolved a) => k a s'
           | (s', Rejected msg) => (s', Rejected msg)
           end.

Definition amodify {S} (f : S -> S) : Async S unit := fun s => (f s, Resolved tt).

(** stdpp's monad notations: [x ← m; k] awaits [m] and binds its value. *)
#[global] Instance async_ret {S} : MRet (Async S) := fun A => @aret S A.
#[global] Instance async_bind {S} : MBind (Async S) := fun A B k m => @abind S A B m k.

(** ** pdu-store.ts *)

Module PduStore.

(** [interface TimingEntry] *)
Record TimingEntry : Type := {
  te_index : Z;
  te_type : string;
  te_source : string;
  timeOffset : Z;
  te_size : Z
}.

(** The object store [frames] of the database [rdp-pdus] (keys are the
    numbers passed to [put]) together with the module variable
    [dbInstance] ([true]: a connection is cached). *)
Record IDB : Type := {
  dbInstance : bool;
  frames : gmap Z bytes
}.

(** Outcome of the IndexedDB requests, as the browser decides it:
    [Some msg] is [request.error.message] of a failed request. *)
Record Requests : Type := {
  open_error : option string;
  clear_error : gmap Z bytes -> option string;
  put_error : gmap Z bytes -> Z -> bytes -> option string;
  get_error : gmap Z bytes -> Z -> option string;
  count_error : gmap Z bytes -> option string
}.

Definition DB_NAME : string := "rdp-pdus".

Section WithRequests.
Variable rq : Requests.

Definition openDatabase : Async IDB unit := fun db =>
  if dbInstance db then (db, Resolved tt)
  else match open_error rq with
       | Some msg => (db, Rejected ("Failed to open database: " ++ msg))
       | None => ({| dbInstance := true; frames := frames db |}, Resolved tt)
       end.

Definition clearFrames : Async IDB unit :=
  openDatabase ;;
  (fun db => match clear_error rq (frames db) with
             | Some msg => (db, Rejected ("Failed to clear frames: " ++ msg))
             | None => ({| dbInstance := dbInstance db; frames := ∅ |}, Resolved tt)
             end) : Async IDB _.

Definition storeFrame (index : Z) (data : bytes) : Async IDB unit :=
  openDatabase ;;
  (fun db => match put_error rq (frames db) index data with
             | Some msg => (db, Rejected ("Failed to store frame " ++ pretty index ++ ": " ++ msg))
             | None => ({| dbInstance := dbInstance db;
                           frames := <[index := data]> (frames db) |}, Resolved tt)
             end) : Async IDB _.

Definition getFrame (index : Z) : Async IDB (option bytes) :=
  openDatabase ;;
  (fun db => match get_error rq (frames db) index with
             | Some msg => (db, Rejected ("Failed to get frame " ++ pretty index ++ ": " ++ msg))
             | None => (db, Resolved (frames db !! index))
             end) : Async IDB _.

Definition getFrameCount : Async IDB Z :=
  openDatabase ;;
  (fun db => match count_error rq (frames db) with
             | Some msg => (db, Rejected ("Failed to count frames: " ++ msg))
             | None => (db, Resolved (Z.of_nat (size (frames db))))
             end) : Async IDB _.

Definition closeDatabase (db : IDB) : IDB :=
  if dbInstance db then {| dbInstance := false; frames := frames db |} else db.

End WithRequests.

(** *** [storeFrames] *)

Section WithTransaction.
Variable rq : Requests.
(** What [transaction.error?.message] reads in [transaction.onerror]
    when the error of a put request that failed with the given message
    arrives there. *)
Variable transaction_message : string -> string.

(** The puts of [storeFrames], in the order of [forEach]: frame [i] of
    the array goes under the key [index + i].  A failed put request
    stops the batch with its error. *)
Fixpoint putBatch (m : gmap Z bytes) (index : Z) (fs : list bytes)
  : Result (gmap Z bytes) :=
  match fs with
  | [] => Resolved m
  | frame :: rest =>
      match put_error rq m index frame with
      | Some msg => Rejected msg
      | None => putBatch (<[index := frame]> m) (index + 1) rest
      end
  end.

(** [storeFrames]: every put is made in one transaction.  The error of
    a failed put request reaches [transaction.onerror] and the
    transaction is aborted, so none of its puts is kept. *)
Definition storeFrames (fs : list bytes) : Async IDB unit :=
  openDatabase rq ;;
  (fun db => match putBatch (frames db) 0 fs with
             | Rejected msg =>
                 (db, Rejected ("Transaction failed: " ++ transaction_message msg))
             | Resolved m => ({| dbInstance := dbInstance db; frames := m |}, Resolved tt)
             end) : Async IDB _.

End WithTransaction.

(** The length a JavaScript array can have at most: 2^32 - 1. *)
Definition MAX_ARRAY_LENGTH : Z := 4294967295.

(** [frames[key] = value] on a JavaScript array whose elements are
    [Some v] or a hole: an index inside the array is overwritten, an
    index past the end extends the array with holes, and a key that is
    no array index (negative, or above 2^32 - 2) names a property and
    leaves the elements alone. *)
Definition array_set (a : list (option bytes)) (key : Z) (v : bytes)
  : list (option bytes) :=
  if (key <? 0) || (MAX_ARRAY_LENGTH <=? key) then a
  else
    let i := Z.to_nat key in
    if (i <? length a)%nat then <[i := Some v]> a
    else (a ++ replicate (i - length a) None ++ [Some v])%list.

(** The element [a[i]]: [None] is [undefined] (a hole, or past the
    end). *)
Definition array_get (a : list (option bytes)) (i : nat) : option bytes :=
  match a !! i with
  | Some (Some v) => Some v
  | _ => None
  end.

(** A JavaScript array never ends in a hole. *)
Definition no_trailing_hole (a : list (option bytes)) : Prop :=
  a = [] ∨ ∃ v, last a = Some (Some v).

(** The records a cursor over the store visits: ascending keys. *)
Definition key_le (a b : Z * bytes) : Prop := a.1 ≤ b.1.
#[global] Instance key_le_dec : RelDecision key_le := fun a b => decide (a.1 ≤ b.1).

Definition cursor_order (m : gmap Z bytes) : list (Z * bytes) :=
  merge_sort key_le (map_to_list m).

Section WithCursor.
Variable rq : Requests.
(** [Some msg]: the [openCursor] request fails. *)
Variable cursor_error : gmap Z bytes -> option string.

(** [getAllFrames]: the cursor assigns each value at its key. *)
Definition getAllFrames : Async IDB (list (option bytes)) :=
  openDatabase rq ;;
  (fun db => match cursor_error (frames db) with
             | Some msg => (db, Rejected ("Failed to get all frames: " ++ msg))
             | None =>
                 (db, Resolved (foldl (fun a kv => array_set a kv.1 kv.2) []
                                  (cursor_order (frames db))))
             end) : Async IDB _.

End WithCursor.

(** *** [parsePduHeader] *)

Definition byteZ (b : Byte.byte) : Z := Z.of_N (Byte.to_N b).

(** [data[i]] for [i] below [data.length]. *)
Definition byteAt (data : bytes) (i : nat) : Z :=
  match data !! i with
  | Some b => byteZ b
  | None => 0
  end.

(** The type and the expected length read from a PDU header; -1 where
    the header is cut short. *)
Definition parsePduHeader (data : bytes) : string * Z :=
  if (length data <? 1)%nat then ("empty", 0)
  else
    let firstByte := byteAt data 0 in
    if firstByte =? 3 then
      if (length data <? 4)%nat then ("X224 (incomplete header)", -1)
      else
        let len := Z.lor (Z.shiftl (byteAt data 2) 8) (byteAt data 3) in
        ("X224/TPKT", len)
    else
      if (length data <? 2)%nat then ("FastPath (incomplete header)", -1)
      else
        let lengthByte1 := byteAt data 1 in
        if negb (Z.land lengthByte1 128 =? 0) then
          if (length data <? 3)%nat then ("FastPath (incomplete length)", -1)
          else
            let lengthByte2 := byteAt data 2 in
            ("FastPath", Z.lor (Z.shiftl (Z.land lengthByte1 127) 8) lengthByte2)
        else ("FastPath", lengthByte1).

(** A browser in which no IndexedDB request fails. *)
Definition no_faults : Requests := {|
  open_error := None;
  clear_error := fun _ => None;
  put_error := fun _ _ _ => None;
  get_error := fun _ _ => None;
  count_error := fun _ => None
|}.

End PduStore.

(** ** The JavaScript built-ins the uploader calls *)

Module JS.

(** [\d] *)
Definition isDigit (c : ascii) : bool :=
  ((48 <=? N_of_ascii c) && (N_of_ascii c <=? 57))%N.

Definition digitValue (c : ascii) : Z := Z.of_N (N_of_ascii c) - 48.

(** The longest prefix of decimal digits. *)
Fixpoint takeDigits (s : string) : string :=
  match s with
  | EmptyString => EmptyString
  | String c s' => if isDigit c then String c (takeDigits s') else EmptyString
  end.

(** [s.match(/^(\d+)/)]: the captured group, [None] for [null]. *)
Definition match_leading_digits (s : string) : option string :=
  match takeDigits s with
  | EmptyString => None
  | d => Some d
  end.

Fixpoint allDigits (s : string) : bool :=
  match s with
  | EmptyString => true
  | String c s' => isDigit c && allDigits s'
  end.

(** [/^\d+$/.test(s)] *)
Definition test_only_digits (s : string) : bool :=
  match s with
  | EmptyString => false
  | _ => allDigits s
  end.

(** [Number.MAX_SAFE_INTEGER], 2^53 - 1: up to it every integer is a
    JavaScript number, and sums and differences of such integers are
    exact. *)
Definition MAX_SAFE_INTEGER : Z := 9007199254740991.

(** Value of a digit string read in base 10, most significant first.
    It is the number JavaScript reads from the string as long as it is
    at most [MAX_SAFE_INTEGER]; a longer run of digits is rounded to a
    double by the code, which these definitions leave out: what is
    proved of the values of names is proved of names within that
    range. *)
Fixpoint decimal (acc : Z) (s : string) : Z :=
  match s with
  | EmptyString => acc
  | String c s' => decimal (10 * acc + digitValue c) s'
  end.

Definition isWhiteSpace (c : ascii) : bool :=
  let n := N_of_ascii c in
  ((n =? 9) || (n =? 10) || (n =? 11) || (n =? 12) || (n =? 13) || (n =? 32))%N.

Fixpoint trimStart (s : string) : string :=
  match s with
  | String c s' => if isWhiteSpace c then trimStart s' else s
  | EmptyString => EmptyString
  end.

(** [parseInt(s, 10)]: leading white space is skipped, a sign is read,
    then the longest run of digits; [None] is [NaN].  The uploader also
    calls [parseInt] without a radix, on a captured run of decimal
    digits only, where the radix defaults to 10.  The result is the
    one of the code for runs that denote at most [MAX_SAFE_INTEGER]
    (see [decimal]). *)
Definition parseInt (s : string) : option Z :=
  let '(sign, body) :=
    match trimStart s with
    | String "-" r => (-1, r)
    | String "+" r => (1, r)
    | r => (1, r)
    end in
  match takeDigits body with
  | EmptyString => None
  | d => Some (sign * decimal 0 d)
  end.

(** [Array.prototype.sort(comparefn)]: a stable sort; [x] stays in front
    of [y] unless [comparefn(x, y) > 0].  [x] is inserted into the
    sorted remainder of the array.  With a comparator that is
    consistent on the array (ECMAScript's term: it divides the elements
    into classes that it orders totally) the result of a stable sort is
    determined, and this is it; with another comparator the order the
    engine's algorithm leaves is its own, and only what holds of every
    permutation of the array is proved of it. *)
Section Sort.
Context {A : Type} (comparefn : A -> A -> Z).

Fixpoint insert_sorted (x : A) (l : list A) : list A :=
  match l with
  | [] => [x]
  | y :: l' => if comparefn x y <=? 0 then x :: y :: l'
               else y :: insert_sorted x l'
  end.

Fixpoint sort (l : list A) : list A :=
  match l with
  | [] => []
  | x :: l' => insert_sorted x (sort l')
  end.
End Sort.

End JS.

(** ** FolderUploader.svelte *)

Module FolderUploader.
Import PduStore.

(** A [File] of the selected folder: its name and what reading it
    yields ([Rejected] when the read fails). *)
Record File : Type := {
  name : string;
  contents : Result bytes
}.

Definition arrayBuffer (f : File) : Result bytes := contents f.

Definition text (f : File) : Result string :=
  match contents f with
  | Resolved b => Resolved (string_of_list_byte b)
  | Rejected msg => Rejected msg
  end.

Inductive Status : Type := idle | loading | success | error.

(** [interface UploadState] *)
Record UploadState : Type := {
  status : Status;
  message : string;
  progress : Z;
  total : Z
}.

(** The component's variables and the database it writes to. *)
Record World : Type := {
  timing : list TimingEntry;
  uploadState : UploadState;
  frameCount : Z;
  idb : IDB
}.

Definition set_timing (t : list TimingEntry) (w : World) : World :=
  {| timing := t; uploadState := uploadState w;
     frameCount := frameCount w; idb := idb w |}.

Definition set_uploadState (u : UploadState) (w : World) : World :=
  {| timing := timing w; uploadState := u;
     frameCount := frameCount w; idb := idb w |}.

Definition set_frameCount (n : Z) (w : World) : World :=
  {| timing := timing w; uploadState := uploadState w;
     frameCount := n; idb := idb w |}.

(** Run a pdu-store call on the database of the world. *)
Definition onDB {A} (m : Async IDB A) : Async World A := fun w =>
  let '(db, r) := m (idb w) in
  ({| timing := timing w; uploadState := uploadState w;
      frameCount := frameCount w; idb := db |}, r).

(** Await a promise that is already settled. *)
Definition settled {A} (r : Result A) : Async World A := fun w => (w, r).

Section WithBrowser.
(** [a.localeCompare(b, undefined, { numeric: true })] *)
Variable localeCompare : string -> string -> Z.
(** [JSON.parse], read at the type the component declares for it. *)
Variable JSON_parse : string -> Result (list TimingEntry).
Variable rq : Requests.

(** The comparator of [naturalSort]; a [NaN] difference counts as 0. *)
Definition naturalCompare (a b : File) : Z :=
  match JS.match_leading_digits (name a), JS.match_leading_digits (name b) with
  | Some aMatch, Some bMatch =>
      match JS.parseInt aMatch, JS.parseInt bMatch with
      | Some x, Some y => x - y
      | _, _ => 0
      end
  | _, _ => localeCompare (name a) (name b)
  end.

Definition naturalSort (files : list File) : list File :=
  JS.sort naturalCompare files.

(** One iteration of the [for] loop of the [try] block: the file at
    position [i] of the [n] candidates. *)
Definition storeOne (n : nat) (i : Z) (file : File) : Async World unit :=
  uint8Array ← settled (arrayBuffer file);
  match JS.parseInt (name file) with
  | Some frameIndex => onDB (storeFrame rq frameIndex uint8Array)
  | None => athrow "DataError"
  end ;;
  amodify (fun w => set_uploadState
             {| status := status (uploadState w);
                message := "Loaded " ++ pretty (i + 1) ++ "/" ++ pretty n
                           ++ ": " ++ name file;
                progress := i + 1;
                total := total (uploadState w) |} w).

(** The loop from position [i] on. *)
Fixpoint storeLoop (n : nat) (i : Z) (pduFiles : list File) : Async World unit :=
  match pduFiles with
  | [] => mret tt
  | file :: rest => storeOne n i file ;; storeLoop n (i + 1) rest
  end.

(** The [try] block.  The success message reads [timing.length]; the
    timing is an array here (see [loadTiming]), so the read does not
    throw.  What is proved of the status and the message of a finished
    ingestion is therefore proved of timing descriptors that parse to an
    array or do not parse; the frames and the frame count are settled
    before that read. *)
Definition storeAll (pduFiles : list File) : Async World unit :=
  let n := length pduFiles in
  onDB (clearFrames rq) ;;
  storeLoop n 0 pduFiles ;;
  count ← onDB (getFrameCount rq);
  amodify (set_frameCount count) ;;
  amodify (fun w => set_uploadState
             {| status := success;
                message := "Successfully loaded " ++ pretty n ++ " PDU frames"
                           ++ (match timing w with
                               | [] => ""
                               | _ => " with timing data"
                               end);
                progress := Z.of_nat n;
                total := Z.of_nat n |} w).

(** The timing descriptor: [fileArray.find(...)] and the inner
    [try]/[catch], whose handler only logs.  [JSON_parse] resolves to
    the entries of a text that is a JSON array and is rejected where
    [JSON.parse] throws; a text that is JSON but no array ([null], a
    number) lies outside these definitions. *)
Definition loadTiming (fileArray : list File) (w : World) : World :=
  match List.find (fun f => String.eqb (name f) "timing.json") fileArray with
  | Some timingFile =>
      match text timingFile with
      | Resolved timingText =>
          match JSON_parse timingText with
          | Resolved t => set_timing t w
          | Rejected _ => w
          end
      | Rejected _ => w
      end
  | None => set_timing [] w
  end.

Definition handleFolderSelect (files : list File) (w : World) : World :=
  match files with
  | [] => set_uploadState
            {| status := idle; message := "No files selected";
               progress := 0; total := 0 |} w
  | _ =>
      let fileArray := naturalSort files in
      let w := loadTiming fileArray w in
      let pduFiles := List.filter (fun f => JS.test_only_digits (name f)) fileArray in
      let w := set_uploadState
                 {| status := loading;
                    message := "Loading " ++ pretty (length pduFiles) ++ " PDU files...";
                    progress := 0;
                    total := Z.of_nat (length pduFiles) |} w in
      match storeAll pduFiles w with
      | (w', Resolved _) => w'
      | (w', Rejected msg) =>
          set_uploadState
            {| status := error; message := "Error: " ++ msg;
               progress := 0; total := 0 |} w'
      end
  end.

(** The candidates the loop iterates over, in its order. *)
Definition pduFiles_of (files : list File) : list File :=
  List.filter (fun f => JS.test_only_digits (name f)) (naturalSort files).

(** [refreshCount]: a failed count shows as 0. *)
Definition refreshCount (w : World) : World :=
  match onDB (getFrameCount rq) w with
  | (w', Resolved n) => set_frameCount n w'
  | (w', Rejected _) => set_frameCount 0 w'
  end.

End WithBrowser.

End FolderUploader.

(** ** routes/+page.svelte *)

Module UploadPage.
Import PduStore.

Abbreviation File := FolderUploader.File.
Abbreviation UploadState := FolderUploader.UploadState.

(** The variables of the upload page, the session-storage item
    [rdp-timing], the database, and the navigations it has scheduled
    ([setTimeout(() => goto(path), ms)]). *)
Record World : Type := {
  uploadState : UploadState;
  frameCount : Z;
  sessionTiming : option string;
  idb : IDB;
  scheduled : list (string * Z)
}.

Definition set_uploadState (u : UploadState) (w : World) : World :=
  {| uploadState := u; frameCount := frameCount w;
     sessionTiming := sessionTiming w; idb := idb w; scheduled := scheduled w |}.

Definition set_frameCount (n : Z) (w : World) : World :=
  {| uploadState := uploadState w; frameCount := n;
     sessionTiming := sessionTiming w; idb := idb w; scheduled := scheduled w |}.

Definition set_sessionTiming (t : option string) (w : World) : World :=
  {| uploadState := uploadState w; frameCount := frameCount w;
     sessionTiming := t; idb := idb w; scheduled := scheduled w |}.

Definition schedule (path : string) (ms : Z) (w : World) : World :=
  {| uploadState := uploadState w; frameCount := frameCount w;
     sessionTiming := sessionTiming w; idb := idb w;
     scheduled := (scheduled w ++ [(path, ms)])%list |}.

Definition onDB {A} (m : Async IDB A) : Async World A := fun w =>
  let '(db, r) := m (idb w) in
  ({| uploadState := uploadState w; frameCount := frameCount w;
      sessionTiming := sessionTiming w; idb := db; scheduled := scheduled w |}, r).

Definition settled {A} (r : Result A) : Async World A := fun w => (w, r).

Section WithBrowser.
Variable localeCompare : string -> string -> Z.
Variable JSON_parse : string -> Result (list TimingEntry).
Variable rq : Requests.

(** The page's [naturalSort] has the text of the component's. *)
Definition naturalSort (files : list File) : list File :=
  FolderUploader.naturalSort localeCompare files.

(** The timing descriptor in [processFiles]: the text goes to session
    storage once it has parsed; without a descriptor the item is
    removed; the [catch] handler only logs. *)
Definition loadTiming (fileArray : list File) (w : World) : World :=
  match List.find (fun f => String.eqb (FolderUploader.name f) "timing.json") fileArray with
  | Some timingFile =>
      match FolderUploader.text timingFile with
      | Resolved timingText =>
          match JSON_parse timingText with
          | Resolved _ => set_sessionTiming (Some timingText) w
          | Rejected _ => w
          end
      | Rejected _ => w
      end
  | None => set_sessionTiming None w
  end.

Definition storeOne (n : nat) (i : Z) (file : File) : Async World unit :=
  uint8Array ← settled (FolderUploader.arrayBuffer file);
  match JS.parseInt (FolderUploader.name file) with
  | Some frameIndex => onDB (storeFrame rq frameIndex uint8Array)
  | None => athrow "DataError"
  end ;;
  amodify (fun w => set_uploadState
             {| FolderUploader.status := FolderUploader.status (uploadState w);
                FolderUploader.message :=
                  "Loading frame " ++ pretty (i + 1) ++ " of " ++ pretty n;
                FolderUploader.progress := i + 1;
                FolderUploader.total := FolderUploader.total (uploadState w) |} w).

Fixpoint storeLoop (n : nat) (i : Z) (pduFiles : list File) : Async World unit :=
  match pduFiles with
  | [] => mret tt
  | file :: rest => storeOne n i file ;; storeLoop n (i + 1) rest
  end.

(** The [try] block of [processFiles]. *)
Definition storeAll (pduFiles : list File) : Async World unit :=
  let n := length pduFiles in
  onDB (clearFrames rq) ;;
  storeLoop n 0 pduFiles ;;
  count ← onDB (getFrameCount rq);
  amodify (set_frameCount count) ;;
  amodify (set_uploadState
             {| FolderUploader.status := FolderUploader.success;
                FolderUploader.message := "Loaded " ++ pretty n ++ " frames";
                FolderUploader.progress := Z.of_nat n;
                FolderUploader.total := Z.of_nat n |}) ;;
  amodify (schedule "/player" 800).

Definition processFiles (files : list File) (w : World) : World :=
  let fileArray := naturalSort files in
  let w := loadTiming fileArray w in
  let pduFiles :=
    List.filter (fun f => JS.test_only_digits (FolderUploader.name f)) fileArray in
  let w := set_uploadState
             {| FolderUploader.status := FolderUploader.loading;
                FolderUploader.message :=
                  "Loading " ++ pretty (length pduFiles) ++ " frames...";
                FolderUploader.progress := 0;
                FolderUploader.total := Z.of_nat (length pduFiles) |} w in
  match storeAll pduFiles w with
  | (w', Resolved _) => w'
  | (w', Rejected msg) =>
      set_uploadState
        {| FolderUploader.status := FolderUploader.error;
           FolderUploader.message := msg;
           FolderUploader.progress := 0; FolderUploader.total := 0 |} w'
  end.

(** [handleFolderSelect], and [handleDrop] once the dropped entries
    are read: nothing happens without files. *)
Definition handleFolderSelect (files : list File) (w : World) : World :=
  match files with
  | [] => w
  | _ => processFiles files w
  end.

Definition refreshCount (w : World) : World :=
  match onDB (getFrameCount rq) w with
  | (w', Resolved n) => set_frameCount n w'
  | (w', Rejected _) => set_frameCount 0 w'
  end.

End WithBrowser.

End UploadPage.

(** ** The wasm replay engine, as the player sees it *)

Module Wasm.

(** The [Replay] class of [ironrdp_replay_player]: [Replay] is the
    state behind a session handle; [create] is given the name of the
    database and the frames it finds there; [step] resolves to
    whether more frames remain.  Calls that throw are [Rejected]. *)
Record Engine : Type := {
  Replay : Type;
  create : string → gmap Z bytes → Z → Z → Result Replay;
  step : Replay → Result (Replay * bool);
  reset : Replay → Replay;
  currentFrame : Replay → nat;
  width : Replay → Z;
  height : Replay → Z;
  desktopWidth : Replay → Z;
  desktopHeight : Replay → Z;
  mouseX : Replay → Z;
  mouseY : Replay → Z;
  resolutionChanged : Replay → bool;
  clearResolutionChanged : Replay → Replay;
  pointerBitmapChanged : Replay → bool;
  clearPointerBitmapChanged : Replay → Replay;
  pointerWidth : Replay → Z;
  pointerHeight : Replay → Z;
  pointerHotspotX : Replay → Z;
  pointerHotspotY : Replay → Z;
  getPointerBitmap : Replay → bytes;
  getFrameBuffer : Replay → bytes
}.

End Wasm.

(** ** ReplayPlayer.svelte and routes/player/+page.svelte *)

Module Player.
Import PduStore.

(** The two hosts of the playback loop.  Their functions differ in
    the bookkeeping only ([status] in the component, [showControls]
    and [totalFrames] on the page), so each function is defined once. *)
Inductive Host : Type :=
| Component   (* lib/ReplayPlayer.svelte *)
| Page.       (* routes/player/+page.svelte *)

(** What the player does to the outside, in program order. *)
Inductive Effect : Type :=
| EngineCreate (dbName : string) (w h : Z)
| CanvasResize (w h : Z)
| PutImageData (pixels : bytes) (w h : Z)
| DrawImage (cursor : bytes) (x y : Z)
| FillRect (w h : Z)
| SetTimeout (ms : Z)
| Goto (path : string).

Definition DEFAULT_WIDTH : Z := 1920.
Definition DEFAULT_HEIGHT : Z := 1080.

Section WithEngine.
Variable E : Wasm.Engine.

(** A cached cursor canvas: its pixels and its size. *)
Record Cursor : Type := { pixels : bytes; cw : Z; ch : Z }.

(** The variables of the player. *)
Record State : Type := {
  ReplayClass : bool;                (* [Replay] is loaded *)
  replay : option (Wasm.Replay E);
  isInitialized : bool;
  isPlaying : bool;
  error : option string;
  currentFrame : nat;
  status : string;                   (* component *)
  totalFrames : Z;                   (* page *)
  ctx : bool;                        (* a 2d context was obtained *)
  cursorCanvas : option Cursor;
  canvasWidth : Z;
  canvasHeight : Z;
  timing : list TimingEntry;
  currentTimeMs : Z;
  showControls : bool;               (* page *)
  effects : list Effect
}.

Definition initial (t : list TimingEntry) : State := {|
  ReplayClass := false; replay := None; isInitialized := false;
  isPlaying := false; error := None; currentFrame := 0;
  status := "Not initialized"; totalFrames := 0; ctx := false;
  cursorCanvas := None;
  canvasWidth := DEFAULT_WIDTH; canvasHeight := DEFAULT_HEIGHT;
  timing := t; currentTimeMs := 0; showControls := true; effects := []
|}.

Definition set_ReplayClass (v : bool) (s : State) : State :=
  {| ReplayClass := v; replay := replay s; isInitialized := isInitialized s;
     isPlaying := isPlaying s; error := error s; currentFrame := currentFrame s;
     status := status s; totalFrames := totalFrames s; ctx := ctx s;
     cursorCanvas := cursorCanvas s; canvasWidth := canvasWidth s;
     canvasHeight := canvasHeight s; timing := timing s;
     currentTimeMs := currentTimeMs s; showControls := showControls s;
     effects := effects s |}.
Definition set_replay (v : option (Wasm.Replay E)) (s : State) : State :=
  {| ReplayClass := ReplayClass s; replay := v; isInitialized := isInitialized s;
     isPlaying := isPlaying s; error := error s; currentFrame := currentFrame s;
     status := status s; totalFrames := totalFrames s; ctx := ctx s;
     cursorCanvas := cursorCanvas s; canvasWidth := canvasWidth s;
     canvasHeight := canvasHeight s; timing := timing s;
     currentTimeMs := currentTimeMs s; showControls := showControls s;
     effects := effects s |}.
Definition set_isInitialized (v : bool) (s : State) : State :=
  {| ReplayClass := ReplayClass s; replay := replay s; isInitialized := v;
     isPlaying := isPlaying s; error := error s; currentFrame := currentFrame s;
     status := status s; totalFrames := totalFrames s; ctx := ctx s;
     cursorCanvas := cursorCanvas s; canvasWidth := canvasWidth s;
     canvasHeight := canvasHeight s; timing := timing s;
     currentTimeMs := currentTimeMs s; showControls := showControls s;
     effects := effects s |}.
Definition set_isPlaying (v : bool) (s : State) : State :=
  {| ReplayClass := ReplayClass s; replay := replay s; isInitialized := isInitialized s;
     isPlaying := v; error := error s; currentFrame := currentFrame s;
     status := status s; totalFrames := totalFrames s; ctx := ctx s;
     cursorCanvas := cursorCanvas s; canvasWidth := canvasWidth s;
     canvasHeight := canvasHeight s; timing := timing s;
     currentTimeMs := currentTimeMs s; showControls := showControls s;
     effects := effects s |}.
Definition set_error (v : option string) (s : State) : State :=
  {| ReplayClass := ReplayClass s; replay := replay s; isInitialized := isInitialized s;
     isPlaying := isPlaying s; error := v; currentFrame := currentFrame s;
     status := status s; totalFrames := totalFrames s; ctx := ctx s;
     cursorCanvas := cursorCanvas s; canvasWidth := canvasWidth s;
     canvasHeight := canvasHeight s; timing := timing s;
     currentTimeMs := currentTimeMs s; showControls := showControls s;
     effects := effects s |}.
Definition set_currentFrame (v : nat) (s : State) : State :=
  {| ReplayClass := ReplayClass s; replay := replay s; isInitialized := isInitialized s;
     isPlaying := isPlaying s; error := error s; currentFrame := v;
     status := status s; totalFrames := totalFrames s; ctx := ctx s;
     cursorCanvas := cursorCanvas s; canvasWidth := canvasWidth s;
     canvasHeight := canvasHeight s; timing := timing s;
     currentTimeMs := currentTimeMs s; showControls := showControls s;
     effects := effects s |}.
Definition set_status (v : string) (s : State) : State :=
  {| ReplayClass := ReplayClass s; replay := replay s; isInitialized := isInitialized s;
     isPlaying := isPlaying s; error := error s; currentFrame := currentFrame s;
     status := v; totalFrames := totalFrames s; ctx := ctx s;
     cursorCanvas := cursorCanvas s; canvasWidth := canvasWidth s;
     canvasHeight := canvasHeight s; timing := timing s;
     currentTimeMs := currentTimeMs s; showControls := showControls s;
     effects := effects s |}.
Definition set_totalFrames (v : Z) (s : State) : State :=
  {| ReplayClass := ReplayClass s; replay := replay s; isInitialized := isInitialized s;
     isPlaying := isPlaying s; error := error s; currentFrame := currentFrame s;
     status := status s; totalFrames := v; ctx := ctx s;
     cursorCanvas := cursorCanvas s; canvasWidth := canvasWidth s;
     canvasHeight := canvasHeight s; timing := timing s;
     currentTimeMs := currentTimeMs s; showControls := showControls s;
     effects := effects s |}.
Definition set_ctx (v : bool) (s : State) : State :=
  {| ReplayClass := ReplayClass s; replay := replay s; isInitialized := isInitialized s;
     isPlaying := isPlaying s; error := error s; currentFrame := currentFrame s;
     status := status s; totalFrames := totalFrames s; ctx := v;
     cursorCanvas := cursorCanvas s; canvasWidth := canvasWidth s;
     canvasHeight := canvasHeight s; timing := timing s;
     currentTimeMs := currentTimeMs s; showControls := showControls s;
     effects := effects s |}.
Definition set_cursorCanvas (v : option Cursor) (s : State) : State :=
  {| ReplayClass := ReplayClass s; replay := replay s; isInitialized := isInitialized s;
     isPlaying := isPlaying s; error := error s; currentFrame := currentFrame s;
     status := status s; totalFrames := totalFrames s; ctx := ctx s;
     cursorCanvas := v; canvasWidth := canvasWidth s;
     canvasHeight := canvasHeight s; timing := timing s;
     currentTimeMs := currentTimeMs s; showControls := showControls s;
     effects := effects s |}.
Definition set_canvasSize (w h : Z) (s : State) : State :=
  {| ReplayClass := ReplayClass s; replay := replay s; isInitialized := isInitialized s;
     isPlaying := isPlaying s; error := error s; currentFrame := currentFrame s;
     status := status s; totalFrames := totalFrames s; ctx := ctx s;
     cursorCanvas := cursorCanvas s; canvasWidth := w;
     canvasHeight := h; timing := timing s;
     currentTimeMs := currentTimeMs s; showControls := showControls s;
     effects := effects s |}.
Definition set_timing (v : list TimingEntry) (s : State) : State :=
  {| ReplayClass := ReplayClass s; replay := replay s; isInitialized := isInitialized s;
     isPlaying := isPlaying s; error := error s; currentFrame := currentFrame s;
     status := status s; totalFrames := totalFrames s; ctx := ctx s;
     cursorCanvas := cursorCanvas s; canvasWidth := canvasWidth s;
     canvasHeight := canvasHeight s; timing := v;
     currentTimeMs := currentTimeMs s; showControls := showControls s;
     effects := effects s |}.
Definition set_currentTimeMs (v : Z) (s : State) : State :=
  {| ReplayClass := ReplayClass s; replay := replay s; isInitialized := isInitialized s;
     isPlaying := isPlaying s; error := error s; currentFrame := currentFrame s;
     status := status s; totalFrames := totalFrames s; ctx := ctx s;
     cursorCanvas := cursorCanvas s; canvasWidth := canvasWidth s;
     canvasHeight := canvasHeight s; timing := timing s;
     currentTimeMs := v; showControls := showControls s;
     effects := effects s |}.
Definition set_showControls (v : bool) (s : State) : State :=
  {| ReplayClass := ReplayClass s; replay := replay s; isInitialized := isInitialized s;
     isPlaying := isPlaying s; error := error s; currentFrame := currentFrame s;
     status := status s; totalFrames := totalFrames s; ctx := ctx s;
     cursorCanvas := cursorCanvas s; canvasWidth := canvasWidth s;
     canvasHeight := canvasHeight s; timing := timing s;
     currentTimeMs := currentTimeMs s; showControls := v;
     effects := effects s |}.
(** Append an effect to the log. *)
Definition emit (e : Effect) (s : State) : State :=
  {| ReplayClass := ReplayClass s; replay := replay s; isInitialized := isInitialized s;
     isPlaying := isPlaying s; error := error s; currentFrame := currentFrame s;
     status := status s; totalFrames := totalFrames s; ctx := ctx s;
     cursorCanvas := cursorCanvas s; canvasWidth := canvasWidth s;
     canvasHeight := canvasHeight s; timing := timing s;
     currentTimeMs := currentTimeMs s; showControls := showControls s;
     effects := effects s ++ [e] |}.

(** Bookkeeping that only one of the hosts does. *)
Definition onComponent (host : Host) (f : State → State) (s : State) : State :=
  match host with Component => f s | Page => s end.
Definition onPage (host : Host) (f : State → State) (s : State) : State :=
  match host with Page => f s | Component => s end.


(** *** Rendering

    [new ImageData(data, w, h)] throws unless [data] has [4 * w * h]
    bytes.  The definitions below are the functions on buffers of the
    size the engine reports ([PlayerMore.WellSized]), where the
    constructor does not throw and the cursor canvas gets its pixels;
    what is proved of a rendered frame or a rebuilt cursor carries that
    hypothesis. *)

Definition updateCursorCanvas (s : State) : State :=
  match replay s with
  | None => s
  | Some r =>
      match Wasm.getPointerBitmap E r with
      | [] => set_cursorCanvas None s
      | pointerBitmap =>
          let width := Wasm.pointerWidth E r in
          let height := Wasm.pointerHeight E r in
          if (width =? 0) || (height =? 0) then set_cursorCanvas None s
          else set_cursorCanvas
                 (Some {| pixels := pointerBitmap; cw := width; ch := height |}) s
      end
  end.

(** Both one-shot flags are cleared after they are consumed. *)
Definition handleUpdates (host : Host) (s : State) : State :=
  match replay s with
  | None => s
  | Some r =>
      let s :=
        if Wasm.resolutionChanged E r then
          let w := Wasm.desktopWidth E r in
          let h := Wasm.desktopHeight E r in
          let s := set_canvasSize w h s in
          let s := emit (CanvasResize w h) s in
          let s := set_replay (Some (Wasm.clearResolutionChanged E r)) s in
          onComponent host
            (set_status ("Resolution changed to " ++ pretty w ++ "x" ++ pretty h)) s
        else s in
      match replay s with
      | None => s
      | Some r =>
          if Wasm.pointerBitmapChanged E r then
            let s := updateCursorCanvas s in
            set_replay (Some (Wasm.clearPointerBitmapChanged E r)) s
          else s
      end
  end.

Definition renderCursor (s : State) : State :=
  match replay s, ctx s, cursorCanvas s with
  | Some r, true, Some c =>
      let x := Wasm.mouseX E r - Wasm.pointerHotspotX E r in
      let y := Wasm.mouseY E r - Wasm.pointerHotspotY E r in
      emit (DrawImage (pixels c) x y) s
  | _, _, _ => s
  end.

Definition renderFrame (s : State) : State :=
  match replay s, ctx s with
  | Some r, true =>
      let s := emit (PutImageData (Wasm.getFrameBuffer E r)
                       (Wasm.width E r) (Wasm.height E r)) s in
      renderCursor s
  | _, _ => s
  end.

(** *** The playback loop

    [playFrames] is suspended at an [await] or has returned; the
    local [lastTimeOffset] lives in its frame. *)
Inductive Suspended : Type :=
| AwaitStep     (* in [await replay.step()] *)
| AwaitTimer    (* in [await new Promise(resolve => setTimeout(resolve, delay))] *)
| Returned.

Record Run : Type := {
  st : State;
  pc : Suspended;
  lastTimeOffset : Z
}.

(** The [catch] block of [playFrames]. *)
Definition playbackFailed (host : Host) (msg : string) (s : State) : State :=
  let s := set_error (Some ("Playback error: " ++ msg)) s in
  let s := onComponent host (set_status "Playback failed") s in
  let s := set_isPlaying false s in
  onPage host (set_showControls true) s.

(** [while (isPlaying)]: the flag is read, and the next step is
    requested or the function returns. *)
Definition loopHead (s : State) (last : Z) : Run :=
  if isPlaying s
  then {| st := s; pc := AwaitStep; lastTimeOffset := last |}
  else {| st := s; pc := Returned; lastTimeOffset := last |}.

(** The loop body from the point where [replay.step()] settles up
    to the next [await]. *)
Definition afterStep (host : Host) (s : State) (last : Z) : Run :=
  match replay s with
  | None =>
      {| st := playbackFailed host "replay is null" s; pc := Returned;
         lastTimeOffset := last |}
  | Some r =>
      match Wasm.step E r with
      | Rejected msg =>
          {| st := playbackFailed host msg s; pc := Returned;
             lastTimeOffset := last |}
      | Resolved (r', hasMore) =>
          let s := set_replay (Some r') s in
          let s := set_currentFrame (Wasm.currentFrame E r') s in
          let s := handleUpdates host s in
          let s := renderFrame s in
          if negb hasMore then
            let s := onComponent host
                       (set_status ("Replay complete - " ++ pretty (currentFrame s)
                                    ++ " frames processed")) s in
            let s := set_isPlaying false s in
            let s := onPage host (set_showControls true) s in
            {| st := s; pc := Returned; lastTimeOffset := last |}
          else
            match timing s !! currentFrame s with
            | Some currentTiming =>
                let delay := timeOffset currentTiming - last in
                let s := set_currentTimeMs (timeOffset currentTiming) s in
                let last := timeOffset currentTiming in
                if 0 <? delay
                then {| st := emit (SetTimeout delay) s; pc := AwaitTimer;
                        lastTimeOffset := last |}
                else loopHead s last
            | None =>
                {| st := emit (SetTimeout 16) s; pc := AwaitTimer;
                   lastTimeOffset := last |}
            end
      end
  end.

(** The suspended loop is resumed: the promise it awaits has settled. *)
Definition resume (host : Host) (r : Run) : Run :=
  match pc r with
  | AwaitStep => afterStep host (st r) (lastTimeOffset r)
  | AwaitTimer => loopHead (st r) (lastTimeOffset r)
  | Returned => r
  end.

(** [playFrames()] up to its first [await]. *)
Definition playFrames (s : State) : Run :=
  match replay s with
  | None => {| st := s; pc := Returned; lastTimeOffset := 0 |}
  | Some _ =>
      let lastTimeOffset :=
        match timing s !! 0%nat with
        | Some t => timeOffset t
        | None => 0
        end in
      loopHead (set_currentTimeMs lastTimeOffset s) lastTimeOffset
  end.

(** The loop left alone: resumed until it returns, at most [fuel]
    times. *)
Fixpoint runLoop (host : Host) (fuel : nat) (r : Run) : Run :=
  match fuel with
  | O => r
  | S fuel' =>
      match pc r with
      | Returned => r
      | _ => runLoop host fuel' (resume host r)
      end
  end.

(** *** The controls *)

Definition stopReplay (host : Host) (s : State) : State :=
  let s := set_isPlaying false s in
  match host with
  | Component =>
      set_status ("Stopped at frame " ++ pretty (currentFrame s)) s
  | Page => set_showControls true s
  end.

Definition resetReplay (host : Host) (s : State) : State :=
  match replay s with
  | Some r =>
      let s := set_replay (Some (Wasm.reset E r)) s in
      let s := set_currentFrame 0 s in
      let s := set_currentTimeMs 0 s in
      match host with
      | Component => set_status "Reset to beginning" s
      | Page =>
          if ctx s then emit (FillRect (canvasWidth s) (canvasHeight s)) s else s
      end
  | None => s
  end.

(** [startReplay()] up to the first [await] of the loop it starts.
    [db] is what the database [rdp-pdus] holds. *)
Definition startReplay (host : Host) (db : gmap Z bytes) (s : State) : Run :=
  match host with
  | Component =>
      if negb (isInitialized s) || negb (ReplayClass s) then
        {| st := set_error (Some "WASM not initialized") s; pc := Returned;
           lastTimeOffset := 0 |}
      else
        let s := set_status "Creating replay..." s in
        let s := emit (EngineCreate DB_NAME DEFAULT_WIDTH DEFAULT_HEIGHT) s in
        match Wasm.create E DB_NAME db DEFAULT_WIDTH DEFAULT_HEIGHT with
        | Resolved r =>
            let s := set_replay (Some r) s in
            let s := set_status "Replay created - Starting playback" s in
            let s := set_isPlaying true s in
            let s := set_error None s in
            playFrames s
        | Rejected msg =>
            let s := set_error (Some ("Failed to create replay: " ++ msg)) s in
            let s := set_status "Replay creation failed" s in
            {| st := set_isPlaying false s; pc := Returned; lastTimeOffset := 0 |}
        end
  | Page =>
      if negb (isInitialized s) || negb (ReplayClass s) || negb (bool_decide (is_Some (replay s)))
      then {| st := set_error (Some "Player not ready") s; pc := Returned;
              lastTimeOffset := 0 |}
      else
        let s := set_isPlaying true s in
        let s := set_error None s in
        let s := set_showControls false s in
        playFrames s
  end.

(** *** Mounting *)

(** What loading the wasm module yields. *)
Record Loader : Type := {
  hasContext : bool;              (* [canvas.getContext('2d')] is not null *)
  importModule : Result unit;     (* [await import(...)] *)
  initWasm : Result unit          (* [await initWasm()] *)
}.

(** The part of the [try] block the two hosts share. *)
Definition loadWasm (ld : Loader) (s : State) : State * Result unit :=
  if negb (hasContext ld) then (s, Rejected "Failed to get canvas 2D context")
  else
    let s := set_ctx true s in
    match importModule ld with
    | Rejected msg => (s, Rejected msg)
    | Resolved _ =>
        let s := set_ReplayClass true s in
        match initWasm ld with
        | Rejected msg => (s, Rejected msg)
        | Resolved _ => (set_isInitialized true s, Resolved tt)
        end
    end.

(** [onMount] of the component. *)
Definition onMountComponent (ld : Loader) (s : State) : State :=
  match loadWasm ld s with
  | (s, Resolved _) => set_status "WASM loaded - Ready to play" s
  | (s, Rejected msg) =>
      let s := set_error (Some ("Failed to load WASM: " ++ msg)) s in
      set_status "WASM load failed" s
  end.

(** [onMount] of the page.  [timingData] is the session-storage item
    [rdp-timing]; a rejected [getFrameCount] ends the callback. *)
Definition onMountPage (ld : Loader)
    (JSON_parse : string → Result (list TimingEntry)) (rq : Requests)
    (timingData : option string) (s : State) (db : IDB) : State * IDB :=
  let s :=
    match timingData with
    | Some txt =>
        match JSON_parse txt with
        | Resolved t => set_timing t s
        | Rejected _ => s
        end
    | None => s
    end in
  match getFrameCount rq db with
  | (db, Rejected _) => (s, db)
  | (db, Resolved count) =>
      if count =? 0 then (emit (Goto "/") s, db)
      else
        let s := set_totalFrames count s in
        match loadWasm ld s with
        | (s, Resolved _) =>
            let s := emit (EngineCreate DB_NAME DEFAULT_WIDTH DEFAULT_HEIGHT) s in
            match Wasm.create E DB_NAME (frames db) DEFAULT_WIDTH DEFAULT_HEIGHT with
            | Resolved r => (set_replay (Some r) s, db)
            | Rejected msg =>
                (set_error (Some ("Failed to initialize: " ++ msg)) s, db)
            end
        | (s, Rejected msg) =>
            (set_error (Some ("Failed to initialize: " ++ msg)) s, db)
        end
  end.

(** The timer delays requested so far, oldest first. *)
Definition timeouts (s : State) : list Z :=
  omap (fun e => match e with SetTimeout ms => Some ms | _ => None end) (effects s).


(** [stepFrame], from the click to the end of its [try] block. *)
Definition stepFrame (host : Host) (s : State) : State :=
  match replay s with
  | None =>
      match host with
      | Component => set_error (Some "No replay loaded") s
      | Page => s
      end
  | Some r =>
      match Wasm.step E r with
      | Rejected msg => set_error (Some ("Step error: " ++ msg)) s
      | Resolved (r', hasMore) =>
          let s := set_replay (Some r') s in
          let s := set_currentFrame (Wasm.currentFrame E r') s in
          let s := match timing s !! currentFrame s with
                   | Some currentTiming => set_currentTimeMs (timeOffset currentTiming) s
                   | None => s
                   end in
          let s := handleUpdates host s in
          let s := renderFrame s in
          match host with
          | Component =>
              if negb hasMore
              then set_status ("Replay complete - " ++ pretty (currentFrame s)
                               ++ " frames processed") s
              else set_status ("Stepped to frame " ++ pretty (currentFrame s)) s
          | Page => s
          end
      end
  end.

(** [togglePlayPause] of the page.  The run returned is the loop the
    call has started; its [pc] is [Returned] when it has started none. *)
Definition togglePlayPause (db : gmap Z bytes) (s : State) : Run :=
  if isPlaying s
  then {| st := stopReplay Page s; pc := Returned; lastTimeOffset := 0 |}
  else startReplay Page db s.

(** [handleKeyDown] of the page, by [event.code]. *)
Definition handleKeyDown (code : string) (db : gmap Z bytes) (s : State) : Run :=
  let idle s := {| st := s; pc := Returned; lastTimeOffset := 0 |} in
  if String.eqb code "Space" then togglePlayPause db s
  else if String.eqb code "ArrowRight"
       then idle (if negb (isPlaying s) then stepFrame Page s else s)
  else if String.eqb code "ArrowLeft" then idle (resetReplay Page s)
  else if String.eqb code "KeyR" then idle (resetReplay Page s)
  else idle s.

(** [totalDurationMs], derived from [timing]. *)
Definition totalDurationMs (s : State) : Z :=
  match last (timing s) with
  | Some t => timeOffset t
  | None => 0
  end.

(** The state in which the pacing delay is computed: the step has
    settled with the handle state [r'], updates are handled and the
    frame is rendered. *)
Definition rendered (host : Host) (s : State) (r' : Wasm.Replay E) : State :=
  renderFrame
    (handleUpdates host
       (set_currentFrame (Wasm.currentFrame E r') (set_replay (Some r') s))).

(** What update handling and rendering leave alone. *)
Definition same_pacing (s s' : State) : Prop :=
  isPlaying s' = isPlaying s ∧ timing s' = timing s ∧
  currentFrame s' = currentFrame s ∧ timeouts s' = timeouts s ∧
  error s' = error s ∧ ctx s' = ctx s.


(** Two states that differ at most in the playing flag and in the
    bookkeeping of [stopReplay] ([status], [showControls]). *)
Definition agree (s s' : State) : Prop :=
  ReplayClass s = ReplayClass s' ∧ replay s = replay s' ∧
  isInitialized s = isInitialized s' ∧ error s = error s' ∧
  currentFrame s = currentFrame s' ∧ totalFrames s = totalFrames s' ∧
  ctx s = ctx s' ∧ cursorCanvas s = cursorCanvas s' ∧
  canvasWidth s = canvasWidth s' ∧ canvasHeight s = canvasHeight s' ∧
  timing s = timing s' ∧ currentTimeMs s = currentTimeMs s' ∧
  effects s = effects s'.

End WithEngine.

Arguments ReplayClass {E} s.
Arguments replay {E} s.
Arguments isInitialized {E} s.
Arguments isPlaying {E} s.
Arguments error {E} s.
Arguments currentFrame {E} s.
Arguments status {E} s.
Arguments totalFrames {E} s.
Arguments ctx {E} s.
Arguments cursorCanvas {E} s.
Arguments canvasWidth {E} s.
Arguments canvasHeight {E} s.
Arguments timing {E} s.
Arguments currentTimeMs {E} s.
Arguments showControls {E} s.
Arguments effects {E} s.
Arguments set_ReplayClass {E} v s.
Arguments set_replay {E} v s.
Arguments set_isInitialized {E} v s.
Arguments set_isPlaying {E} v s.
Arguments set_error {E} v s.
Arguments set_currentFrame {E} v s.
Arguments set_status {E} v s.
Arguments set_totalFrames {E} v s.
Arguments set_ctx {E} v s.
Arguments set_cursorCanvas {E} v s.
Arguments set_canvasSize {E} w h s.
Arguments set_timing {E} v s.
Arguments set_currentTimeMs {E} v s.
Arguments set_showControls {E} v s.
Arguments emit {E} e s.
Arguments st {E} r.
Arguments pc {E} r.
Arguments lastTimeOffset {E} r.
Arguments Build_Run {E} st pc lastTimeOffset.
Arguments updateCursorCanvas {E} s.
Arguments handleUpdates {E} host s.
Arguments renderCursor {E} s.
Arguments renderFrame {E} s.
Arguments playbackFailed {E} host msg s.
Arguments loopHead {E} s last.
Arguments afterStep {E} host s last.
Arguments resume {E} host r.
Arguments playFrames {E} s.
Arguments runLoop {E} host fuel r.
Arguments stopReplay {E} host s.
Arguments resetReplay {E} host s.
Arguments startReplay {E} host db s.
Arguments loadWasm {E} ld s.
Arguments onMountComponent {E} ld s.
Arguments onMountPage {E} ld JSON_parse rq timingData s db.
Arguments timeouts {E} s.
Arguments rendered {E} host s r'.
Arguments same_pacing {E} s s'.
Arguments agree {E} s s'.
Arguments stepFrame {E} host s.
Arguments togglePlayPause {E} db s.
Arguments handleKeyDown {E} code db s.
Arguments totalDurationMs {E} s.

End Player.
(** ** Reference notions used to state the ingestion properties *)

Module Ingest.
Import PduStore FolderUploader.


(** The key and the bytes an iteration writes for a file it can read:
    the key is the integer the file's own name denotes. *)
Definition keyed (f : File) : option (Z * bytes) :=
  match contents f, JS.parseInt (name f) with
  | Resolved b, Some k => Some (k, b)
  | _, _ => None
  end.

(** Upserts applied from left to right. *)
Definition putAll (m : gmap Z bytes) (kvs : list (Z * bytes)) : gmap Z bytes :=
  foldl (fun m kv => <[kv.1 := kv.2]> m) m kvs.

(** Starting from store [m], every file of [fs] is read and stored
    without a failure, and the store is then [m']. *)
Fixpoint commits (rq : Requests) (m : gmap Z bytes) (fs : list File)
  : option (gmap Z bytes) :=
  match fs with
  | [] => Some m
  | f :: fs' =>
      match keyed f with
      | Some (k, b) =>
          match put_error rq m k b with
          | None => commits rq (<[k := b]> m) fs'
          | Some _ => None
          end
      | None => None
      end
  end.


(** [clearFrames] succeeds on the database [db]. *)
Definition clears (rq : Requests) (db : IDB) : Prop :=
  (dbInstance db = true ∨ open_error rq = None) ∧ clear_error rq (frames db) = None.

(** No put fails and the final count succeeds. *)
Definition reliable (rq : Requests) : Prop :=
  (∀ m k b, put_error rq m k b = None) ∧ (∀ m, count_error rq m = None).

Definition readable (f : File) : Prop := ∃ b, contents f = Resolved b.

(** The integers the names of the files denote, in list order. *)
Definition frameIndexes (fs : list File) : list Z :=
  omap (fun f => JS.parseInt (name f)) fs.

(** The digits a name starts with (all of its digits, for a frame
    candidate) denote a number that JavaScript holds exactly. *)
Definition safeName (f : File) : Prop :=
  JS.decimal 0 (JS.takeDigits (name f)) ≤ JS.MAX_SAFE_INTEGER.
#[global] Instance safeName_dec (f : File) : Decision (safeName f) :=
  decide (JS.decimal 0 (JS.takeDigits (name f)) ≤ JS.MAX_SAFE_INTEGER).


(** The world after a pdu-store call that left the connection open. *)
Definition with_db (w : World) (u : UploadState) (m : gmap Z bytes) : World :=
  {| timing := timing w; uploadState := u; frameCount := frameCount w;
     idb := {| dbInstance := true; frames := m |} |}.

(** The world in which the [try] block of [handleFolderSelect] starts. *)
Definition atLoading (localeCompare : string → string → Z)
    (JSON_parse : string → Result (list TimingEntry))
    (files : list File) (w : World) : World :=
  let pduFiles := pduFiles_of localeCompare files in
  set_uploadState
    {| status := loading;
       message := "Loading " ++ pretty (length pduFiles) ++ " PDU files...";
       progress := 0;
       total := Z.of_nat (length pduFiles) |}
    (loadTiming JSON_parse (naturalSort localeCompare files) w).

End Ingest.

(** ** Concrete browsers and folders, to run the definitions on *)

Module Sample.
Import PduStore FolderUploader.

(** A comparison by code units; it stands in for [localeCompare] on
    the names used below, where digits come before letters. *)
Definition codeUnitCompare (a b : string) : Z :=
  match String.compare a b with
  | Lt => -1
  | Eq => 0
  | Gt => 1
  end.

(** A parser that reads the empty array and rejects any other text; it
    stands in for [JSON.parse] on the texts used below. *)
Definition parseEmptyArray (s : string) : Result (list TimingEntry) :=
  if String.eqb s "[]" then Resolved [] else Rejected "Unexpected token".

Definition file (n : string) (b : bytes) : File :=
  {| name := n; contents := Resolved b |}.

Definition unreadable (n : string) : File :=
  {| name := n; contents := Rejected "NotReadableError" |}.

Definition textFile (n : string) (t : string) : File :=
  {| name := n; contents := Resolved (list_byte_of_string t) |}.

Definition entry (i : Z) (off : Z) : TimingEntry :=
  {| te_index := i; te_type := "FastPath"; te_source := "server";
     timeOffset := off; te_size := 0 |}.

(** The uploader as mounted, with the timing the parent binds. *)
Definition mounted (t : list TimingEntry) (m : gmap Z bytes) : World :=
  {| timing := t;
     uploadState := {| status := idle; message := ""; progress := 0; total := 0 |};
     frameCount := 0;
     idb := {| dbInstance := false; frames := m |} |}.

End Sample.

(** ** A scripted engine, to run the player on *)

Module SampleEngine.
Import PduStore.

(** An engine that reports, step by step, the frame index and the
    [hasMore] flag of a script; no resolution or pointer change.  Its
    frames are 2 by 1 pixels, black and opaque. *)
Record Scripted : Type := { script : list (nat * bool); frame : nat }.

Definition scripted (sc : list (nat * bool)) : Wasm.Engine := {|
  Wasm.Replay := Scripted;
  Wasm.create := fun _ _ _ _ => Resolved {| script := sc; frame := 0 |};
  Wasm.step := fun r =>
    match script r with
    | [] => Resolved (r, false)
    | (n, more) :: rest => Resolved ({| script := rest; frame := n |}, more)
    end;
  Wasm.reset := fun _ => {| script := sc; frame := 0 |};
  Wasm.currentFrame := frame;
  Wasm.width := fun _ => 2;
  Wasm.height := fun _ => 1;
  Wasm.desktopWidth := fun _ => 2;
  Wasm.desktopHeight := fun _ => 1;
  Wasm.mouseX := fun _ => 0;
  Wasm.mouseY := fun _ => 0;
  Wasm.resolutionChanged := fun _ => false;
  Wasm.clearResolutionChanged := fun r => r;
  Wasm.pointerBitmapChanged := fun _ => false;
  Wasm.clearPointerBitmapChanged := fun r => r;
  Wasm.pointerWidth := fun _ => 0;
  Wasm.pointerHeight := fun _ => 0;
  Wasm.pointerHotspotX := fun _ => 0;
  Wasm.pointerHotspotY := fun _ => 0;
  Wasm.getPointerBitmap := fun _ => [];
  Wasm.getFrameBuffer := fun _ =>
    [Byte.x00; Byte.x00; Byte.x00; Byte.xff; Byte.x00; Byte.x00; Byte.x00; Byte.xff]
|}.

(** A page load in which the canvas and the wasm module are fine. *)
Definition loads : Player.Loader :=
  {| Player.hasContext := true; Player.importModule := Resolved tt;
     Player.initWasm := Resolved tt |}.

(** The player of either host, mounted over the store [m] with the
    timing [t] (a prop of the component; on the page the parsed
    session-storage item). *)
Definition mounted (sc : list (nat * bool)) (host : Player.Host)
    (t : list TimingEntry) (m : gmap Z bytes) : Player.State (scripted sc) :=
  match host with
  | Player.Component =>
      Player.onMountComponent loads (Player.initial (scripted sc) t)
  | Player.Page =>
      (Player.onMountPage loads (fun _ => Resolved t) no_faults
         (Some "rdp-timing") (Player.initial (scripted sc) [])
         {| dbInstance := false; frames := m |}).1
  end.

Definition threeFrames : gmap Z bytes :=
  {[ 0 := [Byte.x00]; 1 := [Byte.x01]; 2 := [Byte.x02] ]}.

End SampleEngine.

(** ** Further notions for the ingestion *)

Module IngestMore.
Import PduStore FolderUploader Ingest.

(** The number a name starts with, as the comparator reads it. *)
Definition prefixValue (f : File) : option Z :=
  match JS.match_leading_digits (name f) with
  | Some d => JS.parseInt d
  | None => None
  end.

(** The files whose names start with the number [k]. *)
Definition startsWith (k : Z) (f : File) : bool :=
  bool_decide (prefixValue f = Some k).

(** A comparator is consistent on a list, as ECMAScript defines it for
    [Array.prototype.sort]: comparing equal is reflexive, symmetric and
    transitive, and so are comparing less and comparing greater
    transitive. *)
Definition consistent {A} (cmp : A → A → Z) (l : list A) : Prop :=
  (∀ x, x ∈ l → cmp x x = 0) ∧
  (∀ x y, x ∈ l → y ∈ l → cmp x y = 0 → cmp y x = 0) ∧
  (∀ x y z, x ∈ l → y ∈ l → z ∈ l → cmp x y = 0 → cmp y z = 0 → cmp x z = 0) ∧
  (∀ x y z, x ∈ l → y ∈ l → z ∈ l → cmp x y < 0 → cmp y z < 0 → cmp x z < 0) ∧
  (∀ x y z, x ∈ l → y ∈ l → z ∈ l → 0 < cmp x y → 0 < cmp y z → 0 < cmp x z).

(** The same, computed. *)
Definition consistentb {A} (cmp : A → A → Z) (l : list A) : bool :=
  forallb (fun x => cmp x x =? 0) l &&
  forallb (fun x => forallb (fun y => implb (cmp x y =? 0) (cmp y x =? 0)) l) l &&
  forallb (fun x => forallb (fun y => forallb (fun z =>
    implb ((cmp x y =? 0) && (cmp y z =? 0)) (cmp x z =? 0) &&
    implb ((cmp x y <? 0) && (cmp y z <? 0)) (cmp x z <? 0) &&
    implb ((0 <? cmp x y) && (0 <? cmp y z)) (0 <? cmp x z)) l) l) l.

(** What an insertion needs of it. *)
Definition ordering {A} (cmp : A → A → Z) (l : list A) : Prop :=
  (∀ x y, x ∈ l → y ∈ l → 0 < cmp x y → cmp y x ≤ 0) ∧
  (∀ x y z, x ∈ l → y ∈ l → z ∈ l → cmp x y ≤ 0 → cmp y z ≤ 0 → cmp x z ≤ 0).

(** The frame candidates of a selection, in the order of the selection. *)
Definition candidates (files : list File) : list File :=
  List.filter (fun f => JS.test_only_digits (name f)) files.

(** The upserts at the key [k], and the files whose name denotes [k]. *)
Definition hasKey (k : Z) (kv : Z * bytes) : bool := bool_decide (kv.1 = k).
Definition hasIndex (k : Z) (f : File) : bool :=
  bool_decide (JS.parseInt (name f) = Some k).

End IngestMore.


(** ** Further notions for the player *)

Module PlayerMore.
Import PduStore Player.

(** The time the loop has asked its timers to wait, in total. *)
Definition waited {E} (s : State E) : Z := foldr Z.add 0 (timeouts s).

(** Effects on the canvas and the timers, as opposed to constructing a
    session handle or leaving the page. *)
Definition isLocal (e : Effect) : bool :=
  match e with
  | EngineCreate _ _ _ | Goto _ => false
  | _ => true
  end.

(** [s'] has the effects of [s] and then local ones only. *)
Definition extends_locally {E} (s s' : State E) : Prop :=
  ∃ es, effects s' = (effects s ++ es)%list ∧ Forall (fun e => isLocal e = true) es.

(** What the player relies on in the engine: a cleared flag is down,
    and clearing one flag does not touch the other. *)
Record OneShot (E : Wasm.Engine) : Prop := {
  resolution_cleared : ∀ r,
    Wasm.resolutionChanged E (Wasm.clearResolutionChanged E r) = false;
  pointer_cleared : ∀ r,
    Wasm.pointerBitmapChanged E (Wasm.clearPointerBitmapChanged E r) = false;
  resolution_kept : ∀ r,
    Wasm.resolutionChanged E (Wasm.clearPointerBitmapChanged E r)
    = Wasm.resolutionChanged E r;
  pointer_kept : ∀ r,
    Wasm.pointerBitmapChanged E (Wasm.clearResolutionChanged E r)
    = Wasm.pointerBitmapChanged E r
}.

(** [new ImageData(data, w, h)] does not throw: [w] and [h] are
    positive (and fit the constructor's [unsigned long]) and [data]
    holds four bytes for each of the [w * h] pixels. *)
Definition imageSized (data : bytes) (w h : Z) : Prop :=
  0 < w < 4294967296 ∧ 0 < h < 4294967296 ∧ Z.of_nat (length data) = 4 * w * h.

(** The buffers of the engine have the sizes it reports: the frame
    buffer always, the pointer bitmap whenever the player builds a
    cursor from it. *)
Record WellSized (E : Wasm.Engine) : Prop := {
  frame_sized : ∀ r,
    imageSized (Wasm.getFrameBuffer E r) (Wasm.width E r) (Wasm.height E r);
  pointer_sized : ∀ r,
    Wasm.getPointerBitmap E r ≠ [] →
    Wasm.pointerWidth E r ≠ 0 → Wasm.pointerHeight E r ≠ 0 →
    imageSized (Wasm.getPointerBitmap E r)
      (Wasm.pointerWidth E r) (Wasm.pointerHeight E r)
}.

(** Offsets that do not decrease along the sequence, from 0 on. *)
Definition monotone (t : list TimingEntry) : Prop :=
  StronglySorted Z.le (timeOffset <$> t) ∧ Forall (fun e => 0 ≤ timeOffset e) t.

(** The time shown lies between 0 and the total duration. *)
Definition inRange {E} (s : State E) : Prop :=
  0 ≤ currentTimeMs s ≤ totalDurationMs s.

(** [s'] comes after [s] on the same page: the same timing, local
    effects only, and a time shown that is the one of [s], 0, or an
    offset of the timing. *)
Definition follows {E} (s s' : State E) : Prop :=
  timing s' = timing s ∧ extends_locally s s' ∧
  (currentTimeMs s' = currentTimeMs s ∨ currentTimeMs s' = 0 ∨
   ∃ t, t ∈ timing s ∧ currentTimeMs s' = timeOffset t).

End PlayerMore.

(** ** An engine that raises its flags *)

Module FlagEngine.
Import PduStore.

(** Every step changes the resolution and the pointer bitmap and moves
    the mouse; the flags stay up until they are cleared.  The frame is
    one pixel, and so is the pointer: its bitmap has four bytes, or is
    empty. *)
Record Flagged : Type := {
  frame : nat;
  resFlag : bool;
  ptrFlag : bool
}.

Definition flagging (n : nat) (bitmap : bytes) : Wasm.Engine := {|
  Wasm.Replay := Flagged;
  Wasm.create := fun _ _ _ _ =>
    Resolved {| frame := 0; resFlag := false; ptrFlag := false |};
  Wasm.step := fun r =>
    Resolved ({| frame := S (frame r); resFlag := true; ptrFlag := true |},
              (S (frame r) <? n)%nat);
  Wasm.reset := fun _ => {| frame := 0; resFlag := false; ptrFlag := false |};
  Wasm.currentFrame := frame;
  Wasm.width := fun _ => 1;
  Wasm.height := fun _ => 1;
  Wasm.desktopWidth := fun _ => 1;
  Wasm.desktopHeight := fun _ => 1;
  Wasm.mouseX := fun r => 10 * Z.of_nat (frame r);
  Wasm.mouseY := fun r => 20;
  Wasm.resolutionChanged := resFlag;
  Wasm.clearResolutionChanged := fun r =>
    {| frame := frame r; resFlag := false; ptrFlag := ptrFlag r |};
  Wasm.pointerBitmapChanged := ptrFlag;
  Wasm.clearPointerBitmapChanged := fun r =>
    {| frame := frame r; resFlag := resFlag r; ptrFlag := false |};
  Wasm.pointerWidth := fun _ => 1;
  Wasm.pointerHeight := fun _ => 1;
  Wasm.pointerHotspotX := fun _ => 3;
  Wasm.pointerHotspotY := fun _ => 4;
  Wasm.getPointerBitmap := fun _ => bitmap;
  Wasm.getFrameBuffer := fun r =>
    [default Byte.x00 (Byte.of_N (N.of_nat (frame r))); Byte.x00; Byte.x00; Byte.xff]
|}.

(** A white, opaque pixel. *)
Definition whitePixel : bytes := [Byte.xff; Byte.xff; Byte.xff; Byte.xff].

(** The component, mounted and started over this engine. *)
Definition started (n : nat) (bitmap : bytes) (t : list TimingEntry)
  : Player.Run (flagging n bitmap) :=
  Player.startReplay Player.Component ∅
    (Player.onMountComponent SampleEngine.loads (Player.initial (flagging n bitmap) t)).

End FlagEngine.

(** ** Proofs: digit strings *)

Module JSFacts.
Import JS.

Lemma isDigit_digitValue c : isDigit c = true → 0 ≤ digitValue c ≤ 9.
Proof.
  unfold isDigit, digitValue. intros [H1 H2]%andb_prop.
  apply N.leb_le in H1, H2. lia.
Qed.


Lemma takeDigits_all s : allDigits s = true → takeDigits s = s.
Proof.
  induction s as [|c s IH]; simpl; [done|].
  intros [Hc Hs]%andb_prop. rewrite Hc. by rewrite IH.
Qed.

Lemma decimal_nonneg s : ∀ acc, allDigits s = true → 0 ≤ acc → 0 ≤ decimal acc s.
Proof.
  induction s as [|c s IH]; simpl; intros acc; [done|].
  intros [Hc Hs]%andb_prop Ha. apply IH; [done|].
  pose proof (isDigit_digitValue c Hc). lia.
Qed.

(** A digit is neither white space nor a sign, so [parseInt] reads a
    digit string from its first character. *)
Lemma parseInt_digits c s :
  isDigit c = true → allDigits s = true →
  parseInt (String c s) = Some (decimal 0 (String c s)).
Proof.
  intros Hc Hs. unfold parseInt.
  assert (trimStart (String c s) = String c s) as ->.
  { simpl. destruct c as [[] [] [] [] [] [] [] []]; done. }
  assert (takeDigits (String c s) = String c s) as Ht.
  { simpl. by rewrite Hc, (takeDigits_all s Hs). }
  destruct c as [[] [] [] [] [] [] [] []]; try done;
    rewrite Ht; f_equal; lia.
Qed.

Lemma parseInt_only_digits s :
  test_only_digits s = true →
  parseInt s = Some (decimal 0 s) ∧ 0 ≤ decimal 0 s.
Proof.
  destruct s as [|c s]; [done|]. intros H. pose proof H as H'.
  simpl in H. apply andb_prop in H as [Hc Hs].
  split; [by apply parseInt_digits|].
  apply decimal_nonneg; [|done]. simpl. by rewrite Hc, Hs.
Qed.
End JSFacts.
(** ** Proofs: the async monad *)

Ltac async_unfold :=
  unfold mbind, mret, async_bind, async_ret, abind, aret, athrow, amodify in *.

(** ** Proofs: pdu-store.ts *)

Section StoreFacts.
Import PduStore.
Variable rq : Requests.

Lemma openDatabase_cached db :
  dbInstance db = true → openDatabase rq db = (db, Resolved tt).
Proof. intros H. unfold openDatabase. by rewrite H. Qed.

Lemma openDatabase_frames db db' r :
  openDatabase rq db = (db', r) → frames db' = frames db.
Proof.
  unfold openDatabase. destruct (dbInstance db); [by inversion 1|].
  destruct (open_error rq); by inversion 1.
Qed.

Lemma storeFrame_resolved db db' i b :
  storeFrame rq i b db = (db', Resolved tt) →
  dbInstance db' = true ∧ frames db' = <[i := b]> (frames db).
Proof.
  unfold storeFrame. async_unfold.
  destruct (openDatabase rq db) as [db1 [[]|msg]] eqn:Ho; [|by inversion 1].
  pose proof (openDatabase_frames _ _ _ Ho) as Hf.
  assert (dbInstance db1 = true) as Hi.
  { unfold openDatabase in Ho. destruct (dbInstance db) eqn:Hd.
    - by inversion Ho; subst.
    - destruct (open_error rq); inversion Ho; by subst. }
  destruct (put_error rq (frames db1) i b); inversion 1; subst; simpl.
  by rewrite Hi, Hf.
Qed.

Lemma storeFrame_rejected db db' i b msg :
  storeFrame rq i b db = (db', Rejected msg) → frames db' = frames db.
Proof.
  unfold storeFrame. async_unfold.
  destruct (openDatabase rq db) as [db1 [[]|msg1]] eqn:Ho;
    pose proof (openDatabase_frames _ _ _ Ho) as Hf.
  - destruct (put_error rq (frames db1) i b); inversion 1; by subst.
  - inversion 1; by subst.
Qed.

Lemma getFrame_open db i :
  dbInstance db = true → get_error rq (frames db) i = None →
  getFrame rq i db = (db, Resolved (frames db !! i)).
Proof.
  intros Hd Hg. unfold getFrame. async_unfold.
  by rewrite (openDatabase_cached _ Hd), Hg.
Qed.
End StoreFacts.

(** ** Proofs: the store loop of the uploader *)

Section LoopFacts.
Import PduStore FolderUploader Ingest.
Variable rq : Requests.

Lemma keyed_Some f k b :
  keyed f = Some (k, b) → contents f = Resolved b ∧ JS.parseInt (name f) = Some k.
Proof.
  unfold keyed. destruct (contents f); [|done].
  destruct (JS.parseInt (name f)); [|done]. by inversion 1.
Qed.

(** A successful iteration: the bytes go under the key of the name. *)
Lemma storeOne_commits n i f k b w u m :
  keyed f = Some (k, b) → put_error rq m k b = None →
  ∃ u', storeOne rq n i f (with_db w u m) = (with_db w u' (<[k := b]> m), Resolved tt).
Proof.
  intros [Hc Hp]%keyed_Some He. unfold storeOne, settled, arrayBuffer, onDB.
  async_unfold. rewrite Hc, Hp. unfold storeFrame. async_unfold. simpl.
  rewrite He. simpl. eexists. reflexivity.
Qed.


Lemma storeLoop_commits n fs : ∀ i w u m m',
  commits rq m fs = Some m' →
  ∃ u', storeLoop rq n i fs (with_db w u m) = (with_db w u' m', Resolved tt).
Proof.
  induction fs as [|f fs IH]; intros i w u m m' Hc; simpl in *.
  - inversion Hc; subst. by eexists.
  - destruct (keyed f) as [[k b]|] eqn:Hk; [|done].
    destruct (put_error rq m k b) eqn:He; [done|].
    destruct (storeOne_commits n i f k b w u m Hk He) as [u1 H1].
    destruct (IH (i + 1) w u1 _ _ Hc) as [u2 H2].
    exists u2. unfold mbind, async_bind, abind. by rewrite H1.
Qed.


Lemma clearFrames_clears db :
  clears rq db →
  clearFrames rq db = ({| dbInstance := true; frames := ∅ |}, Resolved tt).
Proof.
  intros [Ho Hc]. unfold clearFrames, openDatabase. async_unfold.
  destruct (dbInstance db) eqn:Hd.
  - by rewrite Hc, Hd.
  - destruct Ho as [|Ho]; [done|]. rewrite Ho. simpl. by rewrite Hc.
Qed.

(** What [commits] leaves in the store. *)
Lemma commits_putAll fs : ∀ m m',
  commits rq m fs = Some m' →
  m' = putAll m (omap keyed fs) ∧ length (omap keyed fs) = length fs.
Proof.
  induction fs as [|f fs IH]; intros m m' Hc; simpl in *.
  - by inversion Hc.
  - destruct (keyed f) as [[k b]|] eqn:Hk; [|done].
    destruct (put_error rq m k b); [done|].
    destruct (IH _ _ Hc) as [-> Hl]. split; [done|]. simpl. f_equal. exact Hl.
Qed.

Lemma commits_reliable fs : ∀ m,
  (∀ m k b, put_error rq m k b = None) → Forall readable fs →
  Forall (fun f => JS.test_only_digits (name f) = true) fs →
  commits rq m fs = Some (putAll m (omap keyed fs)).
Proof.
  intros m Hr Hread Hdig. revert m.
  induction fs as [|f fs IH]; intros m; [done|].
  inversion Hread as [|? ? [b Hb] Hread']; subst.
  inversion Hdig as [|? ? Hd Hdig']; subst.
  destruct (JSFacts.parseInt_only_digits _ Hd) as [Hp _].
  assert (keyed f = Some (JS.decimal 0 (name f), b)) as Hk.
  { unfold keyed. by rewrite Hb, Hp. }
  change (omap keyed (f :: fs)) with
    (match keyed f with Some y => y :: omap keyed fs | None => omap keyed fs end).
  cbn [commits]. rewrite Hk, Hr. by apply IH.
Qed.
End LoopFacts.

(** ** Proofs: what a run of successful iterations leaves in the store *)

Section CommitFacts.
Import PduStore FolderUploader Ingest.
Variable rq : Requests.








End CommitFacts.

(** ** Proofs: upserts and iteration order *)

Section PutAllFacts.
Import PduStore FolderUploader Ingest.

Lemma putAll_list_to_map kvs : ∀ m,
  putAll m kvs = list_to_map (reverse kvs) ∪ m.
Proof.
  induction kvs as [|[k v] kvs IH]; intros m.
  - simpl. by rewrite (left_id_L ∅ (∪)).
  - unfold putAll in *. simpl. rewrite IH, reverse_cons, list_to_map_app.
    simpl. rewrite <- (assoc_L (∪)). f_equal.
    by rewrite insert_empty, <- insert_union_singleton_l.
Qed.

(** With pairwise distinct keys the order of the upserts is immaterial. *)
Lemma putAll_perm kvs1 kvs2 :
  NoDup kvs1.*1 → kvs1 ≡ₚ kvs2 → putAll ∅ kvs1 = putAll ∅ kvs2.
Proof.
  intros Hnd Hp. rewrite !putAll_list_to_map. f_equal.
  apply list_to_map_proper.
  - by rewrite fmap_reverse, reverse_Permutation.
  - by rewrite !reverse_Permutation.
Qed.

Lemma putAll_lookup kvs k b :
  NoDup kvs.*1 → putAll ∅ kvs !! k = Some b ↔ (k, b) ∈ kvs.
Proof.
  intros Hnd. rewrite putAll_list_to_map, (right_id_L ∅ (∪)).
  rewrite <- elem_of_list_to_map by by rewrite fmap_reverse, reverse_Permutation.
  by rewrite elem_of_reverse.
Qed.

Lemma keys_of_keyed fs :
  Forall readable fs → (omap keyed fs).*1 = frameIndexes fs.
Proof.
  induction 1 as [|f fs [b Hb] _ IH]; [done|].
  unfold frameIndexes in *. cbn [omap list_omap]. unfold keyed at 1.
  rewrite Hb. destruct (JS.parseInt (name f)); [|exact IH].
  rewrite fmap_cons. by f_equal.
Qed.
End PutAllFacts.

(** ** Proofs: the ingestion as a whole *)

Section IngestFacts.
Import PduStore FolderUploader Ingest.
Variable localeCompare : string → string → Z.
Variable JSON_parse : string → Result (list TimingEntry).
Variable rq : Requests.

Lemma sort_perm {A} (cmp : A → A → Z) (l : list A) : JS.sort cmp l ≡ₚ l.
Proof.
  induction l as [|x l IH]; simpl; [done|].
  rewrite <- IH at 2. generalize (JS.sort cmp l). clear.
  intros l. induction l as [|y l IH]; simpl; [done|].
  destruct (cmp x y <=? 0); [done|]. rewrite IH. apply perm_swap.
Qed.

Lemma filter_perm {A} (p : A → bool) (l1 l2 : list A) :
  l1 ≡ₚ l2 → List.filter p l1 ≡ₚ List.filter p l2.
Proof.
  induction 1 as [|x l1 l2 _ IH|x y l|l1 l2 l3 _ IH1 _ IH2]; simpl.
  - done.
  - destruct (p x); by rewrite IH.
  - destruct (p x), (p y); try done. apply perm_swap.
  - by etrans.
Qed.

Lemma pduFiles_of_perm files1 files2 :
  files1 ≡ₚ files2 →
  pduFiles_of localeCompare files1 ≡ₚ pduFiles_of localeCompare files2.
Proof.
  intros Hp. unfold pduFiles_of, naturalSort. apply filter_perm.
  by rewrite !sort_perm.
Qed.

Lemma pduFiles_of_digits files :
  Forall (fun f => JS.test_only_digits (name f) = true)
         (pduFiles_of localeCompare files).
Proof.
  unfold pduFiles_of. apply List.Forall_forall. intros f Hf.
  by apply List.filter_In in Hf as [_ Hf].
Qed.

Lemma loadTiming_idb fileArray w :
  idb (loadTiming JSON_parse fileArray w) = idb w.
Proof.
  unfold loadTiming. destruct (List.find _ fileArray); [|done].
  destruct (text f); [|done]. by destruct (JSON_parse a).
Qed.

Lemma handleFolderSelect_unfold files w :
  files ≠ [] →
  handleFolderSelect localeCompare JSON_parse rq files w =
  match storeAll rq (pduFiles_of localeCompare files) (atLoading localeCompare JSON_parse files w) with
  | (w', Resolved _) => w'
  | (w', Rejected msg) =>
      set_uploadState {| status := error; message := "Error: " ++ msg;
                         progress := 0; total := 0 |} w'
  end.
Proof. by destruct files. Qed.

Lemma atLoading_idb files w : idb (atLoading localeCompare JSON_parse files w) = idb w.
Proof. unfold atLoading. simpl. apply loadTiming_idb. Qed.

Lemma onDB_clearFrames w :
  clears rq (idb w) →
  onDB (clearFrames rq) w = (with_db w (uploadState w) ∅, Resolved tt).
Proof. intros Hc. unfold onDB. by rewrite (clearFrames_clears rq _ Hc). Qed.


Lemma storeAll_commits fs w m :
  clears rq (idb w) → commits rq ∅ fs = Some m → count_error rq m = None →
  ∃ u, storeAll rq fs w =
         ({| timing := timing w; uploadState := u;
             frameCount := Z.of_nat (size m);
             idb := {| dbInstance := true; frames := m |} |}, Resolved tt)
       ∧ status u = success ∧ total u = Z.of_nat (length fs).
Proof.
  intros Hcl Hc Hn. unfold storeAll.
  destruct (storeLoop_commits rq (length fs) fs 0 w (uploadState w) ∅ m Hc)
    as (u & Hl).
  eexists. unfold mbind, async_bind, abind, amodify.
  rewrite (onDB_clearFrames w Hcl), Hl.
  unfold onDB, getFrameCount, openDatabase, mbind, async_bind, abind. simpl.
  rewrite Hn. simpl. split; [reflexivity|]. by split.
Qed.


(** A successful ingestion. *)
Lemma handleFolderSelect_commits files w m :
  files ≠ [] → clears rq (idb w) →
  commits rq ∅ (pduFiles_of localeCompare files) = Some m →
  count_error rq m = None →
  let w' := handleFolderSelect localeCompare JSON_parse rq files w in
  status (uploadState w') = success ∧
  total (uploadState w') = Z.of_nat (length (pduFiles_of localeCompare files)) ∧
  frameCount w' = Z.of_nat (size m) ∧
  idb w' = {| dbInstance := true; frames := m |}.
Proof.
  intros Hne Hcl Hc Hn. cbv zeta. rewrite (handleFolderSelect_unfold _ _ Hne).
  rewrite <- (atLoading_idb files) in Hcl.
  destruct (storeAll_commits _ _ m Hcl Hc Hn) as (u & -> & Hs & Ht).
  done.
Qed.
End IngestFacts.

(** ** Claims about the frame store and the ingestion *)

Section IngestClaims.
Import PduStore FolderUploader Ingest.

(** C7. Storing the bytes [b] at a non-negative index [i] and then
    retrieving index [i] returns exactly [b], whatever the store held
    before (at [i] or elsewhere): when the put request and the get
    request succeed, [getFrame] resolves to [b]. *)
Theorem storeFrame_getFrame_roundtrip (rq : Requests) (db db' : IDB)
    (i : Z) (b : bytes) :
  0 ≤ i →
  storeFrame rq i b db = (db', Resolved tt) →
  get_error rq (frames db') i = None →
  getFrame rq i db' = (db', Resolved (Some b)).
Proof.
  intros _ Hs Hg. apply storeFrame_resolved in Hs as [Hd Hf].
  rewrite (getFrame_open rq db' i Hd Hg), Hf. by rewrite lookup_insert_eq.
Qed.

Lemma storeFrame_getFrame_roundtrip_witness :
  getFrame no_faults 3 {| dbInstance := true; frames := <[3 := [Byte.x0a]]> {[ 3 := []; 5 := [Byte.x01] ]} |}
  = ({| dbInstance := true; frames := <[3 := [Byte.x0a]]> {[ 3 := []; 5 := [Byte.x01] ]} |},
     Resolved (Some [Byte.x0a])).
Proof.
  apply (storeFrame_getFrame_roundtrip no_faults
           {| dbInstance := false; frames := {[ 3 := []; 5 := [Byte.x01] ]} |}).
  - lia.
  - reflexivity.
  - reflexivity.
Defined.



Lemma readable_perm (fs1 fs2 : list File) :
  fs1 ≡ₚ fs2 → Forall readable fs1 → Forall readable fs2.
Proof. intros Hp. by rewrite Hp. Qed.

Lemma only_digits_perm (fs1 fs2 : list File) :
  fs1 ≡ₚ fs2 →
  Forall (fun f => JS.test_only_digits (name f) = true) fs1 →
  Forall (fun f => JS.test_only_digits (name f) = true) fs2.
Proof. intros Hp. by rewrite Hp. Qed.

(** The store after [storeAll], for candidates that are all read and
    stored. *)
Lemma storeAll_frames (rq : Requests) (fs : list File) (w : World) :
  clears rq (idb w) → reliable rq → Forall readable fs →
  Forall (fun f => JS.test_only_digits (name f) = true) fs →
  frames (idb (storeAll rq fs w).1) = putAll ∅ (omap keyed fs).
Proof.
  intros Hcl [Hput Hcount] Hr Hd.
  pose proof (commits_reliable rq fs ∅ Hput Hr Hd) as Hc.
  destruct (storeAll_commits rq fs w _ Hcl Hc (Hcount _)) as (u & -> & _).
  done.
Qed.

(** C5 (amended). An ingestion clears the store and then stores every
    candidate's bytes under the integer its own name denotes, not under
    its position: after an ingestion in which every candidate is read
    and stored, and in which the names denote pairwise distinct
    integers that JavaScript holds exactly (at most 2^53 - 1, so that
    [parseInt] does not round two of them to one key), the store holds
    exactly these entries, and it is the same
    for every other iteration order of the candidates and for every
    other order of the selected files. *)
Theorem distinct_names_store_independent_of_order
    (localeCompare : string → string → Z)
    (JSON_parse : string → Result (list TimingEntry)) (rq : Requests)
    (files : list File) (w : World) :
  files ≠ [] →
  clears rq (idb w) → reliable rq →
  Forall readable (pduFiles_of localeCompare files) →
  Forall safeName (pduFiles_of localeCompare files) →
  NoDup (frameIndexes (pduFiles_of localeCompare files)) →
  let w' := handleFolderSelect localeCompare JSON_parse rq files w in
  (∀ k b, frames (idb w') !! k = Some b ↔
          ∃ f, f ∈ pduFiles_of localeCompare files ∧
               JS.parseInt (name f) = Some k ∧ contents f = Resolved b) ∧
  (∀ other w0, other ≡ₚ pduFiles_of localeCompare files → clears rq (idb w0) →
               frames (idb (storeAll rq other w0).1) = frames (idb w')) ∧
  (∀ files2 w2, files2 ≡ₚ files → clears rq (idb w2) →
                frames (idb (handleFolderSelect localeCompare JSON_parse rq files2 w2))
                = frames (idb w')).
Proof.
  intros Hne Hcl Hrel Hr _ Hnd w'.
  pose proof (pduFiles_of_digits localeCompare files) as Hd.
  pose proof Hrel as [Hput Hcount].
  pose proof (commits_reliable rq _ ∅ Hput Hr Hd) as Hc.
  destruct (handleFolderSelect_commits localeCompare JSON_parse rq files w _
              Hne Hcl Hc (Hcount _)) as (_ & _ & _ & Hdb).
  fold w' in Hdb. rewrite Hdb. simpl.
  rewrite <- (keys_of_keyed _ Hr) in Hnd.
  assert (∀ other w0, other ≡ₚ pduFiles_of localeCompare files →
            clears rq (idb w0) →
            frames (idb (storeAll rq other w0).1)
            = putAll ∅ (omap keyed (pduFiles_of localeCompare files))) as Hother.
  { intros other w0 Hp Hcl0. symmetry in Hp.
    rewrite storeAll_frames;
      eauto using readable_perm, only_digits_perm.
    symmetry. apply putAll_perm; [done|]. by rewrite Hp. }
  split; [|split].
  - intros k b. rewrite (putAll_lookup _ _ _ Hnd), list_elem_of_omap.
    split.
    + intros (f & Hf & [Hb Hk]%keyed_Some). eauto.
    + intros (f & Hf & Hk & Hb). exists f. split; [done|].
      unfold keyed. by rewrite Hb, Hk.
  - done.
  - intros files2 w2 Hp Hcl2.
    assert (files2 ≠ []) as Hne2.
    { intros ->. by apply Permutation_nil in Hp. }
    pose proof (pduFiles_of_perm localeCompare _ _ Hp) as Hp'.
    rewrite <- (Hother _ (atLoading localeCompare JSON_parse files2 w2) Hp')
      by by rewrite atLoading_idb.
    rewrite (handleFolderSelect_unfold _ JSON_parse rq _ w2 Hne2).
    assert (reliable rq) as Hrel' by done.
    symmetry in Hp'.
    pose proof (commits_reliable rq _ ∅ Hput (readable_perm _ _ Hp' Hr)
                  (only_digits_perm _ _ Hp' Hd)) as Hc2.
    rewrite <- (atLoading_idb localeCompare JSON_parse files2) in Hcl2.
    by destruct (storeAll_commits rq _ _ _ Hcl2 Hc2 (Hcount _)) as (u & -> & _).
Qed.

Lemma distinct_names_store_independent_of_order_witness :
  frames (idb (handleFolderSelect Sample.codeUnitCompare Sample.parseEmptyArray no_faults
                 [Sample.file "2" [Byte.x12]; Sample.file "10" [Byte.x1a];
                  Sample.file "1" [Byte.x11]; Sample.textFile "timing.json" "[]"]
                 (Sample.mounted [] ∅)))
  = frames (idb (handleFolderSelect Sample.codeUnitCompare Sample.parseEmptyArray no_faults
                   [Sample.file "10" [Byte.x1a]; Sample.file "2" [Byte.x12];
                    Sample.file "1" [Byte.x11]; Sample.textFile "timing.json" "[]"]
                   (Sample.mounted [] {[ 4 := [] ]}))).
Proof.
  refine (proj2 (proj2 (distinct_names_store_independent_of_order
            Sample.codeUnitCompare Sample.parseEmptyArray no_faults
            [Sample.file "10" [Byte.x1a]; Sample.file "2" [Byte.x12];
             Sample.file "1" [Byte.x11]; Sample.textFile "timing.json" "[]"]
            (Sample.mounted [] {[ 4 := [] ]}) _ _ _ _ _ _)) _ _ _ _).
  - done.
  - split; [by right|reflexivity].
  - by split.
  - vm_compute. repeat constructor; by eexists.
  - apply (bool_decide_unpack _). by vm_compute.
  - apply (bool_decide_unpack _). by vm_compute.
  - apply perm_swap.
  - split; [by right|reflexivity].
Defined.

(** C5 as stated fails when two names denote the same integer: with
    the files ["7"] and ["007"] the store depends on which of the two
    the loop reaches last. *)
Lemma colliding_names_order_matters :
  let a := Sample.file "7" [Byte.x01] in
  let b := Sample.file "007" [Byte.x02] in
  [a; b] ≡ₚ [b; a] ∧
  frames (idb (handleFolderSelect Sample.codeUnitCompare Sample.parseEmptyArray
                 no_faults [a; b] (Sample.mounted [] ∅)))
  ≠ frames (idb (handleFolderSelect Sample.codeUnitCompare Sample.parseEmptyArray
                   no_faults [b; a] (Sample.mounted [] ∅))).
Proof.
  intros a b. split; [apply Permutation_swap|].
  intros Heq. apply (f_equal (fun m => m !! 7)) in Heq.
  vm_compute in Heq. discriminate.
Qed.


End IngestClaims.

(** ** Claims about the timing descriptor and the natural sort *)

Section SortClaims.
Import PduStore FolderUploader Ingest.











Lemma onDB_timing {A} (m : Async IDB A) w : timing (onDB m w).1 = timing w.
Proof. unfold onDB. by destruct (m (idb w)). Qed.

Lemma storeOne_timing rq n i f w : timing (storeOne rq n i f w).1 = timing w.
Proof.
  unfold storeOne, settled. async_unfold.
  destruct (arrayBuffer f) as [b|]; [|done].
  destruct (JS.parseInt (name f)) as [k|]; [|done].
  pose proof (onDB_timing (storeFrame rq k b) w) as H.
  by destruct (onDB (storeFrame rq k b) w) as [w1 [[]|]].
Qed.

Lemma storeLoop_timing rq n fs : ∀ i w, timing (storeLoop rq n i fs w).1 = timing w.
Proof.
  induction fs as [|f fs IH]; intros i w; [done|].
  simpl. unfold mbind, async_bind, abind.
  pose proof (storeOne_timing rq n i f w) as H.
  destruct (storeOne rq n i f w) as [w1 [[]|]]; [|done].
  by rewrite IH.
Qed.

Lemma storeAll_timing rq fs w : timing (storeAll rq fs w).1 = timing w.
Proof.
  unfold storeAll. unfold mbind, async_bind, abind.
  pose proof (onDB_timing (clearFrames rq) w) as H1.
  destruct (onDB (clearFrames rq) w) as [w1 [[]|]]; [|done].
  pose proof (storeLoop_timing rq (length fs) fs 0 w1) as H2.
  destruct (storeLoop rq (length fs) 0 fs w1) as [w2 [[]|]]; [|by rewrite <- H1].
  pose proof (onDB_timing (getFrameCount rq) w2) as H3.
  destruct (onDB (getFrameCount rq) w2) as [w3 [c|]]; simpl in *; congruence.
Qed.

(** C2 (as the code behaves). When the selection contains a file named
    [timing.json] and the text of every such file fails to parse, the
    ingestion goes on with the timing it had before: [timing] is left
    as it was, it is not reset to the empty sequence. *)
Theorem parse_failure_retains_previous_timing
    (localeCompare : string → string → Z)
    (JSON_parse : string → Result (list TimingEntry)) (rq : Requests)
    (files : list File) (w : World) :
  (∃ f, f ∈ files ∧ name f = "timing.json") →
  (∀ f, f ∈ files → name f = "timing.json" →
        ∃ txt msg, text f = Resolved txt ∧ JSON_parse txt = Rejected msg) →
  timing (handleFolderSelect localeCompare JSON_parse rq files w) = timing w.
Proof.
  intros (f0 & Hin0 & Hn0) Hbad.
  assert (files ≠ []) as Hne.
  { intros ->. by apply elem_of_nil in Hin0. }
  rewrite (handleFolderSelect_unfold _ _ _ _ _ Hne).
  pose proof (storeAll_timing rq (pduFiles_of localeCompare files)
                (atLoading localeCompare JSON_parse files w)) as Ht.
  destruct (storeAll rq _ _) as [w1 [[]|msg]]; simpl in *; rewrite Ht;
    clear Ht w1.
  all: unfold loadTiming.
  all: destruct (List.find _ (naturalSort localeCompare files)) as [tf|] eqn:Hfind.
  all: try (apply List.find_some in Hfind as [Hin Hname];
            apply String.eqb_eq in Hname; apply list_elem_of_In in Hin;
            unfold naturalSort in Hin; rewrite sort_perm in Hin;
            destruct (Hbad tf Hin Hname) as (txt & m & -> & ->); done).
  all: assert (f0 ∈ naturalSort localeCompare files) as Hin
    by (unfold naturalSort; by rewrite sort_perm).
  all: apply list_elem_of_In in Hin.
  all: pose proof (List.find_none _ _ Hfind f0 Hin) as Hno; simpl in Hno.
  all: apply String.eqb_neq in Hno; done.
Qed.

Lemma parse_failure_retains_previous_timing_witness :
  let w' := handleFolderSelect Sample.codeUnitCompare Sample.parseEmptyArray no_faults
              [Sample.file "0" [Byte.x10]; Sample.textFile "timing.json" "{oops"]
              (Sample.mounted [Sample.entry 0 0; Sample.entry 1 100] ∅) in
  timing w' = [Sample.entry 0 0; Sample.entry 1 100] ∧ timing w' ≠ [] ∧
  status (uploadState w') = success.
Proof.
  intros w'. split; [|split; [|reflexivity]].
  - apply (parse_failure_retains_previous_timing
             Sample.codeUnitCompare Sample.parseEmptyArray no_faults).
    + exists (Sample.textFile "timing.json" "{oops"). split; [|reflexivity].
      apply list_elem_of_further, list_elem_of_here.
    + intros f Hf Hn.
      apply elem_of_cons in Hf as [->|Hf]; [discriminate Hn|].
      apply elem_of_cons in Hf as [->|Hf]; [|by apply elem_of_nil in Hf].
      exists "{oops", "Unexpected token". split; reflexivity.
  - discriminate.
Defined.
End SortClaims.

(** ** Proofs: the playback loop *)

Section PlayerFacts.
Import PduStore Player.
Variable E : Wasm.Engine.

Implicit Types (s : State E) (r : Wasm.Replay E).

Lemma timeouts_emit e s :
  timeouts (emit e s)
  = (timeouts s ++ match e with SetTimeout ms => [ms] | _ => [] end)%list.
Proof. unfold timeouts. simpl. rewrite omap_app. by destruct e. Qed.

Lemma updateCursorCanvas_same s :
  same_pacing s (updateCursorCanvas s) ∧
  replay (updateCursorCanvas s) = replay s.
Proof.
  unfold updateCursorCanvas, same_pacing. destruct (replay s) as [r|] eqn:Hr; [|done].
  destruct (Wasm.getPointerBitmap E r); [done|].
  by destruct ((Wasm.pointerWidth E r =? 0) || (Wasm.pointerHeight E r =? 0)).
Qed.

Lemma handleUpdates_same host s : same_pacing s (handleUpdates host s).
Proof.
  unfold handleUpdates. destruct (replay s) as [r|] eqn:Hr; [|done].
  assert (∀ s1, same_pacing s s1 →
            same_pacing s
              match replay s1 with
              | Some r0 =>
                  if Wasm.pointerBitmapChanged E r0
                  then set_replay (Some (Wasm.clearPointerBitmapChanged E r0))
                         (updateCursorCanvas s1)
                  else s1
              | None => s1
              end) as Hptr.
  { intros s1 H1. destruct (replay s1) as [r1|]; [|done].
    destruct (Wasm.pointerBitmapChanged E r1); [|done].
    destruct (updateCursorCanvas_same s1) as [(? & ? & ? & ? & ? & ?) _].
    destruct H1 as (? & ? & ? & ? & ? & ?).
    unfold same_pacing, timeouts in *. simpl. repeat split; congruence. }
  apply Hptr. destruct (Wasm.resolutionChanged E r); [|done].
  unfold same_pacing. destruct host; simpl; repeat split; try done.
  all: unfold timeouts; simpl; rewrite omap_app; simpl; by rewrite (right_id_L [] app).
Qed.

Lemma handleUpdates_replay host s :
  is_Some (replay s) → is_Some (replay (handleUpdates host s)).
Proof.
  intros [r Hr]. unfold handleUpdates. rewrite Hr.
  destruct (Wasm.resolutionChanged E r).
  - destruct host; simpl.
    all: destruct (Wasm.pointerBitmapChanged E _); simpl; by eexists.
  - rewrite Hr. destruct (Wasm.pointerBitmapChanged E r); simpl; by eexists.
Qed.

Lemma renderFrame_same s :
  same_pacing s (renderFrame s) ∧ replay (renderFrame s) = replay s.
Proof.
  unfold renderFrame, renderCursor, same_pacing.
  destruct (replay s) as [r|] eqn:Hr; [|done].
  destruct (ctx s) eqn:Hc; [|done]. simpl. rewrite Hr, Hc.
  destruct (cursorCanvas s); simpl.
  all: unfold timeouts; simpl; rewrite ?omap_app; simpl;
    by rewrite ?(right_id_L [] app).
Qed.

Lemma rendered_same host s r' :
  isPlaying (rendered host s r') = isPlaying s ∧
  timing (rendered host s r') = timing s ∧
  currentFrame (rendered host s r') = Wasm.currentFrame E r' ∧
  timeouts (rendered host s r') = timeouts s.
Proof.
  unfold rendered.
  destruct (renderFrame_same
              (handleUpdates host
                 (set_currentFrame (Wasm.currentFrame E r')
                    (set_replay (Some r') s)))) as [(H1 & H2 & H3 & H4 & _) _].
  destruct (handleUpdates_same host
              (set_currentFrame (Wasm.currentFrame E r')
                 (set_replay (Some r') s))) as (G1 & G2 & G3 & G4 & _).
  rewrite H1, H2, H3, H4, G1, G2, G3, G4. done.
Qed.

Lemma afterStep_more host s last r r' :
  replay s = Some r → Wasm.step E r = Resolved (r', true) →
  afterStep host s last =
  let s1 := rendered host s r' in
  match timing s1 !! currentFrame s1 with
  | Some currentTiming =>
      let delay := timeOffset currentTiming - last in
      let s2 := set_currentTimeMs (timeOffset currentTiming) s1 in
      if 0 <? delay
      then {| st := emit (SetTimeout delay) s2; pc := AwaitTimer;
              lastTimeOffset := timeOffset currentTiming |}
      else loopHead s2 (timeOffset currentTiming)
  | None => {| st := emit (SetTimeout 16) s1; pc := AwaitTimer;
               lastTimeOffset := last |}
  end.
Proof. intros Hr Hs. unfold afterStep. by rewrite Hr, Hs. Qed.

(** *** Stopping *)

Ltac split_agree :=
  unfold agree in *; cbn in *;
  repeat match goal with H : _ ∧ _ |- _ => destruct H end;
  subst; repeat split; try done; try congruence.

Lemma agree_refl s : agree s s.
Proof. by split_agree. Qed.

Lemma agree_stopReplay host s : agree (stopReplay host s) s.
Proof. destruct host; by split_agree. Qed.

Lemma agree_updateCursorCanvas s s' :
  agree s s' → agree (updateCursorCanvas s) (updateCursorCanvas s').
Proof.
  intros H. assert (replay s = replay s') as Hr by apply H.
  unfold updateCursorCanvas. rewrite <- Hr.
  destruct (replay s) as [r|]; [|done].
  destruct (Wasm.getPointerBitmap E r); [split_agree|].
  destruct ((Wasm.pointerWidth E r =? 0) || (Wasm.pointerHeight E r =? 0));
    split_agree.
Qed.

Lemma agree_handleUpdates host s s' :
  agree s s' → agree (handleUpdates host s) (handleUpdates host s').
Proof.
  intros H. assert (replay s = replay s') as Hr by apply H.
  unfold handleUpdates. rewrite <- Hr.
  destruct (replay s) as [r|]; [|done].
  assert (∀ s1 s1', agree s1 s1' →
            agree
              match replay s1 with
              | Some r0 =>
                  if Wasm.pointerBitmapChanged E r0
                  then set_replay (Some (Wasm.clearPointerBitmapChanged E r0))
                         (updateCursorCanvas s1)
                  else s1
              | None => s1
              end
              match replay s1' with
              | Some r0 =>
                  if Wasm.pointerBitmapChanged E r0
                  then set_replay (Some (Wasm.clearPointerBitmapChanged E r0))
                         (updateCursorCanvas s1')
                  else s1'
              | None => s1'
              end) as Hptr.
  { intros s1 s1' H1. assert (replay s1 = replay s1') as Hr1 by apply H1.
    rewrite <- Hr1. destruct (replay s1) as [r1|]; [|done].
    destruct (Wasm.pointerBitmapChanged E r1); [|done].
    pose proof (agree_updateCursorCanvas _ _ H1) as H2. split_agree. }
  apply Hptr. destruct (Wasm.resolutionChanged E r); [|done].
  destruct host; split_agree.
Qed.

Lemma agree_renderFrame s s' :
  agree s s' → agree (renderFrame s) (renderFrame s').
Proof.
  intros H. assert (replay s = replay s') as Hr by apply H.
  assert (ctx s = ctx s') as Hc by apply H.
  assert (cursorCanvas s = cursorCanvas s') as Hu by apply H.
  unfold renderFrame, renderCursor. rewrite <- Hr, <- Hc.
  destruct (replay s) as [r|] eqn:Er; [|done].
  destruct (ctx s) eqn:Ec; [|done]. cbn. rewrite <- Hr, <- Hc, <- Hu, Er, Ec.
  destruct (cursorCanvas s); split_agree.
Qed.

Lemma agree_rendered host s s' r' :
  agree s s' → agree (rendered host s r') (rendered host s' r').
Proof.
  intros H. unfold rendered. apply agree_renderFrame, agree_handleUpdates.
  split_agree.
Qed.

Lemma agree_playbackFailed host msg s s' :
  agree s s' → agree (playbackFailed host msg s) (playbackFailed host msg s').
Proof. intros H. destruct host; split_agree. Qed.

(** The body of the loop does not read the playing flag: from states
    that agree it performs the same step, the same update handling and
    rendering, and requests the same timer. *)
Lemma agree_afterStep host s s' last :
  agree s s' →
  agree (st (afterStep host s last)) (st (afterStep host s' last)) ∧
  lastTimeOffset (afterStep host s last) = lastTimeOffset (afterStep host s' last).
Proof.
  intros H. assert (replay s = replay s') as Hr by apply H.
  unfold afterStep. rewrite <- Hr.
  destruct (replay s) as [r|]; [|by split; [apply agree_playbackFailed|]].
  destruct (Wasm.step E r) as [[r' hasMore]|msg];
    [|by split; [apply agree_playbackFailed|]].
  pose proof (agree_rendered host s s' r' H) as H1. fold (rendered host s r').
  fold (rendered host s' r').
  set (s1 := rendered host s r') in *. set (s1' := rendered host s' r') in *.
  assert (timing s1 = timing s1') as Ht by apply H1.
  assert (currentFrame s1 = currentFrame s1') as Hc by apply H1.
  destruct hasMore; cbn [negb].
  - rewrite <- Ht, <- Hc. destruct (timing s1 !! currentFrame s1) as [t|].
    + destruct (0 <? timeOffset t - last); [split; [split_agree|done]|].
      unfold loopHead. cbn [isPlaying set_currentTimeMs].
      destruct (isPlaying s1), (isPlaying s1'); split; try done; split_agree.
    + split; [split_agree|done].
  - split; [|done]. rewrite Hc. destruct host; split_agree.
Qed.

Lemma loopHead_stopped s last :
  isPlaying s = false →
  loopHead s last = {| st := s; pc := Returned; lastTimeOffset := last |}.
Proof. intros H. unfold loopHead. by rewrite H. Qed.

(** With the flag cleared the body requests no further step, and the
    flag stays cleared. *)
Lemma afterStep_stopped host s last :
  isPlaying s = false →
  pc (afterStep host s last) ≠ AwaitStep ∧
  isPlaying (st (afterStep host s last)) = false.
Proof.
  intros Hp. unfold afterStep.
  destruct (replay s) as [r|]; [|by destruct host].
  destruct (Wasm.step E r) as [[r' hasMore]|msg]; [|by destruct host].
  fold (rendered host s r').
  destruct (rendered_same host s r') as (Hp1 & _). rewrite Hp in Hp1.
  destruct hasMore; cbn [negb]; [|by destruct host].
  destruct (timing _ !! _) as [t|]; [|done].
  destruct (0 <? _); [done|]. by rewrite loopHead_stopped.
Qed.
End PlayerFacts.

(** ** Claims about the playback loop *)

Section PlayerClaims.
Import PduStore Player.

(** C1. Pacing.  [playFrames] starts with [lastTimeOffset] equal to
    the first timing entry's [timeOffset], or 0 without entries.  After
    a step that leaves more frames, with an engine whose buffers have
    the sizes it reports (so that the frame is rendered), the delay is the [timeOffset] of
    the entry at the engine's [currentFrame] minus [lastTimeOffset],
    which then takes that [timeOffset]; a positive delay is awaited on
    a timer, a delay of 0 or less sets no timer and the loop goes
    straight to its head; without an entry for that frame the timer is
    16 ms and [lastTimeOffset] is kept.  With offsets 0, 100, 250 for
    frames 0, 1, 2 the timers are 100 then 150, whether the engine
    first reports frame 1 or frame 0, and a frame without an entry in
    between waits 16. *)
Theorem pacing_delay_from_timing :
  (∀ E (s : State E) r, replay s = Some r →
      lastTimeOffset (playFrames s)
      = match timing s with t :: _ => timeOffset t | [] => 0 end) ∧
  (∀ E host (s : State E) last r r',
      PlayerMore.WellSized E →
      replay s = Some r → Wasm.step E r = Resolved (r', true) →
      let run' := resume host {| st := s; pc := AwaitStep; lastTimeOffset := last |} in
      match timing s !! Wasm.currentFrame E r' with
      | Some t =>
          lastTimeOffset run' = timeOffset t ∧
          (0 < timeOffset t - last →
             pc run' = AwaitTimer ∧
             timeouts (st run') = (timeouts s ++ [timeOffset t - last])%list) ∧
          (timeOffset t - last ≤ 0 →
             timeouts (st run') = timeouts s ∧
             pc run' = if isPlaying s then AwaitStep else Returned)
      | None =>
          lastTimeOffset run' = last ∧ pc run' = AwaitTimer ∧
          timeouts (st run') = (timeouts s ++ [16])%list
      end) ∧
  (∀ host sc expected,
      (sc, expected) ∈
        [ ([(1, true); (2, true); (3, false)]%nat, [100; 150]);
          ([(0, true); (1, true); (2, true); (3, false)]%nat, [100; 150]);
          ([(1, true); (5, true); (2, true); (3, false)]%nat, [100; 16; 150]) ] →
      let s := SampleEngine.mounted sc host
                 [Sample.entry 0 0; Sample.entry 1 100; Sample.entry 2 250]
                 SampleEngine.threeFrames in
      let run := runLoop host 8 (startReplay host SampleEngine.threeFrames s) in
      pc run = Returned ∧ timeouts (st run) = expected).
Proof.
  split; [|split].
  - intros E s r Hr. unfold playFrames. rewrite Hr.
    unfold loopHead. destruct (timing s); by destruct (isPlaying _).
  - intros E host s last r r' _ Hr Hs run'. subst run'.
    unfold resume. cbn [pc st lastTimeOffset].
    rewrite (afterStep_more E host s last r r' Hr Hs). cbv zeta.
    destruct (rendered_same E host s r') as (Hp & Ht & Hc & Hto).
    rewrite Ht, Hc.
    destruct (timing s !! Wasm.currentFrame E r') as [t|]; [|].
    + split; [|split].
      * destruct (0 <? timeOffset t - last); [done|].
        unfold loopHead. by destruct (isPlaying _).
      * intros Hpos. rewrite (proj2 (Z.ltb_lt _ _) Hpos). split; [done|].
        cbn [st]. by rewrite timeouts_emit, <- Hto.
      * intros Hle. rewrite (proj2 (Z.ltb_ge _ _) Hle).
        unfold loopHead. cbn [isPlaying set_currentTimeMs]. rewrite Hp.
        destruct (isPlaying s); by rewrite <- Hto.
    + split; [done|]. split; [done|]. cbn [st]. by rewrite timeouts_emit, Hto.
  - intros host sc expected Hin.
    repeat (apply elem_of_cons in Hin as [Heq|Hin];
            [inversion Heq; subst; destruct host; by vm_compute|]).
    by apply elem_of_nil in Hin.
Qed.

Lemma pacing_delay_from_timing_witness :
  let sc := [(1, true); (2, true); (3, false)]%nat in
  let s := st (startReplay Component SampleEngine.threeFrames
                 (SampleEngine.mounted sc Component
                    [Sample.entry 0 0; Sample.entry 1 100; Sample.entry 2 250]
                    SampleEngine.threeFrames)) in
  let run' := resume Component {| st := s; pc := AwaitStep; lastTimeOffset := 0 |} in
  lastTimeOffset run' = 100 ∧ pc run' = AwaitTimer ∧ timeouts (st run') = [100].
Proof.
  intros sc s run'.
  assert (PlayerMore.WellSized (SampleEngine.scripted sc)) as Hsized.
  { constructor; [intros r; by vm_compute|intros r Hb; by destruct Hb]. }
  pose proof (proj1 (proj2 pacing_delay_from_timing) (SampleEngine.scripted sc)
                Component s 0
                {| SampleEngine.script := sc; SampleEngine.frame := 0 |}
                {| SampleEngine.script := [(2, true); (3, false)]%nat;
                   SampleEngine.frame := 1 |}
                Hsized eq_refl eq_refl) as H.
  cbv zeta in H. fold run' in H.
  change (timing s !! Wasm.currentFrame (SampleEngine.scripted sc)
            {| SampleEngine.script := [(2, true); (3, false)]%nat;
               SampleEngine.frame := 1 |})
    with (Some (Sample.entry 1 100)) in H.
  destruct H as (Hl & Hpos & _). split; [exact Hl|].
  apply Hpos. reflexivity.
Defined.

(** C8. Reset with a live session handle sets [currentFrame] to 0 and
    rewinds the engine through [replay.reset()], the handle stays in
    place and no handle is constructed; a second reset right after it
    leaves [currentFrame] at 0 and the handle in place again.  The
    playing flag is not touched. *)
Theorem resetReplay_twice E host (s : State E) (r : Wasm.Replay E) :
  replay s = Some r →
  let s1 := resetReplay host s in
  let s2 := resetReplay host s1 in
  (currentFrame s1 = 0%nat ∧ replay s1 = Some (Wasm.reset E r)) ∧
  (currentFrame s2 = 0%nat ∧ replay s2 = Some (Wasm.reset E (Wasm.reset E r))) ∧
  currentTimeMs s2 = 0 ∧ isPlaying s2 = isPlaying s ∧
  (∀ e, e ∈ effects s2 → e ∈ effects s ∨ ∃ w h, e = FillRect w h).
Proof.
  intros Hr s1 s2. subst s1 s2. unfold resetReplay. rewrite Hr.
  destruct host; cbn.
  - repeat split; try done. intros e He. by left.
  - destruct (ctx s) eqn:Hc; cbn; rewrite ?Hc; cbn.
    + repeat split; try done. intros e He.
      rewrite !elem_of_app, !list_elem_of_singleton in He.
      destruct He as [[He|He]|He]; eauto.
    + repeat split; try done. intros e He. by left.
Qed.

Lemma resetReplay_twice_witness :
  let sc := [(1, true); (2, true); (3, false)]%nat in
  let played := st (runLoop Page 8
                  (startReplay Page SampleEngine.threeFrames
                     (SampleEngine.mounted sc Page [] SampleEngine.threeFrames))) in
  currentFrame played = 3%nat ∧
  currentFrame (resetReplay Page played) = 0%nat ∧
  currentFrame (resetReplay Page (resetReplay Page played)) = 0%nat ∧
  is_Some (replay (resetReplay Page (resetReplay Page played))).
Proof.
  intros sc played.
  destruct (resetReplay_twice (SampleEngine.scripted sc) Page played
              {| SampleEngine.script := []; SampleEngine.frame := 3 |} eq_refl)
    as ((H1 & _) & (H2 & H3) & _).
  split; [reflexivity|]. split; [exact H1|]. split; [exact H2|].
  rewrite H3. by eexists.
Defined.

(** C9 (amended). Stop clears the playing flag while the loop is
    suspended.  The loop reads the flag only at its head: a step in
    flight is not cancelled, it settles and is followed by the same
    update handling, rendering and timer as without the stop; after
    that, or after the timer that was pending, the loop returns.  So
    once stop is requested, and provided nothing sets the flag again
    before the loop has looked at it (the loop is resumed in the state
    the stop has left), the loop requests no further step, finishes at
    most the iteration it is in, and has returned after at most two
    resumptions, for good. *)
Theorem stop_observed_at_loop_head E host (r : Run E) :
  let stopped := {| st := stopReplay host (st r); pc := pc r;
                    lastTimeOffset := lastTimeOffset r |} in
  let r1 := resume host stopped in
  let r2 := resume host r1 in
  pc r1 ≠ AwaitStep ∧ pc r2 = Returned ∧ st r2 = st r1 ∧
  (∀ n, runLoop host (2 + n) stopped = r2) ∧
  (pc r = AwaitTimer → pc r1 = Returned ∧ st r1 = stopReplay host (st r)) ∧
  (pc r = AwaitStep →
     agree (st r1) (st (resume host r)) ∧
     lastTimeOffset r1 = lastTimeOffset (resume host r)).
Proof.
  intros stopped r1 r2.
  assert (isPlaying (stopReplay host (st r)) = false) as Hstop by by destruct host.
  assert (pc r1 ≠ AwaitStep ∧ isPlaying (st r1) = false ∨ r1 = stopped ∧ pc r = Returned)
    as Hr1.
  { subst r1 stopped. unfold resume. cbn [pc st lastTimeOffset].
    destruct (pc r) eqn:Hpc.
    - left. by apply afterStep_stopped.
    - left. by rewrite loopHead_stopped.
    - by right. }
  assert (pc r1 ≠ AwaitStep) as Hno.
  { destruct Hr1 as [[H _]|[-> H]]; [done|]. subst stopped. cbn. by rewrite H. }
  assert (pc r2 = Returned ∧ st r2 = st r1) as [Hret Hst].
  { subst r2. unfold resume. destruct (pc r1) eqn:Hpc1; [done| |done].
    destruct Hr1 as [[_ Hp]|[Heq Hp]].
    - by rewrite loopHead_stopped.
    - rewrite Heq in Hpc1. subst stopped. cbn in Hpc1. congruence. }
  split; [done|]. split; [done|]. split; [done|]. split; [|split].
  - intros n. cbn [Nat.add runLoop]. fold r1.
    destruct (pc stopped) eqn:Hpc0.
    + destruct n; cbn [runLoop]; fold r2.
      * destruct (pc r1) eqn:Hpc1; try done.
        subst r2. unfold resume. by rewrite Hpc1.
      * destruct (pc r1) eqn:Hpc1; try done.
        -- rewrite Hret. by destruct n.
        -- subst r2. unfold resume. by rewrite Hpc1.
    + destruct n; cbn [runLoop]; fold r2.
      * destruct (pc r1) eqn:Hpc1; try done.
        subst r2. unfold resume. by rewrite Hpc1.
      * destruct (pc r1) eqn:Hpc1; try done.
        -- rewrite Hret. by destruct n.
        -- subst r2. unfold resume. by rewrite Hpc1.
    + subst r2 r1. unfold resume. by rewrite !Hpc0.
  - intros Hpc. subst r1 stopped. unfold resume. cbn [pc st lastTimeOffset].
    rewrite Hpc. by rewrite loopHead_stopped.
  - intros Hpc. subst r1 stopped. unfold resume. cbn [pc st lastTimeOffset].
    rewrite Hpc. apply agree_afterStep, agree_stopReplay.
Qed.

Lemma stop_observed_at_loop_head_witness :
  let sc := [(1, true); (2, true); (3, false)]%nat in
  let started := startReplay Component SampleEngine.threeFrames
                   (SampleEngine.mounted sc Component
                      [Sample.entry 0 0; Sample.entry 1 100; Sample.entry 2 250]
                      SampleEngine.threeFrames) in
  let stopped := {| st := stopReplay Component (st started); pc := pc started;
                    lastTimeOffset := lastTimeOffset started |} in
  pc started = AwaitStep ∧
  timeouts (st (resume Component stopped)) = [100] ∧
  pc (resume Component (resume Component stopped)) = Returned ∧
  currentFrame (st (runLoop Component 8 stopped)) = 1%nat.
Proof.
  intros sc started stopped.
  destruct (stop_observed_at_loop_head (SampleEngine.scripted sc) Component started)
    as (_ & Hret & _ & Hrun & _ & Hstep).
  split; [reflexivity|]. split; [|split; [exact Hret|]].
  - destruct (Hstep eq_refl) as [Hag _].
    unfold timeouts. fold stopped in Hag.
    replace (effects (st (resume Component stopped)))
      with (effects (st (resume Component started))) by (symmetry; apply Hag).
    reflexivity.
  - fold stopped in Hrun. change 8%nat with (2 + 6)%nat.
    rewrite (Hrun 6%nat). reflexivity.
Defined.

(** C9 as stated fails when playback is started again before the
    stopped loop has looked at the flag.  The flag is shared: the loop
    that was stopped finds it set at its head, requests the next step,
    and goes on, iteration after iteration, beside the loop that the
    second start has entered.  On the page: the first loop has shown
    frame 1 and waits on its timer; stop, then play; the step of the
    second loop settles (frame 2) and it waits on its timer; the timer
    of the first loop fires, the loop requests a step, shows frame 3 and
    sets a timer: one full iteration after the stop; the second loop
    shows frame 4; the timer of the first loop fires again and it
    completes another full iteration, with frame 5.  No step is
    requested while another is in flight. *)
Lemma restart_keeps_stopped_loop_running :
  let sc := [(1, true); (2, true); (3, true); (4, true); (5, true); (6, true);
             (7, false)]%nat in
  let t := [Sample.entry 0 0; Sample.entry 1 100; Sample.entry 2 200;
            Sample.entry 3 300; Sample.entry 4 400; Sample.entry 5 500;
            Sample.entry 6 600; Sample.entry 7 700] in
  let db := SampleEngine.threeFrames in
  let first := resume Page (startReplay Page db (SampleEngine.mounted sc Page t db)) in
  let stopped := stopReplay Page (st first) in
  let second := startReplay Page db stopped in
  let second1 := resume Page second in
  let first1 := resume Page {| st := st second1; pc := pc first;
                               lastTimeOffset := lastTimeOffset first |} in
  let first2 := resume Page first1 in
  let second2 := resume Page {| st := st first2; pc := pc second1;
                                lastTimeOffset := lastTimeOffset second1 |} in
  let second3 := resume Page second2 in
  let first3 := resume Page {| st := st second3; pc := pc first2;
                               lastTimeOffset := lastTimeOffset first2 |} in
  let first4 := resume Page first3 in
  (pc first = AwaitTimer ∧ currentFrame (st first) = 1%nat ∧
   isPlaying stopped = false ∧
   pc second = AwaitStep ∧ pc second1 = AwaitTimer) ∧
  (pc first1 = AwaitStep ∧ pc first2 = AwaitTimer ∧
   currentFrame (st first2) = 3%nat ∧
   timeouts (st first2) = (timeouts (st second1) ++ [200])%list) ∧
  (pc second2 = AwaitStep ∧ pc second3 = AwaitTimer) ∧
  (pc first3 = AwaitStep ∧ pc first4 = AwaitTimer ∧
   currentFrame (st first4) = 5%nat ∧
   timeouts (st first4) = (timeouts (st second3) ++ [200])%list).
Proof. cbv zeta. repeat split; by vm_compute. Qed.

Lemma getFrameCount_empty rq db :
  size (frames db) = 0%nat → count_error rq (frames db) = None →
  dbInstance db = true ∨ open_error rq = None →
  (getFrameCount rq db).2 = Resolved 0.
Proof.
  intros Hs Hc Ho. unfold getFrameCount, openDatabase. async_unfold.
  destruct (dbInstance db).
  - by rewrite Hc, Hs.
  - destruct Ho as [|Ho]; [done|]. rewrite Ho. simpl. by rewrite Hc, Hs.
Qed.

Lemma getFrameCount_value rq db db' n :
  getFrameCount rq db = (db', Resolved n) → n = Z.of_nat (size (frames db)).
Proof.
  unfold getFrameCount, openDatabase. async_unfold.
  destruct (dbInstance db).
  - destruct (count_error rq (frames db)); by inversion 1.
  - destruct (open_error rq); [by inversion 1|]. simpl.
    destruct (count_error rq (frames db)); by inversion 1.
Qed.

Lemma loadWasm_resolved E ld (s s' : State E) :
  loadWasm ld s = (s', Resolved tt) →
  isInitialized s' = true ∧ ReplayClass s' = true.
Proof.
  unfold loadWasm. destruct (hasContext ld); [|by inversion 1]. simpl.
  destruct (importModule ld); [|by inversion 1].
  destruct (initWasm ld); inversion 1; by subst.
Qed.

Lemma loadWasm_replay E ld (s : State E) :
  replay (loadWasm ld s).1 = replay s.
Proof.
  unfold loadWasm. destruct (hasContext ld); [|done]. simpl.
  destruct (importModule ld); [|done]. by destruct (initWasm ld).
Qed.

(** C3 (amended).  On the player page a mount over a store with zero
    frames navigates to the start page and returns before the engine
    is initialised and before a session handle is constructed, without
    an error; a start attempt in that state sets the error "Player not
    ready", constructs no handle and does not enter the loop.  A
    session handle exists after the mount only if the store contained
    at least one frame and the engine was initialised.  On both hosts
    a start without the initialised engine (on the page: or without a
    handle) reports an error and does nothing else. *)
Theorem page_start_requires_frames_and_engine :
  (∀ E ld JSON_parse rq timingData t db,
      size (frames db) = 0%nat → count_error rq (frames db) = None →
      dbInstance db = true ∨ open_error rq = None →
      let s := (onMountPage ld JSON_parse rq timingData (initial E t) db).1 in
      replay s = None ∧ isInitialized s = false ∧ error s = None ∧
      effects s = [Goto "/"] ∧
      ∀ m, let run := startReplay Page m s in
           error (st run) = Some "Player not ready" ∧ pc run = Returned ∧
           isPlaying (st run) = false ∧ replay (st run) = None ∧
           effects (st run) = [Goto "/"]) ∧
  (∀ E ld JSON_parse rq timingData t db,
      let s := (onMountPage ld JSON_parse rq timingData (initial E t) db).1 in
      is_Some (replay s) →
      (0 < size (frames db))%nat ∧ isInitialized s = true ∧ ReplayClass s = true) ∧
  (∀ E host m (s : State E),
      isInitialized s = false ∨ ReplayClass s = false ∨ (host = Page ∧ replay s = None) →
      let run := startReplay host m s in
      pc run = Returned ∧ is_Some (error (st run)) ∧
      isPlaying (st run) = isPlaying s ∧ replay (st run) = replay s ∧
      effects (st run) = effects s).
Proof.
  split; [|split].
  - intros E ld jp rq timingData t db Hs Hc Ho s.
    pose proof (getFrameCount_empty rq db Hs Hc Ho) as Hcount.
    subst s. unfold onMountPage.
    destruct (getFrameCount rq db) as [db' res]. simpl in Hcount. subst res.
    cbn [Z.eqb fst].
    destruct timingData as [txt|]; [destruct (jp txt)|]; by cbn.
  - intros E ld jp rq timingData t db s. subst s. unfold onMountPage.
    set (s0 := match timingData with
               | Some txt => match jp txt with
                             | Resolved t0 => set_timing t0 (initial E t)
                             | Rejected _ => initial E t
                             end
               | None => initial E t
               end).
    assert (replay s0 = None) as Hnone.
    { subst s0. destruct timingData as [txt|]; [by destruct (jp txt)|done]. }
    destruct (getFrameCount rq db) as [db' [n|msg]] eqn:Hcount; cbn [fst].
    2:{ rewrite Hnone. by intros [? ?]. }
    apply getFrameCount_value in Hcount.
    destruct (n =? 0) eqn:Hn.
    { cbn. rewrite Hnone. by intros [? ?]. }
    apply Z.eqb_neq in Hn.
    pose proof (loadWasm_replay E ld (set_totalFrames n s0)) as Hrep.
    destruct (loadWasm ld (set_totalFrames n s0)) as [s1 [[]|msg]] eqn:Hload.
    + apply loadWasm_resolved in Hload as [Hi Hc].
      destruct (Wasm.create E DB_NAME (frames db') DEFAULT_WIDTH DEFAULT_HEIGHT).
      * intros _. cbn. split; [lia|done].
      * cbn in *. rewrite Hrep, Hnone. by intros [? ?].
    + cbn in *. rewrite Hrep, Hnone. by intros [? ?].
  - intros E host m s Hnot run. subst run. unfold startReplay.
    destruct host.
    + destruct Hnot as [Hi|[Hc|[? _]]]; [| |done].
      * rewrite Hi. cbn. repeat split; by eexists.
      * rewrite Hc, orb_true_r. cbn. repeat split; by eexists.
    + assert (negb (isInitialized s) || negb (ReplayClass s)
              || negb (bool_decide (is_Some (replay s))) = true) as ->.
      { destruct Hnot as [Hi|[Hc|[_ Hr]]].
        - by rewrite Hi.
        - rewrite Hc. by rewrite orb_true_r.
        - rewrite Hr. rewrite bool_decide_eq_false_2 by by intros [? ?].
          by rewrite orb_true_r. }
      cbn. repeat split; by eexists.
Qed.

Lemma page_start_requires_frames_and_engine_witness :
  let s := SampleEngine.mounted [] Page [] ∅ in
  let run := startReplay Page ∅ s in
  effects s = [Goto "/"] ∧
  error (st run) = Some "Player not ready" ∧ replay (st run) = None.
Proof.
  intros s run.
  destruct (proj1 page_start_requires_frames_and_engine (SampleEngine.scripted [])
              SampleEngine.loads (fun _ => Resolved []) no_faults (Some "rdp-timing")
              [] {| dbInstance := false; frames := ∅ |})
    as (_ & _ & _ & He & Hstart).
  - reflexivity.
  - reflexivity.
  - by right.
  - split; [exact He|]. destruct (Hstart ∅) as (Herr & _ & _ & Hrep & _).
    split; [exact Herr|exact Hrep].
Defined.

(** C3 as stated fails in the component: with the engine initialised
    and a store of zero frames, [startReplay] calls [Replay.create],
    holds a session handle and starts playing, and no error is set. *)
Lemma component_start_with_empty_store :
  let s := SampleEngine.mounted [] Component [] ∅ in
  let run := startReplay Component ∅ s in
  size (∅ : gmap Z bytes) = 0%nat ∧
  effects (st run) = [EngineCreate "rdp-pdus" 1920 1080] ∧
  is_Some (replay (st run)) ∧ error (st run) = None ∧
  isPlaying (st run) = true ∧ pc run = AwaitStep.
Proof. cbn. repeat split; by eexists. Qed.
End PlayerClaims.

(** * Further properties of the code *)

(** ** pdu-store.ts: clear, upsert, close and reopen *)

Section StoreMore.
Import PduStore.
Variable rq : Requests.

(** X1. [clearFrames] leaves an empty store behind it: a count that
    follows resolves to 0 and every [getFrame] to [undefined]; a
    rejected [clearFrames] leaves the frames as they were. *)
Theorem clearFrames_then_empty (db : IDB) :
  match clearFrames rq db with
  | (db', Resolved _) =>
      frames db' = ∅ ∧
      (count_error rq ∅ = None → getFrameCount rq db' = (db', Resolved 0)) ∧
      (∀ i, get_error rq ∅ i = None → getFrame rq i db' = (db', Resolved None))
  | (db', Rejected _) => frames db' = frames db
  end.
Proof.
  unfold clearFrames. async_unfold.
  destruct (openDatabase rq db) as [db1 [[]|msg]] eqn:Ho.
  - pose proof (openDatabase_frames _ _ _ _ Ho) as Hf.
    assert (dbInstance db1 = true) as Hd.
    { unfold openDatabase in Ho. destruct (dbInstance db) eqn:Hdb.
      - by inversion Ho; subst.
      - destruct (open_error rq); inversion Ho; by subst. }
    destruct (clear_error rq (frames db1)); [done|]. rewrite Hd.
    split; [done|]. split.
    + intros Hc. unfold getFrameCount, openDatabase. async_unfold. simpl.
      by rewrite Hc.
    + intros i Hg. unfold getFrame, openDatabase. async_unfold. simpl.
      by rewrite Hg.
  - by apply (openDatabase_frames _ _ _ _ Ho).
Qed.

(** X2. [storeFrame] is an upsert: a resolved call changes the frame at
    its index only, and the number of frames grows by one when the
    index was free and stays when it was taken; a rejected call changes
    no frame. *)
Theorem storeFrame_upsert (db : IDB) (i : Z) (b : bytes) :
  match storeFrame rq i b db with
  | (db', Resolved _) =>
      frames db' !! i = Some b ∧
      (∀ j, j ≠ i → frames db' !! j = frames db !! j) ∧
      size (frames db') = match frames db !! i with
                          | Some _ => size (frames db)
                          | None => S (size (frames db))
                          end
  | (db', Rejected _) => frames db' = frames db
  end.
Proof.
  destruct (storeFrame rq i b db) as [db' [[]|msg]] eqn:Hs.
  - apply storeFrame_resolved in Hs as [_ Hf]. rewrite Hf.
    split; [by rewrite lookup_insert_eq|]. split.
    + intros j Hj. by rewrite lookup_insert_ne.
    + rewrite map_size_insert. by destruct (frames db !! i).
  - by apply storeFrame_rejected in Hs.
Qed.

(** X3. The frames outlive the connection: [closeDatabase] drops the
    cached connection and nothing else, a second close does nothing,
    and the next call opens again; it then fails with the open error,
    or gives what the store held before the close. *)
Theorem frames_survive_close (db : IDB) (i : Z) :
  let closed := closeDatabase db in
  frames closed = frames db ∧ dbInstance closed = false ∧
  closeDatabase closed = closed ∧
  match open_error rq with
  | Some msg =>
      getFrame rq i closed = (closed, Rejected ("Failed to open database: " ++ msg))
  | None =>
      get_error rq (frames db) i = None →
      getFrame rq i closed
      = ({| dbInstance := true; frames := frames db |}, Resolved (frames db !! i))
  end.
Proof.
  unfold closeDatabase. destruct db as [[] m]; cbn.
  all: repeat split; try done.
  all: unfold getFrame, openDatabase; async_unfold; cbn.
  all: destruct (open_error rq); [done|]; cbn; intros Hg; by rewrite Hg.
Qed.

End StoreMore.

(** ** pdu-store.ts: the batch store and the cursor *)

Section BatchFacts.
Import PduStore.
Variable rq : Requests.
Variable transaction_message : string → string.

Lemma putBatch_lookup fs : ∀ m index m' k,
  putBatch rq m index fs = Resolved m' →
  m' !! k = if decide (index ≤ k < index + Z.of_nat (length fs))
            then fs !! Z.to_nat (k - index)
            else m !! k.
Proof.
  induction fs as [|f fs IH]; intros m index m' k H; simpl in H.
  - inversion H; subst. case_decide; [simpl in *; lia|done].
  - destruct (put_error rq m index f); [done|].
    rewrite (IH _ _ _ k H). cbn [length].
    destruct (decide (k = index)) as [->|Hne].
    + rewrite decide_False by lia. rewrite decide_True by lia.
      rewrite lookup_insert_eq. by replace (index - index) with 0 by lia.
    + rewrite lookup_insert_ne by done.
      destruct (decide (index + 1 ≤ k < index + 1 + Z.of_nat (length fs))).
      * rewrite decide_True by lia.
        replace (Z.to_nat (k - index)) with (S (Z.to_nat (k - (index + 1)))) by lia.
        done.
      * by rewrite decide_False by lia.
Qed.

Lemma storeFrames_resolved fs db db' :
  storeFrames rq transaction_message fs db = (db', Resolved tt) →
  ∀ k, frames db' !! k
       = if decide (0 ≤ k < Z.of_nat (length fs)) then fs !! Z.to_nat k
         else frames db !! k.
Proof.
  unfold storeFrames. async_unfold.
  destruct (openDatabase rq db) as [db1 [[]|msg]] eqn:Ho; [|done].
  pose proof (openDatabase_frames _ _ _ _ Ho) as Hf.
  destruct (putBatch rq (frames db1) 0 fs) as [m'|msg] eqn:Hb; [|done].
  inversion 1; subst. intros k. cbn [frames].
  rewrite (putBatch_lookup _ _ _ _ k Hb), Hf.
  replace (k - 0) with k by lia. by repeat case_decide; try lia.
Qed.

Lemma storeFrames_rejected fs db db' msg :
  storeFrames rq transaction_message fs db = (db', Rejected msg) → frames db' = frames db.
Proof.
  unfold storeFrames. async_unfold.
  destruct (openDatabase rq db) as [db1 [[]|msg1]] eqn:Ho;
    pose proof (openDatabase_frames _ _ _ _ Ho) as Hf; [|by inversion 1; subst].
  destruct (putBatch rq (frames db1) 0 fs) as [m'|msg1]; inversion 1; by subst.
Qed.

(** X4. [storeFrames] stores frame [i] of the array under the key [i]
    and touches no other key; when one of its put requests fails the
    call is rejected and the store holds what it held before: none of
    the frames of the batch is kept. *)
Theorem storeFrames_all_or_nothing (fs : list bytes) (db : IDB) :
  match storeFrames rq transaction_message fs db with
  | (db', Resolved _) =>
      (∀ (i : nat) b, fs !! i = Some b → frames db' !! Z.of_nat i = Some b) ∧
      (∀ k, k < 0 ∨ Z.of_nat (length fs) ≤ k → frames db' !! k = frames db !! k)
  | (db', Rejected _) => frames db' = frames db
  end.
Proof.
  destruct (storeFrames rq transaction_message fs db) as [db' [[]|msg]] eqn:Hs.
  - pose proof (storeFrames_resolved _ _ _ Hs) as Hk. split.
    + intros i b Hi. rewrite Hk. pose proof (lookup_lt_Some _ _ _ Hi).
      rewrite decide_True by lia. by rewrite Nat2Z.id.
    + intros k Hout. rewrite Hk. by rewrite decide_False by lia.
  - by apply storeFrames_rejected in Hs.
Qed.

(** *** Arrays with holes *)

Lemma array_get_set a key v (i : nat) :
  array_get (array_set a key v) i
  = if decide (Z.of_nat i = key ∧ key < MAX_ARRAY_LENGTH) then Some v
    else array_get a i.
Proof.
  unfold array_set, array_get.
  destruct (Z.ltb_spec key 0); cbn [orb]; [by rewrite decide_False by lia|].
  destruct (Z.leb_spec MAX_ARRAY_LENGTH key); [by rewrite decide_False by lia|].
  destruct (Nat.ltb_spec (Z.to_nat key) (length a)).
  - destruct (decide (Z.of_nat i = key)) as [<-|Hne].
    + rewrite decide_True by done.
      rewrite Nat2Z.id in *. by rewrite list_lookup_insert_eq.
    + rewrite decide_False by tauto. rewrite list_lookup_insert_ne by lia. done.
  - destruct (decide (Z.of_nat i = key)) as [<-|Hne].
    + rewrite decide_True by done. rewrite Nat2Z.id in *.
      rewrite lookup_app_r by done.
      rewrite lookup_app_r by (rewrite length_replicate; lia).
      rewrite length_replicate.
      by replace (i - length a - (i - length a))%nat with 0%nat by lia.
    + rewrite decide_False by tauto. destruct (decide (i < length a)%nat).
      * by rewrite lookup_app_l.
      * rewrite (lookup_ge_None_2 a i) by lia.
        rewrite lookup_app_r by lia.
        destruct (decide (i - length a < Z.to_nat key - length a)%nat).
        -- rewrite lookup_app_l by (rewrite length_replicate; lia).
           by rewrite lookup_replicate_2.
        -- rewrite lookup_app_r by (rewrite length_replicate; lia).
           rewrite length_replicate.
           rewrite lookup_ge_None_2; [done|]. simpl. lia.
Qed.

Lemma array_set_no_trailing_hole a key v :
  no_trailing_hole a → no_trailing_hole (array_set a key v).
Proof.
  intros Ha. unfold array_set.
  destruct (Z.ltb_spec key 0); cbn [orb]; [done|].
  destruct (Z.leb_spec MAX_ARRAY_LENGTH key); [done|].
  destruct (Nat.ltb_spec (Z.to_nat key) (length a)).
  - right. destruct Ha as [->|[w Hw]]; [simpl in *; lia|].
    rewrite last_lookup in Hw |- *. rewrite length_insert.
    destruct (decide (Z.to_nat key = pred (length a))) as [->|Hne].
    + exists v. by rewrite list_lookup_insert_eq by lia.
    + exists w. by rewrite list_lookup_insert_ne.
  - right. exists v. by rewrite app_assoc, last_snoc.
Qed.

Lemma array_fold_get kvs : ∀ a (i : nat),
  NoDup kvs.*1 → Z.of_nat i < MAX_ARRAY_LENGTH →
  array_get (foldl (fun a kv => array_set a kv.1 kv.2) a kvs) i
  = match (list_to_map kvs : gmap Z bytes) !! Z.of_nat i with
    | Some v => Some v
    | None => array_get a i
    end.
Proof.
  induction kvs as [|[k v] kvs IH]; intros a i Hnd Hi; [done|].
  apply NoDup_cons in Hnd as [Hk Hnd]. cbn [foldl fmap list_fmap fst snd].
  rewrite IH by done. cbn [list_to_map foldr]. cbn [fst snd uncurry curry].
  change (foldr (λ p, <[p.1:=p.2]>) ∅ kvs) with (list_to_map kvs : gmap Z bytes).
  destruct (decide (Z.of_nat i = k)) as [<-|Hne].
  - rewrite lookup_insert_eq.
    rewrite (proj1 (not_elem_of_list_to_map (M := gmap Z) kvs (Z.of_nat i)) Hk).
    rewrite array_get_set. by rewrite decide_True.
  - rewrite lookup_insert_ne by done.
    destruct ((list_to_map kvs : gmap Z bytes) !! Z.of_nat i); [done|].
    rewrite array_get_set. by rewrite decide_False by tauto.
Qed.

Lemma array_fold_no_trailing_hole kvs : ∀ a,
  no_trailing_hole a →
  no_trailing_hole (foldl (fun a kv => array_set a kv.1 kv.2) a kvs).
Proof.
  induction kvs as [|[k v] kvs IH]; intros a Ha; [done|].
  simpl. by apply IH, array_set_no_trailing_hole.
Qed.

Lemma array_set_length a key v :
  Z.of_nat (length a) ≤ MAX_ARRAY_LENGTH →
  Z.of_nat (length (array_set a key v)) ≤ MAX_ARRAY_LENGTH.
Proof.
  intros Ha. unfold array_set.
  destruct (Z.ltb_spec key 0); cbn [orb]; [done|].
  destruct (Z.leb_spec MAX_ARRAY_LENGTH key); [done|].
  destruct (Nat.ltb_spec (Z.to_nat key) (length a)).
  - by rewrite length_insert.
  - rewrite !length_app, length_replicate. cbn [length]. lia.
Qed.

Lemma array_fold_length kvs : ∀ a,
  Z.of_nat (length a) ≤ MAX_ARRAY_LENGTH →
  Z.of_nat (length (foldl (fun a kv => array_set a kv.1 kv.2) a kvs)) ≤ MAX_ARRAY_LENGTH.
Proof.
  induction kvs as [|[k v] kvs IH]; intros a Ha; [done|].
  simpl. by apply IH, array_set_length.
Qed.

Lemma cursor_order_perm (m : gmap Z bytes) : cursor_order m ≡ₚ map_to_list m.
Proof. unfold cursor_order. apply merge_sort_Permutation. Qed.

Lemma cursor_order_to_map (m : gmap Z bytes) :
  NoDup (cursor_order m).*1 ∧ list_to_map (cursor_order m) = m.
Proof.
  pose proof (cursor_order_perm m) as Hp.
  assert (NoDup (cursor_order m).*1) as Hnd.
  { rewrite Hp. apply NoDup_fst_map_to_list. }
  split; [done|].
  rewrite (list_to_map_proper _ _ Hnd Hp). apply list_to_map_to_list.
Qed.

Variable cursor_error : gmap Z bytes → option string.

Lemma clearFrames_resolved db db' :
  clearFrames rq db = (db', Resolved tt) → frames db' = ∅.
Proof.
  unfold clearFrames. async_unfold.
  destruct (openDatabase rq db) as [db1 [[]|msg]]; [|done].
  destruct (clear_error rq (frames db1)); [done|]. by inversion 1.
Qed.

Lemma getAllFrames_resolved (db db' : IDB) (a : list (option bytes)) :
  getAllFrames rq cursor_error db = (db', Resolved a) →
  (∀ i : nat, Z.of_nat i < MAX_ARRAY_LENGTH →
              array_get a i = frames db !! Z.of_nat i) ∧
  no_trailing_hole a ∧ Z.of_nat (length a) ≤ MAX_ARRAY_LENGTH.
Proof.
  unfold getAllFrames. async_unfold.
  destruct (openDatabase rq db) as [db1 [[]|msg]] eqn:Ho; [|done].
  pose proof (openDatabase_frames _ _ _ _ Ho) as Hf. rewrite Hf.
  destruct (cursor_error (frames db)); [done|]. inversion 1; subst.
  destruct (cursor_order_to_map (frames db)) as [Hnd Hm].
  split; [|split].
  - intros i Hi. rewrite array_fold_get by done. rewrite Hm.
    by destruct (frames db !! Z.of_nat i).
  - apply array_fold_no_trailing_hole. by left.
  - apply array_fold_length. cbn. unfold MAX_ARRAY_LENGTH. lia.
Qed.

(** X5. [getAllFrames] rebuilds the order from the keys: element [i] of
    the array it resolves to is the frame stored under the key [i], a
    missing key is a hole, the array ends at the last stored key that
    is an array index, and frames under other keys (negative ones) are
    not among its elements; the store is not changed, also when the
    call is rejected. *)
Theorem getAllFrames_by_key (db : IDB) :
  match getAllFrames rq cursor_error db with
  | (db', Resolved a) =>
      (∀ i : nat, Z.of_nat i < MAX_ARRAY_LENGTH →
                  array_get a i = frames db !! Z.of_nat i) ∧
      no_trailing_hole a ∧ frames db' = frames db
  | (db', Rejected _) => frames db' = frames db
  end.
Proof.
  destruct (getAllFrames rq cursor_error db) as [db' [a|msg]] eqn:Hg.
  - destruct (getAllFrames_resolved _ _ _ Hg) as (H1 & H2 & _).
    split; [done|]. split; [done|].
    revert Hg. unfold getAllFrames. async_unfold.
    destruct (openDatabase rq db) as [db1 [[]|msg]] eqn:Ho; [|done].
    pose proof (openDatabase_frames _ _ _ _ Ho) as Hf.
    destruct (cursor_error (frames db1)); [done|]. by inversion 1; subst.
  - revert Hg. unfold getAllFrames. async_unfold.
    destruct (openDatabase rq db) as [db1 [[]|msg1]] eqn:Ho;
      pose proof (openDatabase_frames _ _ _ _ Ho) as Hf; [|by inversion 1; subst].
    destruct (cursor_error (frames db1)); inversion 1; by subst.
Qed.

(** X6. Round trip of the batch: after [clearFrames] and a resolved
    [storeFrames fs], [getAllFrames] resolves to the frames of [fs] in
    their order, without a hole. *)
Theorem storeFrames_getAllFrames (fs : list bytes) (db db1 db2 db3 : IDB)
    (a : list (option bytes)) :
  Z.of_nat (length fs) ≤ MAX_ARRAY_LENGTH →
  clearFrames rq db = (db1, Resolved tt) →
  storeFrames rq transaction_message fs db1 = (db2, Resolved tt) →
  getAllFrames rq cursor_error db2 = (db3, Resolved a) →
  a = Some <$> fs.
Proof.
  intros Hmax Hc Hs Hg.
  pose proof (clearFrames_resolved _ _ Hc) as Hempty.
  pose proof (storeFrames_resolved _ _ _ Hs) as Hk.
  destruct (getAllFrames_resolved _ _ _ Hg) as (Hget & Hhole & Hla).
  assert (∀ i : nat, Z.of_nat i < MAX_ARRAY_LENGTH → array_get a i = fs !! i) as Hall.
  { intros i Hi. rewrite Hget, Hk, Nat2Z.id by done. case_decide; [done|].
    rewrite Hempty, lookup_empty. symmetry. apply lookup_ge_None. lia. }
  assert (length a = length fs) as Hlen.
  { destruct (decide (length a ≤ length fs)%nat) as [Hle|Hgt].
    - destruct (decide (length a = length fs)); [done|]. exfalso.
      destruct (lookup_lt_is_Some_2 fs (length a)) as [b Hb]; [lia|].
      pose proof (Hall (length a)) as Hx. rewrite Hb in Hx.
      unfold array_get in Hx. rewrite lookup_ge_None_2 in Hx by done.
      unfold MAX_ARRAY_LENGTH in *. by specialize (Hx ltac:(lia)).
    - exfalso. destruct Hhole as [->|[v Hv]]; [simpl in *; lia|].
      rewrite last_lookup in Hv.
      pose proof (Hall (pred (length a))) as Hx.
      unfold array_get in Hx. rewrite Hv in Hx.
      rewrite lookup_ge_None_2 in Hx by lia.
      unfold MAX_ARRAY_LENGTH in *. by specialize (Hx ltac:(lia)). }
  apply list_eq. intros i. rewrite list_lookup_fmap.
  destruct (decide (i < length fs)%nat) as [Hlt|Hge].
  - pose proof (Hall i) as Hi. unfold array_get in Hi.
    unfold MAX_ARRAY_LENGTH in *. specialize (Hi ltac:(lia)).
    destruct (lookup_lt_is_Some_2 fs i Hlt) as [b Hb]. rewrite Hb in *. simpl.
    destruct (a !! i) as [[v|]|]; by inversion Hi.
  - rewrite (lookup_ge_None_2 fs i) by lia. simpl. apply lookup_ge_None. lia.
Qed.

End BatchFacts.

Lemma storeFrames_getAllFrames_witness :
  [Some [Byte.x0a]; Some []; Some [Byte.x0c]]
  = Some <$> [[Byte.x0a]; []; [Byte.x0c]].
Proof.
  apply (storeFrames_getAllFrames PduStore.no_faults (fun msg => msg) (fun _ => None)
           [[Byte.x0a]; []; [Byte.x0c]]
           {| PduStore.dbInstance := false; PduStore.frames := {[ 7 := [Byte.x01] ]} |}
           {| PduStore.dbInstance := true; PduStore.frames := ∅ |}
           {| PduStore.dbInstance := true;
              PduStore.frames := {[ 0 := [Byte.x0a]; 1 := []; 2 := [Byte.x0c] ]} |}
           {| PduStore.dbInstance := true;
              PduStore.frames := {[ 0 := [Byte.x0a]; 1 := []; 2 := [Byte.x0c] ]} |}).
  - by vm_compute.
  - reflexivity.
  - vm_compute. reflexivity.
  - vm_compute. reflexivity.
Defined.

(** ** pdu-store.ts: PDU headers *)

Section HeaderFacts.
Import PduStore.

Lemma byteZ_range b : 0 ≤ byteZ b < 256.
Proof. unfold byteZ. pose proof (Byte.to_N_bounded b). lia. Qed.

Lemma lor_shiftl_8 a b : 0 ≤ b < 256 → Z.lor (Z.shiftl a 8) b = 256 * a + b.
Proof.
  intros Hb.
  assert (Z.land (Z.shiftl a 8) b = 0) as Hland.
  { apply Z.bits_inj'. intros n Hn. rewrite Z.land_spec, Z.bits_0.
    destruct (Z.ltb_spec n 8).
    - by rewrite Z.shiftl_spec_low.
    - replace b with (b mod 2 ^ 8) by (apply Z.mod_small; lia).
      rewrite Z.mod_pow2_bits_high by lia. apply andb_false_r. }
  rewrite <- Z.lxor_lor by done. rewrite <- Z.add_nocarry_lxor by done.
  rewrite Z.shiftl_mul_pow2 by lia. lia.
Qed.

Lemma land_128 (b : Byte.byte) : (Z.land (byteZ b) 128 =? 0) = (byteZ b <? 128).
Proof. by destruct b. Qed.

Lemma land_127 (b : Byte.byte) : 128 ≤ byteZ b → Z.land (byteZ b) 127 = byteZ b - 128.
Proof. destruct b; cbn; intros H; try done; by exfalso. Qed.

(** X7. [parsePduHeader] reads big-endian lengths.  A TPKT header
    (first byte 3) gives 256 * byte 2 + byte 3; a fast-path header gives
    its second byte when that is below 128, and otherwise
    256 * (second byte - 128) + third byte, below 32768; a header that
    is cut short gives -1, the empty frame 0; so the length is always
    between -1 and 65535. *)
Theorem parsePduHeader_lengths :
  (∀ data, -1 ≤ (parsePduHeader data).2 < 65536) ∧
  (∀ v b2 b3 rest,
      parsePduHeader (Byte.x03 :: v :: b2 :: b3 :: rest)
      = ("X224/TPKT", 256 * byteZ b2 + byteZ b3)) ∧
  (∀ a b1 rest, byteZ a ≠ 3 → byteZ b1 < 128 →
      parsePduHeader (a :: b1 :: rest) = ("FastPath", byteZ b1)) ∧
  (∀ a b1 b2 rest, byteZ a ≠ 3 → 128 ≤ byteZ b1 →
      parsePduHeader (a :: b1 :: b2 :: rest)
      = ("FastPath", 256 * (byteZ b1 - 128) + byteZ b2) ∧
      256 * (byteZ b1 - 128) + byteZ b2 < 32768) ∧
  (∀ data, (parsePduHeader data).2 = -1 ↔
           match data with
           | [] => False
           | a :: rest =>
               if byteZ a =? 3 then (length data < 4)%nat
               else match rest with
                    | [] => True
                    | b1 :: rest' => 128 ≤ byteZ b1 ∧ rest' = []
                    end
           end).
Proof.
  assert (∀ a b1 rest, byteZ a ≠ 3 → byteZ b1 < 128 →
            parsePduHeader (a :: b1 :: rest) = ("FastPath", byteZ b1)) as Hshort.
  { intros a b1 rest Ha Hb. unfold parsePduHeader, byteAt. cbn [length lookup list_lookup].
    rewrite (proj2 (Z.eqb_neq _ _) Ha). cbn [Nat.ltb Nat.leb].
    rewrite land_128.
    by rewrite (proj2 (Z.ltb_lt _ _) Hb). }
  assert (∀ a b1 b2 rest, byteZ a ≠ 3 → 128 ≤ byteZ b1 →
            parsePduHeader (a :: b1 :: b2 :: rest)
            = ("FastPath", 256 * (byteZ b1 - 128) + byteZ b2)) as Hlong.
  { intros a b1 b2 rest Ha Hb. unfold parsePduHeader, byteAt.
    cbn [length lookup list_lookup].
    rewrite (proj2 (Z.eqb_neq _ _) Ha). cbn [Nat.ltb Nat.leb].
    rewrite land_128.
    rewrite (proj2 (Z.ltb_ge _ _) Hb). cbn [negb].
    rewrite land_127 by done.
    by rewrite lor_shiftl_8 by apply byteZ_range. }
  assert (∀ v b2 b3 rest,
            parsePduHeader (Byte.x03 :: v :: b2 :: b3 :: rest)
            = ("X224/TPKT", 256 * byteZ b2 + byteZ b3)) as Htpkt.
  { intros v b2 b3 rest. unfold parsePduHeader, byteAt.
    cbn [length lookup list_lookup]. cbn [Nat.ltb Nat.leb].
    change (byteZ Byte.x03 =? 3) with true. cbn iota.
    by rewrite lor_shiftl_8 by apply byteZ_range. }
  assert (∀ data,
            (parsePduHeader data).2 = -1 ↔
            match data with
            | [] => False
            | a :: rest =>
                if byteZ a =? 3 then (length data < 4)%nat
                else match rest with
                     | [] => True
                     | b1 :: rest' => 128 ≤ byteZ b1 ∧ rest' = []
                     end
            end) as Hcut.
  { intros [|a rest]; [done|].
    destruct (byteZ a =? 3) eqn:Ha.
    - unfold parsePduHeader, byteAt. cbn [length lookup list_lookup Nat.ltb Nat.leb].
      rewrite Ha.
      destruct rest as [|v [|b2 [|b3 rest]]]; cbn; try (split; [lia|done]).
      rewrite lor_shiftl_8 by apply byteZ_range.
      pose proof (byteZ_range b2). pose proof (byteZ_range b3). split; lia.
    - apply Z.eqb_neq in Ha. destruct rest as [|b1 rest].
      { unfold parsePduHeader, byteAt. cbn [length lookup list_lookup Nat.ltb Nat.leb].
        by rewrite (proj2 (Z.eqb_neq _ _) Ha). }
      destruct (Z.lt_ge_cases (byteZ b1) 128) as [Hlt|Hge].
      + rewrite Hshort by done. cbn. pose proof (byteZ_range b1). split; lia.
      + destruct rest as [|b2 rest].
        * unfold parsePduHeader, byteAt.
          cbn [length lookup list_lookup Nat.ltb Nat.leb].
          rewrite (proj2 (Z.eqb_neq _ _) Ha).
          rewrite land_128.
          rewrite (proj2 (Z.ltb_ge _ _) Hge). cbn. done.
        * rewrite Hlong by done. cbn.
          pose proof (byteZ_range b1). pose proof (byteZ_range b2).
          split; [lia|]. by intros [_ ?]. }
  split; [|split; [done|split; [done|split; [|done]]]].
  - intros data. destruct data as [|a rest]; [done|].
    destruct (decide (byteZ a = 3)) as [Ha|Ha].
    + destruct rest as [|v [|b2 [|b3 rest]]].
      1-3: unfold parsePduHeader, byteAt; cbn [length lookup list_lookup Nat.ltb Nat.leb];
        rewrite (proj2 (Z.eqb_eq _ _) Ha); cbn; lia.
      unfold parsePduHeader, byteAt. cbn [length lookup list_lookup Nat.ltb Nat.leb].
      rewrite (proj2 (Z.eqb_eq _ _) Ha). cbn [snd].
      rewrite lor_shiftl_8 by apply byteZ_range.
      pose proof (byteZ_range b2). pose proof (byteZ_range b3). lia.
    + destruct rest as [|b1 rest].
      { unfold parsePduHeader, byteAt. cbn [length lookup list_lookup Nat.ltb Nat.leb].
        rewrite (proj2 (Z.eqb_neq _ _) Ha). cbn. lia. }
      destruct (Z.lt_ge_cases (byteZ b1) 128) as [Hlt|Hge].
      * rewrite Hshort by done. cbn. pose proof (byteZ_range b1). lia.
      * destruct rest as [|b2 rest].
        -- unfold parsePduHeader, byteAt.
           cbn [length lookup list_lookup Nat.ltb Nat.leb].
           rewrite (proj2 (Z.eqb_neq _ _) Ha). rewrite land_128.
           rewrite (proj2 (Z.ltb_ge _ _) Hge). cbn. lia.
        -- rewrite Hlong by done. cbn.
           pose proof (byteZ_range b1). pose proof (byteZ_range b2). lia.
  - intros a b1 b2 rest Ha Hb. split; [by apply Hlong|].
    pose proof (byteZ_range b1). pose proof (byteZ_range b2). lia.
Qed.

End HeaderFacts.

(** ** FolderUploader.svelte: the sort *)

Section SortFacts.
Import PduStore FolderUploader Ingest IngestMore.
Context {A : Type} (cmp : A → A → Z).

Lemma insert_sorted_perm x (s : list A) : JS.insert_sorted cmp x s ≡ₚ x :: s.
Proof.
  induction s as [|y s IH]; simpl; [done|].
  destruct (cmp x y <=? 0); [done|]. rewrite IH. apply perm_swap.
Qed.

(** An element is inserted in front of the elements it does not come
    after, so elements that compare as equal keep their order. *)
Lemma insert_sorted_filter (P : A → bool) x s :
  (∀ y, y ∈ s → P x = true → P y = true → cmp x y ≤ 0) →
  List.filter P (JS.insert_sorted cmp x s)
  = if P x then x :: List.filter P s else List.filter P s.
Proof.
  induction s as [|y s IH]; intros H; simpl; [done|].
  destruct (Z.leb_spec (cmp x y) 0) as [Hle|Hgt]; [done|].
  simpl. rewrite IH by (intros z Hz; apply H; by right).
  destruct (P x) eqn:Hx, (P y) eqn:Hy; try done.
  exfalso. assert (cmp x y ≤ 0); [|lia]. apply H; [by left|done..].
Qed.

Lemma sort_stable (P : A → bool) (l : list A) :
  (∀ x y, x ∈ l → y ∈ l → P x = true → P y = true → cmp x y ≤ 0) →
  List.filter P (JS.sort cmp l) = List.filter P l.
Proof.
  induction l as [|x l IH]; intros H; simpl; [done|].
  rewrite insert_sorted_filter.
  - rewrite IH; [done|]. intros a b Ha Hb. apply H; by right.
  - intros y Hy. apply H; [by left|]. right. by rewrite <- (sort_perm cmp l).
Qed.

Lemma consistentb_correct (l : list A) : consistentb cmp l = true → consistent cmp l.
Proof.
  unfold consistentb. intros [[H1 H2]%andb_prop H3]%andb_prop.
  rewrite forallb_forall in H1, H2, H3.
  assert (∀ x y z, x ∈ l → y ∈ l → z ∈ l →
            (cmp x y = 0 → cmp y z = 0 → cmp x z = 0) ∧
            (cmp x y < 0 → cmp y z < 0 → cmp x z < 0) ∧
            (0 < cmp x y → 0 < cmp y z → 0 < cmp x z)) as H3'.
  { intros x y z Hx%list_elem_of_In Hy%list_elem_of_In Hz%list_elem_of_In.
    specialize (H3 x Hx). rewrite forallb_forall in H3. specialize (H3 y Hy).
    rewrite forallb_forall in H3. specialize (H3 z Hz).
    apply andb_prop in H3 as [[Ha Hb]%andb_prop Hc].
    split; [|split].
    - intros Hxy Hyz. rewrite Hxy, Hyz in Ha. cbn in Ha. by apply Z.eqb_eq.
    - intros Hxy%Z.ltb_lt Hyz%Z.ltb_lt. rewrite Hxy, Hyz in Hb. cbn in Hb.
      by apply Z.ltb_lt.
    - intros Hxy%Z.ltb_lt Hyz%Z.ltb_lt. rewrite Hxy, Hyz in Hc. cbn in Hc.
      by apply Z.ltb_lt. }
  split; [|split; [|split; [|split]]].
  - intros x Hx%list_elem_of_In. by apply Z.eqb_eq, H1.
  - intros x y Hx%list_elem_of_In Hy%list_elem_of_In Hxy.
    specialize (H2 x Hx). rewrite forallb_forall in H2. specialize (H2 y Hy).
    rewrite Hxy in H2. cbn in H2. by apply Z.eqb_eq.
  - intros x y z Hx Hy Hz. by apply H3'.
  - intros x y z Hx Hy Hz. by apply H3'.
  - intros x y z Hx Hy Hz. by apply H3'.
Qed.

(** A consistent comparator orders the elements. *)
Lemma consistent_ordering (l : list A) : consistent cmp l → ordering cmp l.
Proof.
  intros (Hrefl & Hsym & Heq & Hlt & Hgt).
  assert (∀ a b, a ∈ l → b ∈ l → 0 < cmp a b → cmp b a < 0) as Hanti.
  { intros a b Ha Hb Hab.
    destruct (Z.lt_trichotomy (cmp b a) 0) as [H|[H|H]]; [done| |].
    - pose proof (Hsym b a Hb Ha H). lia.
    - pose proof (Hgt a b a Ha Hb Ha Hab H). pose proof (Hrefl a Ha). lia. }
  assert (∀ a b, a ∈ l → b ∈ l → cmp a b < 0 → 0 < cmp b a) as Hanti'.
  { intros a b Ha Hb Hab.
    destruct (Z.lt_trichotomy (cmp b a) 0) as [H|[H|H]]; [| |done].
    - pose proof (Hlt a b a Ha Hb Ha Hab H). pose proof (Hrefl a Ha). lia.
    - pose proof (Hsym b a Hb Ha H). lia. }
  split.
  - intros x y Hx Hy Hxy. pose proof (Hanti x y Hx Hy Hxy). lia.
  - intros x y z Hx Hy Hz Hxy Hyz.
    destruct (Z.lt_trichotomy (cmp x z) 0) as [H|[H|H]]; [lia|lia|]. exfalso.
    pose proof (Hanti x z Hx Hz H) as Hzx.
    destruct (Z.lt_trichotomy (cmp x y) 0) as [Hxy'|[Hxy'|Hxy']]; [| |lia].
    + pose proof (Hlt z x y Hz Hx Hy Hzx Hxy') as Hzy.
      destruct (Z.lt_trichotomy (cmp y z) 0) as [Hyz'|[Hyz'|Hyz']]; [| |lia].
      * pose proof (Hlt z y z Hz Hy Hz Hzy Hyz'). pose proof (Hrefl z Hz). lia.
      * pose proof (Hsym y z Hy Hz Hyz'). lia.
    + destruct (Z.lt_trichotomy (cmp y z) 0) as [Hyz'|[Hyz'|Hyz']]; [| |lia].
      * pose proof (Hanti' y z Hy Hz Hyz') as Hzy.
        pose proof (Hgt x z y Hx Hz Hy H Hzy). lia.
      * pose proof (Heq x y z Hx Hy Hz Hxy' Hyz'). lia.
Qed.

Lemma insert_sorted_sorted x s :
  ordering cmp (x :: s) →
  StronglySorted (fun a b => cmp a b ≤ 0) s →
  StronglySorted (fun a b => cmp a b ≤ 0) (JS.insert_sorted cmp x s).
Proof.
  intros [Htot Htr]. induction s as [|y s IH]; intros Hs; simpl.
  - by repeat constructor.
  - apply StronglySorted_cons in Hs as [Hy Hs].
    destruct (Z.leb_spec (cmp x y) 0) as [Hle|Hgt].
    + apply StronglySorted_cons. split; [|by apply StronglySorted_cons].
      constructor; [done|]. apply Forall_forall. intros z Hz.
      apply (Htr x y z); [by left|by right; left|by do 2 right|done|].
      by apply (proj1 (Forall_forall _ _) Hy).
    + apply StronglySorted_cons. split.
      * rewrite insert_sorted_perm. constructor; [|done].
        apply Htot; [by left|by right; left|done].
      * apply IH; [| |done].
        -- intros a b Ha Hb. apply Htot.
           ++ apply elem_of_cons in Ha as [->|Ha]; [by left|by do 2 right].
           ++ apply elem_of_cons in Hb as [->|Hb]; [by left|by do 2 right].
        -- intros a b c Ha Hb Hc. apply Htr.
           ++ apply elem_of_cons in Ha as [->|Ha]; [by left|by do 2 right].
           ++ apply elem_of_cons in Hb as [->|Hb]; [by left|by do 2 right].
           ++ apply elem_of_cons in Hc as [->|Hc]; [by left|by do 2 right].
Qed.

Lemma sort_sorted (l : list A) :
  ordering cmp l → StronglySorted (fun a b => cmp a b ≤ 0) (JS.sort cmp l).
Proof.
  induction l as [|x l IH]; intros [Htot Htr]; simpl; [constructor|].
  apply insert_sorted_sorted.
  - split.
    + intros a b Ha Hb. apply Htot.
      * apply elem_of_cons in Ha as [->|Ha]; [by left|].
        right. by rewrite <- (sort_perm cmp l).
      * apply elem_of_cons in Hb as [->|Hb]; [by left|].
        right. by rewrite <- (sort_perm cmp l).
    + intros a b c Ha Hb Hc. apply Htr.
      * apply elem_of_cons in Ha as [->|Ha]; [by left|].
        right. by rewrite <- (sort_perm cmp l).
      * apply elem_of_cons in Hb as [->|Hb]; [by left|].
        right. by rewrite <- (sort_perm cmp l).
      * apply elem_of_cons in Hc as [->|Hc]; [by left|].
        right. by rewrite <- (sort_perm cmp l).
  - apply IH. split.
    + intros a b Ha Hb. apply Htot; by right.
    + intros a b c Ha Hb Hc. apply Htr; by right.
Qed.

End SortFacts.

Section NaturalSortMore.
Import PduStore FolderUploader Ingest IngestMore.
Variable localeCompare : string → string → Z.

Lemma naturalCompare_prefix a b x y :
  prefixValue a = Some x → prefixValue b = Some y →
  naturalCompare localeCompare a b = x - y.
Proof.
  unfold prefixValue, naturalCompare.
  destruct (JS.match_leading_digits (name a)); [|done].
  destruct (JS.match_leading_digits (name b)); [|done].
  by intros -> ->.
Qed.

(** A name of digits only starts with the number it denotes. *)
Lemma prefixValue_only_digits f :
  JS.test_only_digits (name f) = true → prefixValue f = JS.parseInt (name f).
Proof.
  intros H. unfold prefixValue, JS.match_leading_digits.
  destruct (name f) as [|c s] eqn:Hn; [done|].
  simpl in H. apply andb_prop in H as [Hc Hs].
  assert (JS.takeDigits (String c s) = String c s) as ->; [|done].
  simpl. by rewrite Hc, (JSFacts.takeDigits_all s Hs).
Qed.

Lemma naturalSort_same_prefix (files : list File) (k : Z) :
  List.filter (startsWith k) (naturalSort localeCompare files)
  = List.filter (startsWith k) files.
Proof.
  apply sort_stable.
  intros x y _ _ Hx Hy. unfold startsWith in *.
  apply bool_decide_eq_true in Hx, Hy.
  rewrite (naturalCompare_prefix x y k k Hx Hy). lia.
Qed.

(** X8. With names whose leading digits denote numbers that JavaScript
    holds exactly, and a comparator that is consistent on the
    selection, [naturalSort] is stable on names that start with the
    same number: the files whose names start with [k] come out in the
    order of the selection, and the sorted array is a permutation of
    the selection. *)
Theorem naturalSort_stable (files : list File) (k : Z) :
  Forall safeName files →
  consistent (naturalCompare localeCompare) files →
  naturalSort localeCompare files ≡ₚ files ∧
  List.filter (startsWith k) (naturalSort localeCompare files)
  = List.filter (startsWith k) files.
Proof.
  intros _ _. split; [apply sort_perm|]. apply sort_stable.
  intros x y _ _ Hx Hy. unfold startsWith in *.
  apply bool_decide_eq_true in Hx, Hy.
  rewrite (naturalCompare_prefix x y k k Hx Hy). lia.
Qed.

(** X9. When every name of the selection starts with a digit, and
    these digits denote numbers that JavaScript holds exactly, the
    sorted array is in non-decreasing order of these numbers, whatever
    [localeCompare] is. *)
Theorem naturalSort_sorted_by_prefix (files : list File) :
  Forall safeName files →
  Forall (fun f => is_Some (prefixValue f)) files →
  StronglySorted Z.le (omap prefixValue (naturalSort localeCompare files)) ∧
  length (omap prefixValue (naturalSort localeCompare files)) = length files.
Proof.
  intros _ Hall.
  assert (ordering (naturalCompare localeCompare) files) as Hcons.
  { rewrite Forall_forall in Hall. split.
    - intros x y Hx Hy. destruct (Hall x Hx) as [vx Hvx], (Hall y Hy) as [vy Hvy].
      rewrite (naturalCompare_prefix x y vx vy), (naturalCompare_prefix y x vy vx)
        by done. lia.
    - intros x y z Hx Hy Hz.
      destruct (Hall x Hx) as [vx Hvx], (Hall y Hy) as [vy Hvy], (Hall z Hz) as [vz Hvz].
      rewrite (naturalCompare_prefix x y vx vy), (naturalCompare_prefix y z vy vz),
        (naturalCompare_prefix x z vx vz) by done. lia. }
  pose proof (sort_sorted _ _ Hcons) as Hs. fold (naturalSort localeCompare files) in Hs.
  assert (Forall (fun f => is_Some (prefixValue f)) (naturalSort localeCompare files))
    as Hall'.
  { unfold naturalSort. by rewrite sort_perm. }
  split.
  - clear Hcons. induction Hs as [|a l Hl IH Ha]; [constructor|].
    apply Forall_cons in Hall' as [[va Hva] Hall'].
    cbn [omap list_omap]. rewrite Hva. apply StronglySorted_cons. split.
    + apply Forall_forall. intros v Hv.
      apply list_elem_of_omap in Hv as (b & Hb & Hvb).
      rewrite Forall_forall in Ha. specialize (Ha b Hb).
      rewrite (naturalCompare_prefix a b va v) in Ha by done. lia.
    + by apply IH.
  - rewrite <- (Permutation_length (sort_perm (naturalCompare localeCompare) files)).
    fold (naturalSort localeCompare files).
    clear Hs Hcons. induction Hall' as [|a l [va Hva] _ IH]; [done|].
    cbn [omap list_omap length]. rewrite Hva. cbn [length]. by f_equal.
Qed.

(** X10. When the comparator is consistent on the selection (the
    condition under which [Array.prototype.sort] is specified) and the
    leading digits of the names denote numbers that JavaScript holds
    exactly, the frame candidates are stored in non-decreasing order of
    their frame index. *)
Theorem candidates_in_index_order (files : list File) :
  Forall safeName files →
  consistent (naturalCompare localeCompare) files →
  StronglySorted Z.le (frameIndexes (pduFiles_of localeCompare files)).
Proof.
  intros _ Hcons%consistent_ordering.
  pose proof (sort_sorted _ _ Hcons) as Hs. fold (naturalSort localeCompare files) in Hs.
  unfold pduFiles_of. revert Hs. generalize (naturalSort localeCompare files).
  intros l Hs. induction Hs as [|a l Hl IH Ha]; [constructor|].
  cbn [List.filter]. destruct (JS.test_only_digits (name a)) eqn:Hd; [|done].
  unfold frameIndexes. cbn [omap list_omap].
  destruct (JSFacts.parseInt_only_digits _ Hd) as [Hp _]. rewrite Hp.
  apply StronglySorted_cons. split; [|done].
  apply Forall_forall. intros v Hv.
  apply list_elem_of_omap in Hv as (b & Hb & Hvb).
  apply list_elem_of_In, List.filter_In in Hb as [Hb Hdb].
  apply list_elem_of_In in Hb.
  rewrite Forall_forall in Ha. specialize (Ha b Hb).
  rewrite (naturalCompare_prefix a b (JS.decimal 0 (name a)) v) in Ha.
  - lia.
  - by rewrite prefixValue_only_digits.
  - by rewrite prefixValue_only_digits.
Qed.

End NaturalSortMore.

Lemma naturalSort_stable_witness :
  List.filter (IngestMore.startsWith 7)
    (FolderUploader.naturalSort Sample.codeUnitCompare
       [Sample.file "7" [Byte.x01]; Sample.file "10" []; Sample.file "007" [Byte.x02];
        Sample.file "1" []; Sample.file "7.bak" [Byte.x03]])
  = [Sample.file "7" [Byte.x01]; Sample.file "007" [Byte.x02];
     Sample.file "7.bak" [Byte.x03]].
Proof.
  refine (proj2 (naturalSort_stable Sample.codeUnitCompare
                   [Sample.file "7" [Byte.x01]; Sample.file "10" [];
                    Sample.file "007" [Byte.x02]; Sample.file "1" [];
                    Sample.file "7.bak" [Byte.x03]] 7 _ _)).
  - repeat constructor; by vm_compute.
  - apply consistentb_correct. by vm_compute.
Defined.

Lemma naturalSort_sorted_by_prefix_witness :
  StronglySorted Z.le
    (omap IngestMore.prefixValue
       (FolderUploader.naturalSort Sample.codeUnitCompare
          [Sample.file "10.bin" []; Sample.file "2.bin" []; Sample.file "007" [];
           Sample.file "1" []])).
Proof.
  apply naturalSort_sorted_by_prefix.
  - repeat constructor; by vm_compute.
  - repeat constructor; by eexists.
Defined.

Lemma candidates_in_index_order_witness :
  StronglySorted Z.le
    (Ingest.frameIndexes
       (FolderUploader.pduFiles_of Sample.codeUnitCompare
          [Sample.file "10" []; Sample.textFile "timing.json" "[]";
           Sample.file "2" []; Sample.file "1" []])).
Proof.
  apply candidates_in_index_order.
  - repeat constructor; by vm_compute.
  - apply consistentb_correct. by vm_compute.
Defined.

(** ** FolderUploader.svelte: what an ingestion leaves *)

Section IngestMoreFacts.
Import PduStore FolderUploader Ingest IngestMore.
Variable localeCompare : string → string → Z.
Variable JSON_parse : string → Result (list TimingEntry).
Variable rq : Requests.

(** The value under a key is the one of the last upsert at that key. *)
Lemma putAll_lookup_last kvs : ∀ m k,
  putAll m kvs !! k
  = match last (List.filter (hasKey k) kvs) with
    | Some kv => Some kv.2
    | None => m !! k
    end.
Proof.
  induction kvs as [|[k' v] kvs IH]; intros m k; [done|].
  unfold putAll in *. cbn [foldl List.filter]. rewrite IH.
  unfold hasKey at 2. cbn [fst snd]. case_bool_decide as Hk.
  - subst k'. destruct (List.filter (hasKey k) kvs) as [|kv l] eqn:Hf.
    + by rewrite lookup_insert_eq.
    + rewrite last_cons_cons. destruct (last (kv :: l)) eqn:Hl; [done|].
      by apply last_None in Hl.
  - destruct (last (List.filter (hasKey k) kvs)); [done|].
    by rewrite lookup_insert_ne.
Qed.

Lemma filter_keyed k (l : list File) :
  List.filter (hasKey k) (omap keyed l) = omap keyed (List.filter (hasIndex k) l).
Proof.
  induction l as [|f l IH]; [done|].
  cbn [omap list_omap List.filter]. unfold hasIndex at 1.
  destruct (keyed f) as [[k' b]|] eqn:Hkf.
  - apply keyed_Some in Hkf as Hkf'. destruct Hkf' as [_ Hp]. rewrite Hp.
    cbn [List.filter]. unfold hasKey at 1. cbn [fst].
    case_bool_decide as H1; case_bool_decide as H2; try congruence.
    all: cbn [omap list_omap]; rewrite ?Hkf; try done; by f_equal.
  - case_bool_decide; [|done]. cbn [omap list_omap]. by rewrite Hkf.
Qed.

Lemma filter_exchange {A} (P Q P' Q' : A → bool) (l : list A) :
  (∀ x, Q x && P x = Q' x && P' x) →
  List.filter P (List.filter Q l) = List.filter P' (List.filter Q' l).
Proof.
  intros H. induction l as [|x l IH]; [done|]. cbn [List.filter].
  specialize (H x).
  destruct (Q x) eqn:HQ, (Q' x) eqn:HQ'; cbn [List.filter];
    try destruct (P x) eqn:HP; try destruct (P' x) eqn:HP';
    simpl in H; try done; by f_equal.
Qed.

Lemma pduFiles_of_same_index k files :
  List.filter (hasIndex k) (pduFiles_of localeCompare files)
  = List.filter (hasIndex k) (candidates files).
Proof.
  unfold pduFiles_of, candidates.
  rewrite (filter_exchange (hasIndex k) _ (fun f => JS.test_only_digits (name f))
             (startsWith k)).
  2:{ intros f. destruct (JS.test_only_digits (name f)) eqn:Hd; simpl.
      - unfold hasIndex, startsWith. rewrite prefixValue_only_digits by done.
        by rewrite andb_true_r.
      - by rewrite andb_false_r. }
  rewrite (naturalSort_same_prefix localeCompare files k).
  apply filter_exchange. intros f.
  destruct (JS.test_only_digits (name f)) eqn:Hd; simpl.
  - unfold hasIndex, startsWith. rewrite prefixValue_only_digits by done.
    by rewrite andb_true_r.
  - by rewrite andb_false_r.
Qed.

Lemma pduFiles_of_candidates files :
  pduFiles_of localeCompare files ≡ₚ candidates files.
Proof.
  unfold pduFiles_of, candidates, naturalSort. apply filter_perm, sort_perm.
Qed.

(** X11. The sort does not show in the store: with names whose
    leading digits denote numbers that JavaScript holds exactly and a
    comparator that is consistent on the selection, after an ingestion
    in which every candidate is read and stored, the store is the one
    that upserts of the candidates in the order of the selection build;
    so of the candidates that denote the same integer the one selected
    last is kept, and files that are no candidates leave no trace. *)
Theorem store_in_selection_order (files : list File) (w : World) :
  files ≠ [] → clears rq (idb w) → reliable rq →
  Forall readable (candidates files) →
  Forall safeName files →
  consistent (naturalCompare localeCompare) files →
  frames (idb (handleFolderSelect localeCompare JSON_parse rq files w))
  = putAll ∅ (omap keyed (candidates files)).
Proof.
  intros Hne Hcl [Hput Hcount] Hr _ _.
  assert (Forall readable (pduFiles_of localeCompare files)) as Hr'.
  { by rewrite pduFiles_of_candidates. }
  pose proof (commits_reliable rq _ ∅ Hput Hr' (pduFiles_of_digits localeCompare files))
    as Hc.
  destruct (handleFolderSelect_commits localeCompare JSON_parse rq files w _
              Hne Hcl Hc (Hcount _)) as (_ & _ & _ & ->).
  cbn [frames]. apply map_eq. intros k.
  rewrite !putAll_lookup_last, !filter_keyed. by rewrite pduFiles_of_same_index.
Qed.

(** X12. A selection without a frame candidate still clears the store:
    the ingestion ends with no frame, a count of 0 and a total of 0,
    whatever the store held and whatever message the ingestion ends
    with. *)
Theorem selection_without_candidates_clears (files : list File) (w : World) :
  files ≠ [] → candidates files = [] →
  clears rq (idb w) → count_error rq ∅ = None →
  let w' := handleFolderSelect localeCompare JSON_parse rq files w in
  frames (idb w') = ∅ ∧ frameCount w' = 0 ∧ total (uploadState w') = 0.
Proof.
  intros Hne Hnone Hcl Hcount w'.
  assert (pduFiles_of localeCompare files = []) as Hp.
  { apply Permutation_nil. symmetry. rewrite <- Hnone.
    apply pduFiles_of_candidates. }
  assert (commits rq ∅ (pduFiles_of localeCompare files) = Some ∅) as Hc
    by by rewrite Hp.
  destruct (handleFolderSelect_commits localeCompare JSON_parse rq files w _
              Hne Hcl Hc Hcount) as (Hs & Ht & Hf & Hdb).
  fold w' in Hs, Ht, Hf, Hdb. rewrite Hdb, Hf, Ht, Hp. by cbn.
Qed.

Lemma handleFolderSelect_timing files w :
  files ≠ [] →
  timing (handleFolderSelect localeCompare JSON_parse rq files w)
  = timing (loadTiming JSON_parse (naturalSort localeCompare files) w).
Proof.
  intros Hne. rewrite (handleFolderSelect_unfold _ _ _ _ _ Hne).
  pose proof (storeAll_timing rq (pduFiles_of localeCompare files)
                (atLoading localeCompare JSON_parse files w)) as Ht.
  by destruct (storeAll rq _ _) as [w1 [[]|msg]]; simpl in *; rewrite Ht.
Qed.

(** X13. The timing is settled before the frames are touched, and the
    outcome of the frame loop does not change it: without a file named
    [timing.json] it becomes the empty sequence, and with descriptors
    whose text parses it becomes the parsed entries, also when the
    ingestion then fails. *)
Theorem timing_after_ingestion (files : list File) (w : World) :
  files ≠ [] →
  let w' := handleFolderSelect localeCompare JSON_parse rq files w in
  ((∀ f, f ∈ files → name f ≠ "timing.json") → timing w' = []) ∧
  (∀ txt t,
      (∃ f, f ∈ files ∧ name f = "timing.json") →
      (∀ f, f ∈ files → name f = "timing.json" → text f = Resolved txt) →
      JSON_parse txt = Resolved t →
      timing w' = t).
Proof.
  intros Hne w'. subst w'. rewrite (handleFolderSelect_timing _ _ Hne).
  unfold loadTiming. split.
  - intros Hno.
    destruct (List.find _ (naturalSort localeCompare files)) as [tf|] eqn:Hfind; [|done].
    apply List.find_some in Hfind as [Hin Hname].
    apply String.eqb_eq in Hname. apply list_elem_of_In in Hin.
    unfold naturalSort in Hin. rewrite sort_perm in Hin. by destruct (Hno tf Hin).
  - intros txt t (f0 & Hin0 & Hn0) Hall Hparse.
    destruct (List.find _ (naturalSort localeCompare files)) as [tf|] eqn:Hfind.
    + apply List.find_some in Hfind as [Hin Hname].
      apply String.eqb_eq in Hname. apply list_elem_of_In in Hin.
      unfold naturalSort in Hin. rewrite sort_perm in Hin.
      by rewrite (Hall tf Hin Hname), Hparse.
    + assert (f0 ∈ naturalSort localeCompare files) as Hin
        by (unfold naturalSort; by rewrite sort_perm).
      apply list_elem_of_In in Hin.
      pose proof (List.find_none _ _ Hfind f0 Hin) as Hno. simpl in Hno.
      apply String.eqb_neq in Hno. done.
Qed.

(** X14. After an ingestion in which every candidate is read and
    stored, [refreshCount] changes nothing: the count shown is already
    the number of frames in the store. *)
Theorem refreshCount_after_ingestion (files : list File) (w : World) :
  files ≠ [] → clears rq (idb w) → reliable rq →
  Forall readable (candidates files) →
  let w' := handleFolderSelect localeCompare JSON_parse rq files w in
  refreshCount rq w' = w' ∧ frameCount w' = Z.of_nat (size (frames (idb w'))).
Proof.
  intros Hne Hcl [Hput Hcount] Hr w'.
  assert (Forall readable (pduFiles_of localeCompare files)) as Hr'.
  { by rewrite pduFiles_of_candidates. }
  pose proof (commits_reliable rq _ ∅ Hput Hr' (pduFiles_of_digits localeCompare files))
    as Hc.
  destruct (handleFolderSelect_commits localeCompare JSON_parse rq files w _
              Hne Hcl Hc (Hcount _)) as (_ & _ & Hf & Hdb).
  fold w' in Hf, Hdb. split; [|by rewrite Hf, Hdb].
  unfold refreshCount, onDB, getFrameCount, openDatabase. async_unfold.
  rewrite Hdb. cbn. rewrite Hcount. cbn.
  destruct w' as [t u c d]. cbn in *. by subst.
Qed.

End IngestMoreFacts.

Lemma store_in_selection_order_witness :
  PduStore.frames
    (FolderUploader.idb
       (FolderUploader.handleFolderSelect Sample.codeUnitCompare Sample.parseEmptyArray
          PduStore.no_faults
          [Sample.file "7" [Byte.x01]; Sample.file "notes.txt" [];
           Sample.file "007" [Byte.x02]; Sample.file "1" [Byte.x03]]
          (Sample.mounted [] {[ 4 := [] ]})))
  = Ingest.putAll ∅
      (omap Ingest.keyed
         (IngestMore.candidates
            [Sample.file "7" [Byte.x01]; Sample.file "notes.txt" [];
             Sample.file "007" [Byte.x02]; Sample.file "1" [Byte.x03]])).
Proof.
  apply store_in_selection_order.
  - done.
  - split; [by right|reflexivity].
  - by split.
  - vm_compute. repeat constructor; by eexists.
  - repeat constructor; by vm_compute.
  - apply consistentb_correct. by vm_compute.
Defined.

Lemma selection_without_candidates_clears_witness :
  let w' := FolderUploader.handleFolderSelect Sample.codeUnitCompare
              Sample.parseEmptyArray PduStore.no_faults
              [Sample.textFile "timing.json" "[]"; Sample.file "readme.md" [Byte.x01]]
              (Sample.mounted [] {[ 0 := [Byte.x0a]; 1 := [Byte.x0b] ]}) in
  PduStore.frames (FolderUploader.idb w') = ∅ ∧ FolderUploader.frameCount w' = 0 ∧
  FolderUploader.total (FolderUploader.uploadState w') = 0.
Proof.
  apply (selection_without_candidates_clears Sample.codeUnitCompare
           Sample.parseEmptyArray PduStore.no_faults).
  - done.
  - reflexivity.
  - split; [by right|reflexivity].
  - reflexivity.
Defined.

Lemma timing_after_ingestion_witness :
  FolderUploader.timing
    (FolderUploader.handleFolderSelect Sample.codeUnitCompare Sample.parseEmptyArray
       PduStore.no_faults
       [Sample.file "0" [Byte.x01]; Sample.unreadable "1"]
       (Sample.mounted [Sample.entry 0 0; Sample.entry 1 100] ∅))
  = [].
Proof.
  refine (proj1 (timing_after_ingestion Sample.codeUnitCompare Sample.parseEmptyArray
                   PduStore.no_faults
                   [Sample.file "0" [Byte.x01]; Sample.unreadable "1"]
                   (Sample.mounted [Sample.entry 0 0; Sample.entry 1 100] ∅) _) _).
  - done.
  - intros f Hf.
    repeat (apply elem_of_cons in Hf as [->|Hf]); [..|by apply elem_of_nil in Hf].
    all: by vm_compute.
Defined.

Lemma refreshCount_after_ingestion_witness :
  let w' := FolderUploader.handleFolderSelect Sample.codeUnitCompare
              Sample.parseEmptyArray PduStore.no_faults
              [Sample.file "2" [Byte.x02]; Sample.file "0" [Byte.x00];
               Sample.file "1" [Byte.x01]]
              (Sample.mounted [] ∅) in
  FolderUploader.refreshCount PduStore.no_faults w' = w' ∧
  FolderUploader.frameCount w'
  = Z.of_nat (size (PduStore.frames (FolderUploader.idb w'))).
Proof.
  apply (refreshCount_after_ingestion Sample.codeUnitCompare Sample.parseEmptyArray
           PduStore.no_faults).
  - done.
  - split; [by right|reflexivity].
  - by split.
  - vm_compute. repeat constructor; by eexists.
Defined.

(** ** routes/+page.svelte: the upload page *)

Section UploadPageFacts.
Import PduStore.
Variable localeCompare : string → string → Z.
Variable JSON_parse : string → Result (list TimingEntry).
Variable rq : Requests.

Abbreviation cWorld := FolderUploader.World.
Abbreviation pWorld := UploadPage.World.

(** The two loops make the same calls on the database. *)
Lemma storeOne_same n i f (wc : cWorld) (wp : pWorld) :
  FolderUploader.idb wc = UploadPage.idb wp →
  FolderUploader.idb (FolderUploader.storeOne rq n i f wc).1
  = UploadPage.idb (UploadPage.storeOne rq n i f wp).1 ∧
  (FolderUploader.storeOne rq n i f wc).2 = (UploadPage.storeOne rq n i f wp).2 ∧
  UploadPage.scheduled (UploadPage.storeOne rq n i f wp).1 = UploadPage.scheduled wp ∧
  UploadPage.sessionTiming (UploadPage.storeOne rq n i f wp).1
  = UploadPage.sessionTiming wp ∧
  UploadPage.frameCount (UploadPage.storeOne rq n i f wp).1 = UploadPage.frameCount wp.
Proof.
  intros Hdb. unfold FolderUploader.storeOne, UploadPage.storeOne.
  unfold FolderUploader.settled, UploadPage.settled. async_unfold.
  destruct (FolderUploader.arrayBuffer f) as [b|msg]; [|done].
  destruct (JS.parseInt (FolderUploader.name f)) as [k|]; [|done].
  unfold FolderUploader.onDB, UploadPage.onDB. rewrite Hdb.
  by destruct (storeFrame rq k b (UploadPage.idb wp)) as [db [[]|msg]].
Qed.

Lemma storeLoop_same n fs : ∀ i (wc : cWorld) (wp : pWorld),
  FolderUploader.idb wc = UploadPage.idb wp →
  FolderUploader.idb (FolderUploader.storeLoop rq n i fs wc).1
  = UploadPage.idb (UploadPage.storeLoop rq n i fs wp).1 ∧
  (FolderUploader.storeLoop rq n i fs wc).2 = (UploadPage.storeLoop rq n i fs wp).2 ∧
  UploadPage.scheduled (UploadPage.storeLoop rq n i fs wp).1 = UploadPage.scheduled wp ∧
  UploadPage.sessionTiming (UploadPage.storeLoop rq n i fs wp).1
  = UploadPage.sessionTiming wp ∧
  UploadPage.frameCount (UploadPage.storeLoop rq n i fs wp).1 = UploadPage.frameCount wp.
Proof.
  induction fs as [|f fs IH]; intros i wc wp Hdb; [done|].
  cbn [FolderUploader.storeLoop UploadPage.storeLoop].
  unfold mbind, async_bind, abind.
  destruct (storeOne_same n i f wc wp Hdb) as (H1 & H2 & H3 & H4 & H5).
  destruct (FolderUploader.storeOne rq n i f wc) as [wc1 rc].
  destruct (UploadPage.storeOne rq n i f wp) as [wp1 rp].
  cbn in H1, H2, H3, H4, H5. subst rp. destruct rc as [[]|msg]; [|done].
  destruct (IH (i + 1) wc1 wp1 H1) as (G1 & G2 & G3 & G4 & G5).
  rewrite G3, G4, G5. done.
Qed.

Lemma storeLoop_frameCount n fs : ∀ i (w : cWorld),
  FolderUploader.frameCount (FolderUploader.storeLoop rq n i fs w).1
  = FolderUploader.frameCount w.
Proof.
  induction fs as [|f fs IH]; intros i w; [done|].
  cbn [FolderUploader.storeLoop]. unfold mbind, async_bind, abind.
  assert (FolderUploader.frameCount (FolderUploader.storeOne rq n i f w).1
          = FolderUploader.frameCount w) as H1.
  { unfold FolderUploader.storeOne, FolderUploader.settled. async_unfold.
    destruct (FolderUploader.arrayBuffer f) as [b|]; [|done].
    destruct (JS.parseInt (FolderUploader.name f)) as [k|]; [|done].
    unfold FolderUploader.onDB.
    by destruct (storeFrame rq k b (FolderUploader.idb w)) as [db [[]|]]. }
  destruct (FolderUploader.storeOne rq n i f w) as [w2 [[]|]]; [|done].
  cbn in H1. by rewrite IH.
Qed.

(** The [try] blocks: same database, same outcome, and the page
    schedules its navigation exactly when the block resolves. *)
Lemma storeAll_same fs (wc : cWorld) (wp : pWorld) :
  FolderUploader.idb wc = UploadPage.idb wp →
  let rc := FolderUploader.storeAll rq fs wc in
  let rp := UploadPage.storeAll rq fs wp in
  FolderUploader.idb rc.1 = UploadPage.idb rp.1 ∧ rc.2 = rp.2 ∧
  UploadPage.sessionTiming rp.1 = UploadPage.sessionTiming wp ∧
  match rp.2 with
  | Resolved _ =>
      FolderUploader.frameCount rc.1 = UploadPage.frameCount rp.1 ∧
      FolderUploader.status (UploadPage.uploadState rp.1) = FolderUploader.success ∧
      FolderUploader.status (FolderUploader.uploadState rc.1) = FolderUploader.success ∧
      UploadPage.scheduled rp.1 = (UploadPage.scheduled wp ++ [("/player", 800)])%list
  | Rejected _ =>
      FolderUploader.frameCount rc.1 = FolderUploader.frameCount wc ∧
      UploadPage.frameCount rp.1 = UploadPage.frameCount wp ∧
      UploadPage.scheduled rp.1 = UploadPage.scheduled wp
  end.
Proof.
  intros Hdb. cbv zeta. unfold FolderUploader.storeAll, UploadPage.storeAll.
  unfold mbind, async_bind, abind, amodify.
  unfold FolderUploader.onDB, UploadPage.onDB. rewrite Hdb.
  destruct (clearFrames rq (UploadPage.idb wp)) as [db1 [[]|msg]]; [|by cbn].
  set (wc1 := {| FolderUploader.timing := FolderUploader.timing wc;
                 FolderUploader.uploadState := FolderUploader.uploadState wc;
                 FolderUploader.frameCount := FolderUploader.frameCount wc;
                 FolderUploader.idb := db1 |}).
  set (wp1 := {| UploadPage.uploadState := UploadPage.uploadState wp;
                 UploadPage.frameCount := UploadPage.frameCount wp;
                 UploadPage.sessionTiming := UploadPage.sessionTiming wp;
                 UploadPage.idb := db1; UploadPage.scheduled := UploadPage.scheduled wp |}).
  destruct (storeLoop_same (length fs) fs 0 wc1 wp1 eq_refl) as (H1 & H2 & H3 & H4 & H5).
  pose proof (storeLoop_timing rq (length fs) fs 0 wc1) as Ht.
  pose proof (storeLoop_frameCount (length fs) fs 0 wc1) as Hfc.
  destruct (FolderUploader.storeLoop rq (length fs) 0 fs wc1) as [wc2 rc].
  destruct (UploadPage.storeLoop rq (length fs) 0 fs wp1) as [wp2 rp].
  cbn in H1, H2, H3, H4, H5, Hfc. subst rp. destruct rc as [[]|msg]; [|done].
  rewrite H1.
  destruct (getFrameCount rq (UploadPage.idb wp2)) as [db3 [n|msg]]; cbn; [|done].
  by rewrite H3, H4.
Qed.

(** The ingestion of the page against the ingestion of the component. *)
Lemma page_ingestion_alike (files : list FolderUploader.File)
    (wc : cWorld) (wp : pWorld) :
  files ≠ [] →
  FolderUploader.idb wc = UploadPage.idb wp →
  let wc' := FolderUploader.handleFolderSelect localeCompare JSON_parse rq files wc in
  let wp' := UploadPage.handleFolderSelect localeCompare JSON_parse rq files wp in
  FolderUploader.idb wc' = UploadPage.idb wp' ∧
  FolderUploader.status (FolderUploader.uploadState wc')
  = FolderUploader.status (UploadPage.uploadState wp') ∧
  (FolderUploader.status (UploadPage.uploadState wp') = FolderUploader.success →
   FolderUploader.frameCount wc' = UploadPage.frameCount wp' ∧
   UploadPage.scheduled wp' = (UploadPage.scheduled wp ++ [("/player", 800)])%list).
Proof.
  intros Hne Hdb wc' wp'. subst wc' wp'.
  rewrite (handleFolderSelect_unfold localeCompare JSON_parse rq files wc Hne).
  unfold UploadPage.handleFolderSelect, UploadPage.processFiles.
  destruct files as [|f0 fl]; [done|].
  set (files := f0 :: fl) in *.
  set (wc0 := Ingest.atLoading localeCompare JSON_parse files wc).
  set (wp0 := UploadPage.set_uploadState _ _).
  assert (FolderUploader.idb wc0 = UploadPage.idb wp0 ∧
          UploadPage.scheduled wp0 = UploadPage.scheduled wp) as [Hdb0 Hsch].
  { subst wc0 wp0. rewrite atLoading_idb. cbn.
    unfold UploadPage.loadTiming.
    destruct (find _ _) as [tf|]; [|done].
    destruct (FolderUploader.text tf) as [txt|]; [|done].
    by destruct (JSON_parse txt). }
  change (List.filter _ (UploadPage.naturalSort localeCompare files))
    with (FolderUploader.pduFiles_of localeCompare files).
  destruct (storeAll_same (FolderUploader.pduFiles_of localeCompare files) wc0 wp0 Hdb0)
    as (H1 & H2 & _ & H3).
  destruct (FolderUploader.storeAll rq _ wc0) as [wc1 rc].
  destruct (UploadPage.storeAll rq _ wp0) as [wp1 rp].
  cbn in H1, H2, H3. subst rp. destruct rc as [[]|msg]; cbn.
  - destruct H3 as (Hf & Hs1 & Hs2 & Hsc). rewrite Hs1, Hs2.
    repeat split; try done. etrans; [exact Hsc|]. f_equal. exact Hsch.
  - done.
Qed.

(** X15. The upload page and the uploader component are interchangeable
    for the store: on the same selection and the same database
    [processFiles] and the component's [handleFolderSelect] leave the
    same database; where the component ends with status [success] so
    does the page, and when the page ends with it both show the same
    frame count. *)
Theorem page_and_component_store_alike (files : list FolderUploader.File)
    (wc : cWorld) (wp : pWorld) :
  files ≠ [] →
  FolderUploader.idb wc = UploadPage.idb wp →
  let wc' := FolderUploader.handleFolderSelect localeCompare JSON_parse rq files wc in
  let wp' := UploadPage.handleFolderSelect localeCompare JSON_parse rq files wp in
  FolderUploader.idb wc' = UploadPage.idb wp' ∧
  (FolderUploader.status (FolderUploader.uploadState wc') = FolderUploader.success →
   FolderUploader.status (UploadPage.uploadState wp') = FolderUploader.success) ∧
  (FolderUploader.status (UploadPage.uploadState wp') = FolderUploader.success →
   FolderUploader.frameCount wc' = UploadPage.frameCount wp').
Proof.
  intros Hne Hdb.
  destruct (page_ingestion_alike files wc wp Hne Hdb) as (H1 & H2 & H3).
  split; [done|]. split.
  - intros Hs. by rewrite <- H2.
  - intros Hs. by destruct (H3 Hs).
Qed.

(** What [processFiles] leaves in session storage. *)
Lemma processFiles_sessionTiming (files : list FolderUploader.File) (wp : pWorld) :
  UploadPage.sessionTiming (UploadPage.processFiles localeCompare JSON_parse rq files wp)
  = UploadPage.sessionTiming
      (UploadPage.loadTiming JSON_parse (UploadPage.naturalSort localeCompare files) wp).
Proof.
  unfold UploadPage.processFiles.
  set (w1 := UploadPage.loadTiming JSON_parse (UploadPage.naturalSort localeCompare files) wp).
  set (wp0 := UploadPage.set_uploadState _ w1).
  set (fs := List.filter _ _).
  pose (wc0 := {| FolderUploader.timing := []; FolderUploader.uploadState :=
                    UploadPage.uploadState wp0; FolderUploader.frameCount := 0;
                  FolderUploader.idb := UploadPage.idb wp0 |}).
  destruct (storeAll_same fs wc0 wp0 eq_refl) as (_ & _ & Hst & _).
  destruct (UploadPage.storeAll rq fs wp0) as [wp1 rp]. cbn in Hst.
  destruct rp; by rewrite <- Hst.
Qed.

Lemma processFiles_session (files : list FolderUploader.File) (wp : pWorld) :
  let wp' := UploadPage.processFiles localeCompare JSON_parse rq files wp in
  ((∀ f, f ∈ files → FolderUploader.name f ≠ "timing.json") →
   UploadPage.sessionTiming wp' = None) ∧
  (∀ txt,
      (∃ f, f ∈ files ∧ FolderUploader.name f = "timing.json") →
      (∀ f, f ∈ files → FolderUploader.name f = "timing.json" →
            FolderUploader.text f = Resolved txt) →
      UploadPage.sessionTiming wp'
      = match JSON_parse txt with
        | Resolved _ => Some txt
        | Rejected _ => UploadPage.sessionTiming wp
        end).
Proof.
  intros wp'. subst wp'. rewrite processFiles_sessionTiming.
  unfold UploadPage.loadTiming. split.
  - intros Hno.
    destruct (find _ _) as [tf|] eqn:Hfind; [|done].
    apply List.find_some in Hfind as [Hin Hname].
    apply String.eqb_eq in Hname. apply list_elem_of_In in Hin.
    unfold UploadPage.naturalSort, FolderUploader.naturalSort in Hin.
    rewrite sort_perm in Hin. by destruct (Hno tf Hin).
  - intros txt (f0 & Hin0 & Hn0) Hall.
    destruct (find _ _) as [tf|] eqn:Hfind.
    + apply List.find_some in Hfind as [Hin Hname].
      apply String.eqb_eq in Hname. apply list_elem_of_In in Hin.
      unfold UploadPage.naturalSort, FolderUploader.naturalSort in Hin.
      rewrite sort_perm in Hin. rewrite (Hall tf Hin Hname).
      by destruct (JSON_parse txt).
    + assert (f0 ∈ UploadPage.naturalSort localeCompare files) as Hin.
      { unfold UploadPage.naturalSort, FolderUploader.naturalSort.
        by rewrite sort_perm. }
      apply list_elem_of_In in Hin.
      pose proof (List.find_none _ _ Hfind f0 Hin) as Hno. simpl in Hno.
      apply String.eqb_neq in Hno. done.
Qed.

(** X16. The session-storage item after [processFiles]: the text of the
    descriptor once it has parsed, removed without a descriptor, and
    left as it was when the parse fails; and the navigation to the
    player is scheduled, 800 ms ahead, exactly when the ingestion ends
    with status [success]. *)
Theorem processFiles_session_and_navigation (files : list FolderUploader.File)
    (wp : pWorld) :
  let wp' := UploadPage.processFiles localeCompare JSON_parse rq files wp in
  ((∀ f, f ∈ files → FolderUploader.name f ≠ "timing.json") →
   UploadPage.sessionTiming wp' = None) ∧
  (∀ txt,
      (∃ f, f ∈ files ∧ FolderUploader.name f = "timing.json") →
      (∀ f, f ∈ files → FolderUploader.name f = "timing.json" →
            FolderUploader.text f = Resolved txt) →
      match JSON_parse txt with
      | Resolved _ => UploadPage.sessionTiming wp' = Some txt
      | Rejected _ => UploadPage.sessionTiming wp' = UploadPage.sessionTiming wp
      end) ∧
  UploadPage.scheduled wp'
  = match FolderUploader.status (UploadPage.uploadState wp') with
    | FolderUploader.success => (UploadPage.scheduled wp ++ [("/player", 800)])%list
    | _ => UploadPage.scheduled wp
    end.
Proof.
  intros wp'. destruct (processFiles_session files wp) as [Hnone Hsome].
  fold wp' in Hnone, Hsome. split; [done|]. split.
  { intros txt Hex Hall. rewrite (Hsome txt Hex Hall). by destruct (JSON_parse txt). }
  subst wp'. unfold UploadPage.processFiles.
  set (w1 := UploadPage.loadTiming JSON_parse (UploadPage.naturalSort localeCompare files) wp).
  set (wp0 := UploadPage.set_uploadState _ w1).
  set (fs := List.filter _ _).
  assert (UploadPage.scheduled w1 = UploadPage.scheduled wp) as Hsch.
  { subst w1. unfold UploadPage.loadTiming.
    destruct (find _ _) as [tf|]; [|done].
    destruct (FolderUploader.text tf) as [txt|]; [|done].
    by destruct (JSON_parse txt). }
  pose (wc0 := {| FolderUploader.timing := []; FolderUploader.uploadState :=
                    UploadPage.uploadState wp0; FolderUploader.frameCount := 0;
                  FolderUploader.idb := UploadPage.idb wp0 |}).
  destruct (storeAll_same fs wc0 wp0 eq_refl) as (_ & _ & _ & H3).
  destruct (UploadPage.storeAll rq fs wp0) as [wp1 rp]. cbn in H3.
  destruct rp as [[]|msg]; cbn.
  - destruct H3 as (_ & Hs & _ & Hsc). rewrite Hs, Hsc. by rewrite <- Hsch.
  - destruct H3 as (_ & _ & Hsc). by rewrite Hsc, <- Hsch.
Qed.

End UploadPageFacts.

Lemma page_and_component_store_alike_witness :
  let files := [Sample.file "1" [Byte.x01]; Sample.unreadable "2";
                Sample.file "0" [Byte.x00]] in
  let wc' := FolderUploader.handleFolderSelect Sample.codeUnitCompare
               Sample.parseEmptyArray PduStore.no_faults files
               (Sample.mounted [] {[ 9 := [] ]}) in
  let wp' := UploadPage.handleFolderSelect Sample.codeUnitCompare
               Sample.parseEmptyArray PduStore.no_faults files
               {| UploadPage.uploadState :=
                    {| FolderUploader.status := FolderUploader.idle;
                       FolderUploader.message := "";
                       FolderUploader.progress := 0; FolderUploader.total := 0 |};
                  UploadPage.frameCount := 0;
                  UploadPage.sessionTiming := None;
                  UploadPage.idb :=
                    {| PduStore.dbInstance := false; PduStore.frames := {[ 9 := [] ]} |};
                  UploadPage.scheduled := [] |} in
  FolderUploader.idb wc' = UploadPage.idb wp' ∧
  (FolderUploader.status (FolderUploader.uploadState wc') = FolderUploader.success →
   FolderUploader.status (UploadPage.uploadState wp') = FolderUploader.success) ∧
  (FolderUploader.status (UploadPage.uploadState wp') = FolderUploader.success →
   FolderUploader.frameCount wc' = UploadPage.frameCount wp').
Proof.
  intros files.
  apply (page_and_component_store_alike Sample.codeUnitCompare Sample.parseEmptyArray
           PduStore.no_faults files).
  - done.
  - reflexivity.
Defined.

(** ** The player: effects of the loop and of the controls *)

Section PlayerMoreFacts.
Import PduStore Player PlayerMore.
Variable E : Wasm.Engine.
Implicit Types (s : State E) (r : Wasm.Replay E) (run : Run E).

Lemma extends_refl s : extends_locally s s.
Proof. exists []. by rewrite app_nil_r. Qed.

Lemma extends_trans s1 s2 s3 :
  extends_locally s1 s2 → extends_locally s2 s3 → extends_locally s1 s3.
Proof.
  intros (es1 & H1 & F1) (es2 & H2 & F2). exists (es1 ++ es2)%list.
  split; [by rewrite H2, H1, app_assoc|]. by apply Forall_app.
Qed.

Lemma extends_effects s s' : effects s' = effects s → extends_locally s s'.
Proof. intros H. exists []. by rewrite app_nil_r. Qed.

Lemma extends_emit e s : isLocal e = true → extends_locally s (emit e s).
Proof. intros H. exists [e]. split; [done|]. by constructor. Qed.

(** Update handling and rendering change the canvas, the cursor and the
    flags of the handle, and nothing else. *)
Lemma handleUpdates_frame host s :
  extends_locally s (handleUpdates host s) ∧
  currentTimeMs (handleUpdates host s) = currentTimeMs s ∧
  isInitialized (handleUpdates host s) = isInitialized s ∧
  ReplayClass (handleUpdates host s) = ReplayClass s ∧
  showControls (handleUpdates host s) = showControls s.
Proof.
  unfold handleUpdates, updateCursorCanvas.
  destruct (replay s) as [r|] eqn:Hr; [|by split; [apply extends_refl|]].
  destruct (Wasm.resolutionChanged E r); destruct host; cbn; rewrite ?Hr.
  all: repeat case_match; cbn; (split; [|done]).
  all: try apply extends_refl.
  all: try (apply extends_effects; reflexivity).
  all: eexists [_]; split; [reflexivity|by repeat constructor].
Qed.

Lemma renderFrame_frame s :
  extends_locally s (renderFrame s) ∧
  currentTimeMs (renderFrame s) = currentTimeMs s ∧
  isInitialized (renderFrame s) = isInitialized s ∧
  ReplayClass (renderFrame s) = ReplayClass s ∧
  showControls (renderFrame s) = showControls s.
Proof.
  unfold renderFrame, renderCursor.
  destruct (replay s) as [r|] eqn:Hr; [|by split; [apply extends_refl|]].
  destruct (ctx s) eqn:Hc; [|by split; [apply extends_refl|]].
  cbn. rewrite Hr, Hc. destruct (cursorCanvas s); cbn; (split; [|done]).
  - eexists. split; [symmetry; apply app_assoc|by repeat constructor].
  - eexists [_]. split; [done|by repeat constructor].
Qed.

Lemma rendered_frame host s r' :
  extends_locally s (rendered host s r') ∧
  currentTimeMs (rendered host s r') = currentTimeMs s ∧
  is_Some (replay (rendered host s r')).
Proof.
  unfold rendered.
  set (s1 := set_currentFrame _ _).
  destruct (handleUpdates_frame host s1) as (H1 & H2 & _).
  destruct (renderFrame_frame (handleUpdates host s1)) as (G1 & G2 & _).
  split; [|split].
  - apply (extends_trans _ s1); [by apply extends_effects|].
    by apply (extends_trans _ (handleUpdates host s1)).
  - by rewrite G2, H2.
  - destruct (renderFrame_same E (handleUpdates host s1)) as [_ ->].
    apply handleUpdates_replay. by eexists.
Qed.

(** One resumption of the loop body, summed up. *)
Lemma afterStep_summary host s last :
  let run := afterStep host s last in
  timing (st run) = timing s ∧
  extends_locally s (st run) ∧
  (currentTimeMs (st run) = currentTimeMs s ∨
   ∃ t, t ∈ timing s ∧ currentTimeMs (st run) = timeOffset t) ∧
  ∃ ds, timeouts (st run) = (timeouts s ++ ds)%list ∧
        Forall (fun d => 0 < d) ds ∧
        lastTimeOffset run - last ≤ foldr Z.add 0 ds.
Proof.
  cbv zeta. unfold afterStep.
  destruct (replay s) as [r|] eqn:Hr.
  2:{ destruct host; cbn; (split; [done|]); (split; [by apply extends_effects|]);
        (split; [by left|]); exists []; rewrite app_nil_r; repeat split; try done;
        cbn; lia. }
  destruct (Wasm.step E r) as [[r' hasMore]|msg].
  2:{ destruct host; cbn; (split; [done|]); (split; [by apply extends_effects|]);
        (split; [by left|]); exists []; rewrite app_nil_r; repeat split; try done;
        cbn; lia. }
  fold (rendered host s r').
  destruct (rendered_same E host s r') as (Hp & Ht & Hc & Hto).
  destruct (rendered_frame host s r') as (Hext & Hms & _).
  set (s1 := rendered host s r') in *.
  destruct hasMore; cbn [negb].
  - rewrite Ht. destruct (timing s !! currentFrame s1) as [t|] eqn:Hl.
    + assert (t ∈ timing s) as Hin by by eapply list_elem_of_lookup_2.
      destruct (Z.ltb_spec 0 (timeOffset t - last)) as [Hpos|Hle].
      * cbn [st lastTimeOffset]. split; [done|]. split.
        { apply (extends_trans _ s1); [done|].
          apply (extends_trans _ (set_currentTimeMs (timeOffset t) s1));
            [by apply extends_effects|by apply extends_emit]. }
        split; [right; by exists t|].
        exists [timeOffset t - last]. rewrite timeouts_emit.
        split; [by rewrite <- Hto|]. split; [by repeat constructor|]. cbn. lia.
      * unfold loopHead. cbn [isPlaying set_currentTimeMs].
        destruct (isPlaying s1); cbn [st lastTimeOffset].
        all: split; [done|]; split;
          [apply (extends_trans _ s1); [done|by apply extends_effects]|].
        all: split; [right; by exists t|].
        all: exists []; rewrite app_nil_r; split; [by rewrite <- Hto|];
          split; [done|]; cbn; lia.
    + cbn [st lastTimeOffset]. split; [done|]. split.
      { apply (extends_trans _ s1); [done|]. by apply extends_emit. }
      split; [by left|].
      exists [16]. rewrite timeouts_emit. split; [by rewrite Hto|].
      split; [by repeat constructor|]. cbn. lia.
  - destruct host; cbn [onComponent onPage st lastTimeOffset].
    all: split; [done|]; split;
      [apply (extends_trans _ s1); [done|by apply extends_effects]|].
    all: split; [by left|].
    all: exists []; rewrite app_nil_r; split; [by rewrite <- Hto|];
      split; [done|]; cbn; lia.
Qed.

Lemma resume_summary host run :
  timing (st (resume host run)) = timing (st run) ∧
  extends_locally (st run) (st (resume host run)) ∧
  (currentTimeMs (st (resume host run)) = currentTimeMs (st run) ∨
   ∃ t, t ∈ timing (st run) ∧ currentTimeMs (st (resume host run)) = timeOffset t) ∧
  ∃ ds, timeouts (st (resume host run)) = (timeouts (st run) ++ ds)%list ∧
        Forall (fun d => 0 < d) ds ∧
        lastTimeOffset (resume host run) - lastTimeOffset run ≤ foldr Z.add 0 ds.
Proof.
  unfold resume. destruct (pc run).
  - apply afterStep_summary.
  - unfold loopHead. destruct (isPlaying (st run)); cbn.
    all: split; [done|]; split; [apply extends_refl|]; split; [by left|].
    all: exists []; rewrite app_nil_r; repeat split; try done; cbn; lia.
  - split; [done|]. split; [apply extends_refl|]. split; [by left|].
    exists []. rewrite app_nil_r. repeat split; try done. cbn. lia.
Qed.

Lemma foldr_add_app (l1 l2 : list Z) :
  foldr Z.add 0 (l1 ++ l2) = foldr Z.add 0 l1 + foldr Z.add 0 l2.
Proof. induction l1 as [|x l1 IH]; cbn; [done|]. rewrite IH. lia. Qed.

(** X17. Every timer the loop sets is positive: a run that starts with
    positive timers behind it has positive timers only, however long it
    runs and whatever the engine reports. *)
Theorem loop_timers_positive host (n : nat) run :
  Forall (fun d => 0 < d) (timeouts (st run)) →
  Forall (fun d => 0 < d) (timeouts (st (runLoop host n run))).
Proof.
  revert run. induction n as [|n IH]; intros run H; cbn [runLoop]; [done|].
  destruct (pc run) eqn:Hpc; [| |done].
  all: apply IH.
  all: destruct (resume_summary host run) as (_ & _ & _ & ds & -> & Hds & _).
  all: by apply Forall_app.
Qed.

(** X18. Playback is never faster than the recording: over any stretch
    of a run, the time the loop has asked its timers to wait is at least
    the advance of [lastTimeOffset] on the recorded timeline. *)
Theorem loop_waits_at_least_recorded_time host (n : nat) run :
  lastTimeOffset (runLoop host n run) - lastTimeOffset run
  ≤ waited (st (runLoop host n run)) - waited (st run).
Proof.
  revert run. induction n as [|n IH]; intros run; cbn [runLoop]; [lia|].
  destruct (pc run) eqn:Hpc; [| |lia].
  all: specialize (IH (resume host run)).
  all: destruct (resume_summary host run) as (_ & _ & _ & ds & Hto & _ & Hle).
  all: unfold waited in *; rewrite Hto, foldr_add_app in IH; lia.
Qed.


(** *** Single steps *)

Lemma handleUpdates_currentTimeMs host v s :
  handleUpdates host (set_currentTimeMs v s) = set_currentTimeMs v (handleUpdates host s).
Proof.
  unfold handleUpdates, updateCursorCanvas. cbn.
  destruct (replay s) as [r|] eqn:Hr; [|done].
  destruct (Wasm.resolutionChanged E r); destruct host; cbn; rewrite ?Hr.
  all: by repeat case_match.
Qed.

Lemma renderFrame_currentTimeMs v s :
  renderFrame (set_currentTimeMs v s) = set_currentTimeMs v (renderFrame s).
Proof.
  unfold renderFrame, renderCursor. cbn.
  destruct (replay s) as [r|] eqn:Hr; [|done].
  destruct (ctx s) eqn:Hc; [|done]. cbn.
  by destruct (cursorCanvas s).
Qed.

Lemma stepFrame_resolved host s r r' hasMore :
  replay s = Some r → Wasm.step E r = Resolved (r', hasMore) →
  ∃ s1,
    (s1 = rendered host s r' ∨
     ∃ t, t ∈ timing s ∧ s1 = set_currentTimeMs (timeOffset t) (rendered host s r')) ∧
    (stepFrame host s = s1 ∨ ∃ msg, stepFrame host s = set_status msg s1).
Proof.
  intros Hr Hstep. unfold stepFrame. rewrite Hr, Hstep.
  cbn [currentFrame set_currentFrame timing set_replay].
  destruct (timing s !! Wasm.currentFrame E r') as [t|] eqn:Hl.
  - rewrite handleUpdates_currentTimeMs, renderFrame_currentTimeMs.
    fold (rendered host s r').
    exists (set_currentTimeMs (timeOffset t) (rendered host s r')). split.
    + right. exists t. split; [by eapply list_elem_of_lookup_2|done].
    + destruct host; [right|by left]. destruct hasMore; by eexists.
  - fold (rendered host s r'). exists (rendered host s r'). split; [by left|].
    destruct host; [right|by left]. destruct hasMore; by eexists.
Qed.

(** X19. A single step treats the frame as the loop does and sets no
    timer: it leaves the handle, the frame index, the cursor and the
    canvas effects that an iteration of the loop leaves after rendering,
    and the playing flag as it was; when the engine rejects the step only
    the error changes, and without a handle nothing is drawn. *)
Theorem stepFrame_like_loop_body host s :
  timeouts (stepFrame host s) = timeouts s ∧
  isPlaying (stepFrame host s) = isPlaying s ∧
  match replay s with
  | None => effects (stepFrame host s) = effects s ∧ replay (stepFrame host s) = None
  | Some r =>
      match Wasm.step E r with
      | Resolved (r', _) =>
          effects (stepFrame host s) = effects (rendered host s r') ∧
          replay (stepFrame host s) = replay (rendered host s r') ∧
          currentFrame (stepFrame host s) = Wasm.currentFrame E r' ∧
          cursorCanvas (stepFrame host s) = cursorCanvas (rendered host s r')
      | Rejected msg =>
          stepFrame host s = set_error (Some ("Step error: " ++ msg)) s
      end
  end.
Proof.
  destruct (replay s) as [r|] eqn:Hr.
  2:{ unfold stepFrame. rewrite Hr. by destruct host. }
  destruct (Wasm.step E r) as [[r' hasMore]|msg] eqn:Hstep.
  2:{ unfold stepFrame. by rewrite Hr, Hstep. }
  destruct (rendered_same E host s r') as (Hp & Ht & Hc & Hto).
  destruct (stepFrame_resolved host s r r' hasMore Hr Hstep)
    as (s1 & [->|(t & _ & ->)] & [->|[msg ->]]); cbn; by rewrite ?Hto, ?Hp, ?Hc.
Qed.

(** X20. The loop ends with the last frame and with a failure of the
    engine, here an engine whose buffers have the sizes it reports (so
    that rendering does not throw).  When the step resolves with no more frames the frame is
    drawn, no timer is set, the loop returns and playing is off, with no
    error; when the step is rejected the loop returns, playing is off,
    the error carries the message, and the handle, the frame index and
    what is on the canvas stay as they were. *)
Theorem loop_ends_on_last_frame_or_failure host s (last : Z) r :
  WellSized E →
  replay s = Some r →
  let run := resume host {| st := s; pc := AwaitStep; lastTimeOffset := last |} in
  match Wasm.step E r with
  | Resolved (r', false) =>
      pc run = Returned ∧ isPlaying (st run) = false ∧ error (st run) = error s ∧
      timeouts (st run) = timeouts s ∧
      effects (st run) = effects (rendered host s r') ∧
      currentFrame (st run) = Wasm.currentFrame E r'
  | Resolved (_, true) => isPlaying (st run) = isPlaying s ∧ error (st run) = error s
  | Rejected msg =>
      pc run = Returned ∧ isPlaying (st run) = false ∧
      error (st run) = Some ("Playback error: " ++ msg) ∧
      effects (st run) = effects s ∧ replay (st run) = replay s ∧
      currentFrame (st run) = currentFrame s
  end.
Proof.
  intros _ Hr run. subst run. unfold resume. cbn [pc st lastTimeOffset].
  unfold afterStep. rewrite Hr.
  destruct (Wasm.step E r) as [[r' hasMore]|msg]; [|by destruct host].
  fold (rendered host s r').
  destruct (rendered_same E host s r') as (Hp & Ht & Hc & Hto).
  destruct (handleUpdates_same E host
              (set_currentFrame (Wasm.currentFrame E r') (set_replay (Some r') s)))
    as (_ & _ & _ & _ & He & _).
  destruct (renderFrame_same E
              (handleUpdates host
                 (set_currentFrame (Wasm.currentFrame E r') (set_replay (Some r') s))))
    as [(_ & _ & _ & _ & He' & _) _].
  assert (error (rendered host s r') = error s) as Herr.
  { unfold rendered. by rewrite He', He. }
  destruct hasMore; cbn [negb].
  - destruct (timing _ !! _) as [t|]; [|by cbn].
    cbv zeta. destruct (0 <? timeOffset t - last); [by cbn|]. unfold loopHead.
    destruct (isPlaying (set_currentTimeMs _ _)); cbn; by rewrite Hp, Herr.
  - destruct host; cbn; by rewrite ?Hto, ?Hc, ?Herr.
Qed.

(** *** One-shot flags *)

(** X21. With an engine whose clear calls clear and whose buffers
    have the sizes it reports (so that the cursor is rebuilt without an
    exception), [handleUpdates] consumes both flags: the
    handle it leaves has neither flag up, and handling the updates
    again changes nothing: no second resize, no second rebuild of the
    cursor. *)
Theorem handleUpdates_consumes_flags host s :
  OneShot E → WellSized E →
  (∀ r, replay (handleUpdates host s) = Some r →
        Wasm.resolutionChanged E r = false ∧ Wasm.pointerBitmapChanged E r = false) ∧
  handleUpdates host (handleUpdates host s) = handleUpdates host s.
Proof.
  intros [Hrc Hpc Hrk Hpk] _.
  assert (∀ r, replay (handleUpdates host s) = Some r →
            Wasm.resolutionChanged E r = false ∧ Wasm.pointerBitmapChanged E r = false)
    as Hflags.
  { unfold handleUpdates, updateCursorCanvas.
    destruct (replay s) as [r0|] eqn:Hr; [|by rewrite Hr].
    destruct (Wasm.resolutionChanged E r0) eqn:Hres; destruct host; cbn; rewrite ?Hr.
    all: try rewrite !Hpk.
    all: destruct (Wasm.pointerBitmapChanged E r0) eqn:Hptr; cbn.
    all: repeat case_match; cbn; intros r ?; simplify_eq.
    all: rewrite ?Hrk, ?Hpc, ?Hrc, ?Hpk; by rewrite ?Hres, ?Hptr. }
  split; [done|].
  destruct (replay (handleUpdates host s)) as [r|] eqn:Hr.
  - destruct (Hflags r eq_refl) as [H1 H2].
    unfold handleUpdates at 1. rewrite Hr, H1, Hr, H2. done.
  - unfold handleUpdates at 1. by rewrite Hr.
Qed.

(** *** The cursor *)

(** X22. With an engine whose buffers have the sizes it reports:
    after a pointer update the frame is drawn first and the cursor on
    top of it, at the mouse position moved back by the hotspot; with an
    empty bitmap or a zero size no cursor is drawn at all. *)
Theorem cursor_drawn_over_frame s r :
  WellSized E →
  replay s = Some r → ctx s = true →
  let frame := PutImageData (Wasm.getFrameBuffer E r) (Wasm.width E r) (Wasm.height E r) in
  effects (renderFrame (updateCursorCanvas s))
  = (effects s ++
     match Wasm.getPointerBitmap E r with
     | [] => [frame]
     | bitmap =>
         if (Wasm.pointerWidth E r =? 0) || (Wasm.pointerHeight E r =? 0)
         then [frame]
         else [frame;
               DrawImage bitmap (Wasm.mouseX E r - Wasm.pointerHotspotX E r)
                                (Wasm.mouseY E r - Wasm.pointerHotspotY E r)]
     end)%list.
Proof.
  intros _ Hr Hc frame. unfold updateCursorCanvas. rewrite Hr.
  destruct (Wasm.getPointerBitmap E r) as [|b0 bs] eqn:Hb.
  - unfold renderFrame, renderCursor. cbn. by rewrite Hr, Hc.
  - destruct ((Wasm.pointerWidth E r =? 0) || (Wasm.pointerHeight E r =? 0)).
    + unfold renderFrame, renderCursor. cbn. by rewrite Hr, Hc.
    + unfold renderFrame, renderCursor. cbn. rewrite Hr, Hc. cbn.
      by rewrite <- app_assoc.
Qed.

(** *** The page: keys and playback *)

Lemma follows_refl s : follows s s.
Proof. split; [done|]. split; [apply extends_refl|by left]. Qed.

Lemma follows_trans s1 s2 s3 : follows s1 s2 → follows s2 s3 → follows s1 s3.
Proof.
  intros (Ht1 & He1 & Hc1) (Ht2 & He2 & Hc2). split; [by rewrite Ht2|].
  split; [by eapply extends_trans|].
  destruct Hc2 as [->|[->|(t & Hin & ->)]]; [done|by right; left|].
  right; right. exists t. by rewrite <- Ht1.
Qed.

Lemma follows_fields s s' :
  timing s' = timing s → effects s' = effects s → currentTimeMs s' = currentTimeMs s →
  follows s s'.
Proof. intros Ht He Hc. split; [done|]. split; [by apply extends_effects|by left]. Qed.

Lemma resume_follows host run : follows (st run) (st (resume host run)).
Proof.
  destruct (resume_summary host run) as (Ht & He & Hc & _).
  split; [done|]. split; [done|]. destruct Hc as [Hc|Hc]; [by left|by right; right].
Qed.

Lemma runLoop_follows host (n : nat) : ∀ run, follows (st run) (st (runLoop host n run)).
Proof.
  induction n as [|n IH]; intros run; cbn [runLoop]; [apply follows_refl|].
  destruct (pc run); [| |apply follows_refl].
  all: eapply follows_trans; [apply resume_follows|apply IH].
Qed.

Lemma rendered_follows host s r' : follows s (rendered host s r').
Proof.
  destruct (rendered_same E host s r') as (_ & Ht & _).
  destruct (rendered_frame host s r') as (He & Hc & _).
  split; [done|]. split; [done|by left].
Qed.

Lemma stepFrame_follows s : follows s (stepFrame Page s).
Proof.
  destruct (replay s) as [r|] eqn:Hr.
  2:{ unfold stepFrame. rewrite Hr. apply follows_refl. }
  destruct (Wasm.step E r) as [[r' hasMore]|msg] eqn:Hstep.
  2:{ unfold stepFrame. rewrite Hr, Hstep. by apply follows_fields. }
  destruct (rendered_follows Page s r') as (Ht & He & _).
  destruct (stepFrame_resolved Page s r r' hasMore Hr Hstep)
    as (s1 & [->|(t & Hin & ->)] & [->|[msg ->]]).
  - apply rendered_follows.
  - eapply follows_trans; [apply rendered_follows|by apply follows_fields].
  - split; [done|]. split; [done|]. right; right. by exists t.
  - split; [done|]. split; [done|]. right; right. by exists t.
Qed.

Lemma resetReplay_follows s : follows s (resetReplay Page s).
Proof.
  unfold resetReplay. destruct (replay s) as [r|]; [|apply follows_refl].
  cbn [ctx set_currentTimeMs set_currentFrame set_replay].
  destruct (ctx s); (split; [done|]); (split; [|by right; left]).
  - eexists [_]. split; [reflexivity|by repeat constructor].
  - by apply extends_effects.
Qed.

Lemma playFrames_follows s : follows s (st (playFrames s)).
Proof.
  unfold playFrames. destruct (replay s); [|apply follows_refl].
  unfold loopHead. cbn [isPlaying set_currentTimeMs].
  destruct (timing s !! 0%nat) as [t|] eqn:Hl.
  all: destruct (isPlaying s); cbn [st]; (split; [done|]);
    (split; [by apply extends_effects|]).
  1,2: right; right; exists t; split; [by eapply list_elem_of_lookup_2|done].
  all: by right; left.
Qed.

Lemma startReplay_follows db s : follows s (st (startReplay Page db s)).
Proof.
  unfold startReplay.
  destruct (negb (isInitialized s) || negb (ReplayClass s)
            || negb (bool_decide (is_Some (replay s)))).
  - by apply follows_fields.
  - eapply follows_trans; [|apply playFrames_follows]. by apply follows_fields.
Qed.

Lemma handleKeyDown_follows code db s : follows s (st (handleKeyDown code db s)).
Proof.
  unfold handleKeyDown, togglePlayPause.
  destruct (String.eqb code "Space").
  { destruct (isPlaying s); [by apply follows_fields|apply startReplay_follows]. }
  destruct (String.eqb code "ArrowRight").
  { cbn [st]. destruct (isPlaying s); [apply follows_refl|apply stepFrame_follows]. }
  destruct (String.eqb code "ArrowLeft"); [apply resetReplay_follows|].
  destruct (String.eqb code "KeyR"); [apply resetReplay_follows|].
  apply follows_refl.
Qed.

Lemma monotone_bounds (t : list TimingEntry) e :
  monotone t → e ∈ t →
  0 ≤ timeOffset e ≤ match last t with Some l => timeOffset l | None => 0 end.
Proof.
  intros [Hs Hpos] Hin. split.
  { by apply (proj1 (Forall_forall _ _) Hpos). }
  clear Hpos. revert e Hin.
  induction t as [|a t IH]; intros e Hin; [by apply elem_of_nil in Hin|].
  rewrite fmap_cons in Hs. apply StronglySorted_inv in Hs as [Hs Ha].
  destruct t as [|b t].
  - apply list_elem_of_singleton in Hin as ->. cbn. lia.
  - rewrite last_cons_cons. apply elem_of_cons in Hin as [->|Hin]; [|by apply IH].
    etrans; [|apply (IH Hs b); left].
    apply (proj1 (Forall_forall _ _) Ha). rewrite fmap_cons. left.
Qed.

Lemma follows_inRange s s' : monotone (timing s) → inRange s → follows s s' → inRange s'.
Proof.
  intros Hm Hin (Ht & _ & Hc). unfold inRange, totalDurationMs in *. rewrite Ht.
  destruct Hc as [->|[->|(t & Hel & ->)]]; [done| |by apply monotone_bounds].
  split; [done|]. lia.
Qed.

(** X23. On the player page the session handle of the mount is the only
    one: whatever key is pressed and however long the loop it starts
    runs, no handle is constructed and the page is not left; all that is
    added to the effects are drawings, resizes and timers, and the
    timing stays as it was. *)
Theorem page_keys_construct_no_handle code db s (n : nat) :
  let s' := st (runLoop Page n (handleKeyDown code db s)) in
  extends_locally s s' ∧ timing s' = timing s.
Proof.
  intros s'.
  destruct (follows_trans _ _ _ (handleKeyDown_follows code db s)
              (runLoop_follows Page n (handleKeyDown code db s))) as (Ht & He & _).
  done.
Qed.

(** X24. With a timing whose offsets start at 0 or later and do not
    decrease, the time shown stays between 0 and the total duration,
    whatever key is pressed and however long the loop runs. *)
Theorem time_shown_within_duration code db s (n : nat) :
  monotone (timing s) → inRange s →
  inRange (st (runLoop Page n (handleKeyDown code db s))).
Proof.
  intros Hm Hin. apply (follows_inRange s); [done..|].
  eapply follows_trans; [apply handleKeyDown_follows|apply runLoop_follows].
Qed.

End PlayerMoreFacts.

Lemma loop_timers_positive_witness :
  Forall (fun d => 0 < d)
    (Player.timeouts
       (Player.st
          (Player.runLoop Player.Component 6
             (FlagEngine.started 3 FlagEngine.whitePixel
                [Sample.entry 0 0; Sample.entry 1 100; Sample.entry 2 100])))).
Proof.
  apply loop_timers_positive. vm_compute. constructor.
Defined.

Lemma loop_ends_on_last_frame_or_failure_witness :
  let s := Player.st (FlagEngine.started 1 FlagEngine.whitePixel []) in
  let run := Player.resume Player.Component
               {| Player.st := s; Player.pc := Player.AwaitStep;
                  Player.lastTimeOffset := 0 |} in
  Player.pc run = Player.Returned ∧ Player.isPlaying (Player.st run) = false ∧
  Player.error (Player.st run) = Player.error s ∧
  Player.timeouts (Player.st run) = Player.timeouts s ∧
  Player.effects (Player.st run)
  = Player.effects
      (Player.rendered Player.Component s
         {| FlagEngine.frame := 1; FlagEngine.resFlag := true;
            FlagEngine.ptrFlag := true |}) ∧
  Player.currentFrame (Player.st run) = 1%nat.
Proof.
  intros s.
  refine (loop_ends_on_last_frame_or_failure
            (FlagEngine.flagging 1 FlagEngine.whitePixel)
            Player.Component s 0
            {| FlagEngine.frame := 0; FlagEngine.resFlag := false;
               FlagEngine.ptrFlag := false |} _ eq_refl).
  constructor; [intros r; by vm_compute|intros r _ _ _; by vm_compute].
Defined.

Lemma handleUpdates_consumes_flags_witness :
  let s := Player.st
             (Player.resume Player.Component
                (FlagEngine.started 3 FlagEngine.whitePixel [])) in
  Player.handleUpdates Player.Component (Player.handleUpdates Player.Component s)
  = Player.handleUpdates Player.Component s.
Proof.
  intros s.
  apply (handleUpdates_consumes_flags (FlagEngine.flagging 3 FlagEngine.whitePixel)
           Player.Component s).
  - by constructor.
  - constructor; [intros r; by vm_compute|intros r _ _ _; by vm_compute].
Defined.

Lemma cursor_drawn_over_frame_witness :
  let s := Player.st (FlagEngine.started 3 FlagEngine.whitePixel []) in
  Player.effects (Player.renderFrame (Player.updateCursorCanvas s))
  = (Player.effects s ++
     [Player.PutImageData [Byte.x00; Byte.x00; Byte.x00; Byte.xff] 1 1;
      Player.DrawImage FlagEngine.whitePixel (-3) 16])%list.
Proof.
  intros s.
  refine (cursor_drawn_over_frame (FlagEngine.flagging 3 FlagEngine.whitePixel) s
            {| FlagEngine.frame := 0; FlagEngine.resFlag := false;
               FlagEngine.ptrFlag := false |} _ eq_refl eq_refl).
  constructor; [intros r; by vm_compute|intros r _ _ _; by vm_compute].
Defined.

Lemma time_shown_within_duration_witness :
  PlayerMore.inRange
    (Player.st
       (Player.runLoop Player.Page 5
          (Player.handleKeyDown "Space" SampleEngine.threeFrames
             (SampleEngine.mounted [(1, true); (2, true); (3, false)]%nat Player.Page
                [Sample.entry 0 0; Sample.entry 1 100; Sample.entry 2 250]
                SampleEngine.threeFrames)))).
Proof.
  apply time_shown_within_duration.
  - split; vm_compute; repeat first [done | constructor].
  - split; by vm_compute.
Defined.

(** ** From the upload page to the player *)

Section UploadToPlayer.
Import PduStore Player.
Variable localeCompare : string → string → Z.
Variable JSON_parse : string → Result (list TimingEntry).
Variable rq : Requests.
Variable E : Wasm.Engine.

Lemma onMountPage_timing ld timingData (s : State E) db :
  timing (onMountPage ld JSON_parse rq timingData s db).1
  = match timingData with
    | Some txt =>
        match JSON_parse txt with
        | Resolved t => t
        | Rejected _ => timing s
        end
    | None => timing s
    end.
Proof.
  unfold onMountPage.
  set (s0 := match timingData with Some _ => _ | None => _ end).
  assert (timing s0 = match timingData with
                      | Some txt =>
                          match JSON_parse txt with
                          | Resolved t => t
                          | Rejected _ => timing s
                          end
                      | None => timing s
                      end) as <-.
  { subst s0. destruct timingData as [txt|]; [|done]. by destruct (JSON_parse txt). }
  destruct (getFrameCount rq db) as [db' [n|msg]]; [|done].
  destruct (n =? 0); [done|].
  unfold loadWasm. cbn.
  destruct (hasContext ld); [|done]. cbn.
  destruct (importModule ld); [|done].
  destruct (initWasm ld); [|done]. cbn.
  by destruct (Wasm.create E _ _ _ _).
Qed.

Lemma putAll_snoc m kvs kv :
  Ingest.putAll m (kvs ++ [kv]) = <[kv.1 := kv.2]> (Ingest.putAll m kvs).
Proof. unfold Ingest.putAll. by rewrite foldl_app. Qed.

Lemma putAll_nonempty m kvs : kvs ≠ [] → Ingest.putAll m kvs ≠ ∅.
Proof.
  destruct kvs as [|kv kvs _] using rev_ind; [done|]. intros _.
  rewrite putAll_snoc. apply insert_non_empty.
Qed.

(** X25. The player plays by the text the upload page left in session
    storage: the parsed descriptor of this upload when it parsed; the
    timing it had (none, on a fresh page) without a descriptor; and with
    a descriptor that does not parse the mount goes as if this upload
    had left session storage alone: it reads the item that was there
    before. *)
Theorem player_timing_from_upload (files : list FolderUploader.File)
    (wp : UploadPage.World) ld (s : State E) db :
  let wp' := UploadPage.processFiles localeCompare JSON_parse rq files wp in
  let s' := (onMountPage ld JSON_parse rq (UploadPage.sessionTiming wp') s db).1 in
  ((∀ f, f ∈ files → FolderUploader.name f ≠ "timing.json") →
   timing s' = timing s) ∧
  (∀ txt,
      (∃ f, f ∈ files ∧ FolderUploader.name f = "timing.json") →
      (∀ f, f ∈ files → FolderUploader.name f = "timing.json" →
            FolderUploader.text f = Resolved txt) →
      match JSON_parse txt with
      | Resolved t => timing s' = t
      | Rejected _ =>
          timing s'
          = timing (onMountPage ld JSON_parse rq (UploadPage.sessionTiming wp) s db).1
      end).
Proof.
  intros wp' s'. subst s'. rewrite !onMountPage_timing.
  destruct (processFiles_session localeCompare JSON_parse rq files wp)
    as (Hnone & Hsome).
  fold wp' in Hnone, Hsome. split.
  - intros Hno. by rewrite (Hnone Hno).
  - intros txt Hex Hall. specialize (Hsome txt Hex Hall).
    destruct (JSON_parse txt) as [t|msg] eqn:Hp.
    + by rewrite Hsome, Hp.
    + by rewrite Hsome.
Qed.

(** X26. From the selection to the engine, with names whose leading
    digits denote numbers that JavaScript holds exactly and a
    comparator that is consistent on the selection.  After an ingestion
    on the upload page in which every candidate is read and stored, the
    navigation to the player is scheduled; the mount of the player then
    goes back to the start page when the selection had no candidate,
    and otherwise counts the stored frames and constructs the session
    handle over exactly the store that the candidates' names and bytes
    determine. *)
Theorem upload_then_player_mount (files : list FolderUploader.File)
    (wp : UploadPage.World) ld :
  files ≠ [] → Ingest.clears rq (UploadPage.idb wp) → Ingest.reliable rq →
  Forall Ingest.readable (IngestMore.candidates files) →
  Forall Ingest.safeName files →
  IngestMore.consistent (FolderUploader.naturalCompare localeCompare) files →
  hasContext ld = true → importModule ld = Resolved tt → initWasm ld = Resolved tt →
  let wp' := UploadPage.handleFolderSelect localeCompare JSON_parse rq files wp in
  let m := Ingest.putAll ∅ (omap Ingest.keyed (IngestMore.candidates files)) in
  let s' := (onMountPage ld JSON_parse rq (UploadPage.sessionTiming wp') (initial E [])
               (UploadPage.idb wp')).1 in
  UploadPage.scheduled wp' = (UploadPage.scheduled wp ++ [("/player", 800)])%list ∧
  frames (UploadPage.idb wp') = m ∧
  match IngestMore.candidates files with
  | [] => effects s' = [Goto "/"] ∧ replay s' = None ∧ error s' = None
  | _ =>
      totalFrames s' = Z.of_nat (size m) ∧
      effects s' = [EngineCreate DB_NAME DEFAULT_WIDTH DEFAULT_HEIGHT] ∧
      match Wasm.create E DB_NAME m DEFAULT_WIDTH DEFAULT_HEIGHT with
      | Resolved r => replay s' = Some r ∧ error s' = None
      | Rejected msg =>
          replay s' = None ∧ error s' = Some ("Failed to initialize: " ++ msg)
      end
  end.
Proof.
  intros Hne Hcl [Hput Hcount] Hr _ _ Hctx Himp Hinit wp' m s'.
  pose (wc := {| FolderUploader.timing := []; 
                 FolderUploader.uploadState := UploadPage.uploadState wp;
                 FolderUploader.frameCount := 0;
                 FolderUploader.idb := UploadPage.idb wp |}).
  assert (Forall Ingest.readable (FolderUploader.pduFiles_of localeCompare files)) as Hr'.
  { by rewrite pduFiles_of_candidates. }
  pose proof (commits_reliable rq _ ∅ Hput Hr'
                (pduFiles_of_digits localeCompare files)) as Hc.
  destruct (handleFolderSelect_commits localeCompare JSON_parse rq files wc _
              Hne Hcl Hc (Hcount _)) as (Hs & _ & _ & Hdb).
  destruct (page_ingestion_alike localeCompare JSON_parse rq files wc wp Hne eq_refl)
    as (Hidb & Hst & Hsucc).
  fold wp' in Hidb, Hst, Hsucc. rewrite Hs in Hst.
  destruct (Hsucc (eq_sym Hst)) as [_ Hsch].
  assert (Ingest.putAll ∅
            (omap Ingest.keyed (FolderUploader.pduFiles_of localeCompare files)) = m) as Hm.
  { subst m. apply map_eq. intros k.
    rewrite !putAll_lookup_last, !filter_keyed. by rewrite pduFiles_of_same_index. }
  rewrite Hdb, Hm in Hidb.
  split; [done|]. split; [by rewrite <- Hidb|].
  subst s'. rewrite <- Hidb. unfold onMountPage.
  set (s0 := match UploadPage.sessionTiming wp' with Some _ => _ | None => _ end).
  assert (effects s0 = [] ∧ replay s0 = None ∧ error s0 = None) as (He0 & Hr0 & Herr0).
  { subst s0. destruct (UploadPage.sessionTiming wp') as [txt|]; [|done].
    by destruct (JSON_parse txt). }
  unfold getFrameCount, openDatabase. async_unfold. cbn [dbInstance frames].
  rewrite Hcount. cbn [fst snd].
  destruct (IngestMore.candidates files) as [|c cs] eqn:Hcand.
  - assert (Z.of_nat (size m) = 0) as -> by (subst m; by cbn).
    cbn [Z.eqb fst emit effects replay error]. by rewrite He0, Hr0, Herr0.
  - assert (m ≠ ∅) as Hnz.
    { subst m. apply putAll_nonempty.
      apply Forall_cons in Hr as [[b Hb] _].
      assert (c ∈ IngestMore.candidates files) as Hin by (rewrite Hcand; left).
      unfold IngestMore.candidates in Hin. apply list_elem_of_In in Hin.
      apply List.filter_In in Hin as [_ Hd].
      destruct (JSFacts.parseInt_only_digits _ Hd) as [Hk _].
      cbn [omap list_omap]. unfold Ingest.keyed at 1.
      by rewrite Hb, Hk. }
    apply map_size_non_empty_iff in Hnz.
    destruct (Z.eqb_spec (Z.of_nat (size m)) 0) as [Hz|_]; [lia|].
    unfold loadWasm. rewrite Hctx. cbn [negb frames]. rewrite Himp, Hinit.
    destruct (Wasm.create E DB_NAME m DEFAULT_WIDTH DEFAULT_HEIGHT);
      cbn [fst emit effects replay error totalFrames set_replay set_error
           set_isInitialized set_ReplayClass set_ctx set_totalFrames];
      by rewrite ?He0, ?Hr0, ?Herr0.
Qed.

End UploadToPlayer.

Lemma upload_then_player_mount_witness :
  let files := [Sample.file "1" [Byte.x01]; Sample.textFile "timing.json" "[]";
                Sample.file "0" [Byte.x00]] in
  let wp := {| UploadPage.uploadState :=
                 {| FolderUploader.status := FolderUploader.idle;
                    FolderUploader.message := "";
                    FolderUploader.progress := 0; FolderUploader.total := 0 |};
               UploadPage.frameCount := 0;
               UploadPage.sessionTiming := None;
               UploadPage.idb :=
                 {| PduStore.dbInstance := false; PduStore.frames := {[ 9 := [] ]} |};
               UploadPage.scheduled := [] |} in
  let wp' := UploadPage.handleFolderSelect Sample.codeUnitCompare
               Sample.parseEmptyArray PduStore.no_faults files wp in
  let s' := (Player.onMountPage SampleEngine.loads Sample.parseEmptyArray
               PduStore.no_faults (UploadPage.sessionTiming wp')
               (Player.initial (SampleEngine.scripted []) [])
               (UploadPage.idb wp')).1 in
  UploadPage.scheduled wp' = [("/player", 800)] ∧
  Player.totalFrames s' = 2 ∧
  Player.replay s'
  = Some {| SampleEngine.script := []; SampleEngine.frame := 0 |}.
Proof.
  intros files wp wp' s'.
  destruct (upload_then_player_mount Sample.codeUnitCompare Sample.parseEmptyArray
              PduStore.no_faults (SampleEngine.scripted []) files wp SampleEngine.loads)
    as (Hsch & Hm & Htot & _ & Hrep & _).
  - done.
  - split; [by right|reflexivity].
  - by split.
  - vm_compute. repeat constructor; by eexists.
  - repeat constructor; by vm_compute.
  - apply consistentb_correct. by vm_compute.
  - reflexivity.
  - reflexivity.
  - reflexivity.
  - split; [exact Hsch|]. split; [exact Htot|exact Hrep].
Defined.
